(** * em-ray-tracing: the k-d tree accelerator and the ray launcher

    A shallow embedding of [src/Engine/KdTreeAcc.cpp] (SAH build and the
    TA_rec_B traversal) and of the engine file (field kernels, the recursive
    [trace], [Simulate], [GetRxPowers], [AddStlModel]).

    C++ [double] is IEEE-754 binary64 and is modelled by Rocq's primitive
    [float]; C++ [int] is modelled by [Z] (no claim depends on overflow). *)

From Stdlib Require Import ZArith List Bool Lia Floats.
From Stdlib Require Strings.Byte.
From stdpp Require Import base list.
Import ListNotations.

Local Open Scope Z_scope.
Set Warnings "-inexact-float".
#[local] Set Warnings "-deprecated".

(** ** Numeric primitives *)

Definition DBL_MAX : float := 0x1.fffffffffffffp+1023%float.

(** Conversion of a (small) C++ [int] to [double]. *)
Definition double_of_int (z : Z) : float :=
  if z <? 0 then PrimFloat.opp (PrimFloat.of_uint63 (Uint63.of_Z (- z)))
  else PrimFloat.of_uint63 (Uint63.of_Z z).

(** [std::min] and [std::max] on doubles: [min(a,b)] is [(b < a) ? b : a]
    and [max(a,b)] is [(a < b) ? b : a]. *)
Definition std_min (a b : float) : float := if (b <? a)%float then b else a.
Definition std_max (a b : float) : float := if (a <? b)%float then b else a.

Record Point := mkPoint { px : float; py : float; pz : float }.
Record Vector := mkVector { vx : float; vy : float; vz : float }.

(** Modelled from the spec: [Point.h] and [Vector.h] are not among the
    sources.  "index-by-axis (0=x,1=y,2=z)"; "Points support component-wise
    subtraction to a Vector" ([Vector(p, q)] is [q - p]). *)
Definition Point_get (p : Point) (axis : Z) : float :=
  if axis =? 0 then px p else if axis =? 1 then py p else pz p.

Definition Point_set (p : Point) (axis : Z) (v : float) : Point :=
  if axis =? 0 then mkPoint v (py p) (pz p)
  else if axis =? 1 then mkPoint (px p) v (pz p)
  else mkPoint (px p) (py p) v.

Definition Vector_get (v : Vector) (axis : Z) : float :=
  if axis =? 0 then vx v else if axis =? 1 then vy v else vz v.

Definition Vector_of_points (p q : Point) : Vector :=
  mkVector (px q - px p)%float (py q - py p)%float (pz q - pz p)%float.

(** ** Geometry *)

(** The two geometry kinds of the scene ([type == TRIANGLE] and
    [type == SPHERE]).  A triangle carries its three vertices and its normal;
    a receiver sphere its centre, radius and receiver index. *)
Inductive Geometry :=
| Triangle (a b c : Point) (n : Vector)
| Sphere (center : Point) (radius : float) (index : Z).

Definition is_sphere (g : Geometry) : bool :=
  match g with Sphere _ _ _ => true | Triangle _ _ _ _ => false end.

(** Modelled from the spec: [Triangle::getBoundingBox] is not among the
    sources.  "Bounding box is the componentwise min/max of vertices." *)
Definition Triangle_getBoundingBox (a b c : Point) : Point * Point :=
  (mkPoint (std_min (px a) (std_min (px b) (px c)))
           (std_min (py a) (std_min (py b) (py c)))
           (std_min (pz a) (std_min (pz b) (pz c))),
   mkPoint (std_max (px a) (std_max (px b) (px c)))
           (std_max (py a) (std_max (py b) (py c)))
           (std_max (pz a) (std_max (pz b) (pz c)))).

(** Modelled from the spec: [Sphere::getBoundingBox] is not among the
    sources; the box of a sphere is taken as centre -/+ radius, the extent
    [buildKdTree] itself uses when it distributes spheres. *)
Definition Sphere_getBoundingBox (c : Point) (r : float) : Point * Point :=
  (mkPoint (px c - r)%float (py c - r)%float (pz c - r)%float,
   mkPoint (px c + r)%float (py c + r)%float (pz c + r)%float).

Definition getBoundingBox (g : Geometry) : Point * Point :=
  match g with
  | Triangle a b c _ => Triangle_getBoundingBox a b c
  | Sphere c r _ => Sphere_getBoundingBox c r
  end.

(** ** The k-d tree *)

(** A [KdNode] is a leaf ([axis == NoAxis], no children, a geometry list) or
    an internal node (an axis, kept as the [int] 0, 1 or 2 that [splitSAH]
    chose, a split plane, two owned children, an empty list).  Both carry the
    node's box [min], [max]. *)
Inductive KdNode :=
| Leaf (nmin nmax : Point) (lst : list Geometry)
| Internal (nmin nmax : Point) (axis : Z) (splitPlane : float)
           (left right : KdNode).

Definition node_min (n : KdNode) : Point :=
  match n with Leaf m _ _ => m | Internal m _ _ _ _ _ => m end.
Definition node_max (n : KdNode) : Point :=
  match n with Leaf _ m _ => m | Internal _ m _ _ _ _ => m end.

(** *** SAH events *)

(** Modelled from the spec: the enumeration of [KdEvent] types lives in
    [KdTreeAcc.h], which is not among the sources.  "Sort events by
    (position, type) with the tie-break order End < Planar < Start." *)
Inductive EventType := End | Planar | Start.

Definition int_of_EventType (t : EventType) : Z :=
  match t with End => 0 | Planar => 1 | Start => 2 end.

Definition EventType_eqb (s t : EventType) : bool :=
  int_of_EventType s =? int_of_EventType t.

Record KdEvent := mkKdEvent
  { ev_geometry : Geometry; ev_position : float; ev_type : EventType }.

(** [cmpKdEvent], lines 28-32. *)
Definition cmpKdEvent (a b : KdEvent) : bool :=
  (ev_position a <? ev_position b)%float
  || ((ev_position a =? ev_position b)%float
      && (int_of_EventType (ev_type a) <? int_of_EventType (ev_type b))).

(** [std::sort(events.begin(), events.end(), cmpKdEvent)]: the sweep below
    only reads [position] and [type], on which the comparator is a strict weak
    order, so any sorting algorithm gives the same sweep; an insertion sort
    stands for it. *)
Fixpoint insert_event (e : KdEvent) (l : list KdEvent) : list KdEvent :=
  match l with
  | [] => [e]
  | x :: l' => if cmpKdEvent x e then x :: insert_event e l' else e :: x :: l'
  end.

Definition sort_events (l : list KdEvent) : list KdEvent :=
  fold_right insert_event [] l.

(** The event list of one axis, lines 203-220. *)
Definition events_of (axis : Z) (g : Geometry) : list KdEvent :=
  let '(bmin, bmax) := getBoundingBox g in
  if (Point_get bmin axis =? Point_get bmax axis)%float
  then [mkKdEvent g (Point_get bmin axis) Planar]
  else [mkKdEvent g (Point_get bmin axis) Start;
        mkKdEvent g (Point_get bmax axis) End].

Definition generate_events (axis : Z) (lst : list Geometry) : list KdEvent :=
  concat (map (events_of axis) lst).

(** One of the three inner [while] loops of the sweep: count and skip the
    leading events at [position] of type [t]. *)
Fixpoint skip_events (position : float) (t : EventType) (evs : list KdEvent)
  : Z * list KdEvent :=
  match evs with
  | e :: evs' =>
      if (ev_position e =? position)%float && EventType_eqb (ev_type e) t
      then let '(n, rest) := skip_events position t evs' in (n + 1, rest)
      else (0, evs)
  | [] => (0, [])
  end.

(** The running best of [splitSAH]: [minSAH], and [minPosition] with
    [bestAxis] once some candidate has been accepted (both are uninitialised
    C++ variables until then). *)
Record SAHBest := mkSAHBest
  { minSAH : float; minSplit : option (float * Z) }.

(** The cost of the candidate plane, lines 265-279: the code's expression
    [1 + 1.5f * ((SAL / SA) * NL + SAR / SA * (NR + NP))]. *)
Definition SAH_cost (nmin nmax : Point) (axis : Z) (position : float)
    (NL NP NR : Z) : float :=
  let nextAxis := (axis + 1) mod 3 in
  let prevAxis := (axis + 2) mod 3 in
  let boxSize := Vector_of_points nmin nmax in
  let width := (Point_get nmax axis - Point_get nmin axis)%float in
  let leftWidth := (position - Point_get nmin axis)%float in
  let rightWidth := (Point_get nmax axis - position)%float in
  let height := Vector_get boxSize nextAxis in
  let depth := Vector_get boxSize prevAxis in
  let SAL := (leftWidth * height + leftWidth * depth + height * depth)%float in
  let SAR := (rightWidth * height + rightWidth * depth + height * depth)%float in
  let SA := (width * height + width * depth + height * depth)%float in
  (1 + 1.5 * ((SAL / SA) * double_of_int NL
              + SAR / SA * double_of_int (NR + NP)))%float.

(** The sweep over the sorted events of one axis, lines 226-288.  Each
    iteration consumes the [End], then the [Planar], then the [Start] events
    at the position of the first remaining event.  When that position is a
    NaN nothing is consumed and the C++ loop never ends: the model then runs
    out of [fuel] and answers [None]. *)
Fixpoint sweep (fuel : nat) (nmin nmax : Point) (axis : Z)
    (evs : list KdEvent) (NL NR : Z) (best : SAHBest) : option SAHBest :=
  match evs with
  | [] => Some best
  | e :: _ =>
      match fuel with
      | O => None
      | S fuel' =>
          let position := ev_position e in
          let '(PE, evs1) := skip_events position End evs in
          let '(PP, evs2) := skip_events position Planar evs1 in
          let '(PS, evs3) := skip_events position Start evs2 in
          let NP := PP in
          let NR := NR - PP - PE in
          let SAH := SAH_cost nmin nmax axis position NL NP NR in
          let best' :=
            if (SAH <? minSAH best)%float
            then mkSAHBest SAH (Some (position, axis)) else best in
          sweep fuel' nmin nmax axis evs3 (NL + PS + PP) NR best'
      end
  end.

Definition sweep_axis (nmin nmax : Point) (lst : list Geometry) (axis : Z)
    (best : SAHBest) : option SAHBest :=
  let events := sort_events (generate_events axis lst) in
  sweep (length events) nmin nmax axis events 0 (Z.of_nat (length lst)) best.

(** [splitSAH], lines 195-292: the three axes in turn. *)
Definition splitSAH (nmin nmax : Point) (lst : list Geometry)
  : option SAHBest :=
  match sweep_axis nmin nmax lst 0 (mkSAHBest DBL_MAX None) with
  | None => None
  | Some b0 =>
      match sweep_axis nmin nmax lst 1 b0 with
      | None => None
      | Some b1 => sweep_axis nmin nmax lst 2 b1
      end
  end.

(** *** Build *)

(** The clipping rule of lines 126-160: which children receive a geometry. *)
Definition goes_left (axis : Z) (median : float) (g : Geometry) : bool :=
  match g with
  | Triangle a b c _ =>
      (Point_get a axis <? median)%float
      || (Point_get b axis <? median)%float
      || (Point_get c axis <? median)%float
  | Sphere center radius _ =>
      (Point_get center axis - radius <? median)%float
  end.

Definition goes_right (axis : Z) (median : float) (g : Geometry) : bool :=
  match g with
  | Triangle a b c _ =>
      (median <=? Point_get a axis)%float
      || (median <=? Point_get b axis)%float
      || (median <=? Point_get c axis)%float
  | Sphere center radius _ =>
      (median <=? Point_get center axis + radius)%float
  end.

(** The automatic termination test of line 81, [sah > 1.5f * list.size()].
    (The product is a C++ [float]; it is exact, hence equal to the double
    product used here, for every list of fewer than 2^22 geometries.) *)
Definition sah_terminates (sah : float) (lst : list Geometry) : bool :=
  (1.5 * double_of_int (Z.of_nat (length lst)) <? sah)%float.

(** The leaf test of line 38, [list.size() <= 8 || depth > 18]. *)
Definition leaf_test (lst : list Geometry) (depth : Z) : bool :=
  (Z.of_nat (length lst) <=? 8) || (18 <? depth).

(** [buildKdTree], lines 34-164.  The node to fill is given by its box; the
    result is the filled node.  [None] stands for a run that does not return
    a tree: the sweep of [splitSAH] never ends (a NaN coordinate), or the
    uninitialised [axis] and [median] would be used.  The recursion is on
    [fuel], which [buildKdTree] below sets to the number of levels left
    before [depth > 18] forces a leaf.  (The counters [numLeaves] and
    [leafElements] only feed the debug prints of [init] and are left out.) *)
Fixpoint buildKdTree_rec (fuel : nat) (nmin nmax : Point)
    (lst : list Geometry) (depth : Z) : option KdNode :=
  if leaf_test lst depth then Some (Leaf nmin nmax lst)
  else
    match fuel with
    | O => None
    | S fuel' =>
        match splitSAH nmin nmax lst with
        | None => None
        | Some best =>
            if sah_terminates (minSAH best) lst then Some (Leaf nmin nmax lst)
            else
              match minSplit best with
              | None => None
              | Some (median, axis) =>
                  let leftPart := List.filter (goes_left axis median) lst in
                  let rightPart := List.filter (goes_right axis median) lst in
                  match buildKdTree_rec fuel' nmin (Point_set nmax axis median)
                          leftPart (depth + 1) with
                  | None => None
                  | Some l =>
                      match buildKdTree_rec fuel' (Point_set nmin axis median) nmax
                              rightPart (depth + 1) with
                      | None => None
                      | Some r => Some (Internal nmin nmax axis median l r)
                      end
                  end
              end
        end
    end.

Definition buildKdTree (nmin nmax : Point) (lst : list Geometry) (depth : Z)
  : option KdNode :=
  buildKdTree_rec (Z.to_nat (19 - depth)) nmin nmax lst depth.

(** The box of the root, lines 304-322 of [init]. *)
Definition root_box (scene : list Geometry) : Point * Point :=
  fold_left
    (fun '(bmin, bmax) g =>
       let '(gmin, gmax) := getBoundingBox g in
       (mkPoint (std_min (px bmin) (px gmin)) (std_min (py bmin) (py gmin))
                (std_min (pz bmin) (pz gmin)),
        mkPoint (std_max (px bmax) (px gmax)) (std_max (py bmax) (py gmax))
                (std_max (pz bmax) (pz gmax))))
    scene
    (mkPoint DBL_MAX DBL_MAX DBL_MAX,
     mkPoint (- DBL_MAX)%float (- DBL_MAX)%float (- DBL_MAX)%float).

(** [KdTreeAcc::init], lines 294-330: the root of the tree built over the
    scene. *)
Definition init (scene : list Geometry) : option KdNode :=
  let '(rmin, rmax) := root_box scene in
  buildKdTree rmin rmax scene 0.

(** Depth of the deepest node, the root being at [depth]. *)
Fixpoint tree_depth (t : KdNode) (depth : Z) : Z :=
  match t with
  | Leaf _ _ _ => depth
  | Internal _ _ _ _ l r =>
      Z.max (tree_depth l (depth + 1)) (tree_depth r (depth + 1))
  end.

(** The leaves of a tree, each with its depth, box and list. *)
Fixpoint leaves (t : KdNode) (depth : Z)
  : list (Z * (Point * Point) * list Geometry) :=
  match t with
  | Leaf bmin bmax l => [(depth, (bmin, bmax), l)]
  | Internal _ _ _ _ l r => leaves l (depth + 1) ++ leaves r (depth + 1)
  end.

(** ** Rays and intersection results *)

(** Modelled from the spec: [Ray.h] is not among the sources.  "Ray: origin
    point, unit direction vector, unit_surface_area, plus traversal state:
    state in {Start, FirstReflect, MoreReflect}, prev_point, prev_mileage,
    path (ordered sequence of triangle indices)".  The constructor
    [Ray(origin, direction, area)] gives a ray in [Start] state with an empty
    path and no mileage. *)
Module Ray.
Inductive State := Start | FirstReflect | MoreReflect.

Record t := mk
  { origin : Point; direction : Vector; unit_surface_area : float;
    state : State; prev_point : Point; prev_mileage : float;
    path : list Z }.

Definition new (o : Point) (d : Vector) (area : float) : t :=
  mk o d area Start (mkPoint 0 0 0) 0%float [].
End Ray.

(** [IntersectResult]: [IntersectResult(false)] is [NoHit]; a hit carries its
    distance, position, normal and the geometry that was hit. *)
Inductive IntersectResult :=
| NoHit
| Hit (distance : float) (position : Point) (normal : Vector)
      (geometry : Geometry).

Definition hit (r : IntersectResult) : bool :=
  match r with NoHit => false | Hit _ _ _ _ => true end.

Record RxSphereInfo := mkRxSphereInfo
  { info_distance : float; info_offset : float; info_radius : float }.

Record RxIntersection := mkRxIntersection
  { rx_index : Z; rx_distance : float; rx_offset : float; rx_radius : float }.

(** Modelled from the spec: "Vectors support dot, cross, norm-to-unit,
    length" ([Vector.h] is not among the sources). *)
Definition Vector_length (v : Vector) : float :=
  PrimFloat.sqrt (vx v * vx v + vy v * vy v + vz v * vz v)%float.

(** [origin + direction * s]. *)
Definition Ray_at (r : Ray.t) (s : float) : Point :=
  mkPoint (px (Ray.origin r) + vx (Ray.direction r) * s)%float
          (py (Ray.origin r) + vy (Ray.direction r) * s)%float
          (pz (Ray.origin r) + vz (Ray.direction r) * s)%float.

(** [std::map<int, RxSphereInfo>]: an association list kept in increasing
    key order, which is the order an iterator visits it in.
    [rxIntersections[k]] followed by the assignment of its three fields
    creates or overwrites the entry of [k]. *)
Fixpoint rx_insert (k : Z) (v : RxSphereInfo) (m : list (Z * RxSphereInfo))
  : list (Z * RxSphereInfo) :=
  match m with
  | [] => [(k, v)]
  | (k', v') :: m' =>
      if k <? k' then (k, v) :: m
      else if k =? k' then (k, v) :: m'
      else (k', v') :: rx_insert k v m'
  end.

(** *** Traversal *)

(** An entry of the traversal stack, [StackElem stack[50]]. *)
Record StackElem := mkStackElem
  { se_t : float; se_pb : Point; se_node : option KdNode; se_prev : Z }.

Definition STACK_SIZE : Z := 50.

(** The local array is not initialised: slot [i] starts with the arbitrary
    content [garbage i]. *)
Definition fresh_stack (garbage : nat -> StackElem) : list StackElem :=
  map garbage (seq 0 (Z.to_nat STACK_SIZE)).

(** Outcome of running a piece of the traversal: a value, an access to the
    stack array outside [0, 49], or no answer within the given number of
    steps. *)
Inductive Run (A : Type) :=
| Ret (a : A)
| OutOfBounds (i : Z)
| Timeout.
Arguments Ret {A} a.
Arguments OutOfBounds {A} i.
Arguments Timeout {A}.

Definition bind {A B} (m : Run A) (f : A -> Run B) : Run B :=
  match m with
  | Ret a => f a
  | OutOfBounds i => OutOfBounds i
  | Timeout => Timeout
  end.

Notation "'do' x <- m ; k" := (bind m (fun x => k))
  (at level 10, x name, m at level 100, k at level 200).

(** Read of [stack[i]]. *)
Definition stack_get (stack : list StackElem) (i : Z) : Run StackElem :=
  if (0 <=? i) && (i <? STACK_SIZE) then
    match stack !! Z.to_nat i with
    | Some e => Ret e
    | None => OutOfBounds i
    end
  else OutOfBounds i.

(** Write of some fields of [stack[i]]: [f] maps the old entry to the new. *)
Definition stack_update (stack : list StackElem) (i : Z)
    (f : StackElem -> StackElem) : Run (list StackElem) :=
  do e <- stack_get stack i ;
  Ret (<[Z.to_nat i := f e]> stack).

(** The float literal [0.001f], promoted to double. *)
Definition EPS_F : float := 0x1.0624dep-10%float.

(** State of the loop of [intersect]: the current node, the stack with its
    entry and exit indices, and the receivers collected so far. *)
Record Trav := mkTrav
  { currNode : KdNode; stack : list StackElem; enPt : Z; exPt : Z;
    rxIntersections : list (Z * RxSphereInfo) }.

(** What [intersect] hands back: the returned result and the caller's
    [rxPoints] vector after the [push_back]s.  [collected] is not a C++
    output: it records [rxIntersections] as it is when the function returns. *)
Record Answer := mkAnswer
  { result : IntersectResult; rxPoints : list RxIntersection;
    collected : list (Z * RxSphereInfo) }.

Definition RxIntersection_of (e : Z * RxSphereInfo) : RxIntersection :=
  mkRxIntersection (fst e) (info_distance (snd e)) (info_offset (snd e))
                   (info_radius (snd e)).

Section Traversal.
(** [Geometry::intersect] (virtual; [Triangle.cpp] and [Sphere.cpp]) and
    [Grid::intersect] are not among the sources: the traversal is modelled
    for arbitrary ones. *)
Variable Geometry_intersect : Geometry -> Ray.t -> IntersectResult.
Variable Grid_intersect : Point -> Point -> Ray.t -> option (float * float).

Variable ray : Ray.t.

(** Lines 421-435: push the far child. *)
Definition push_far (s : Trav) (axis : Z) (splitVal : float)
    (near far : KdNode) : Run Trav :=
  let nextAxis := (axis + 1) mod 3 in
  let prevAxis := (axis + 2) mod 3 in
  let t := ((splitVal - Point_get (Ray.origin ray) axis)
            / Vector_get (Ray.direction ray) axis)%float in
  let tmp := exPt s in
  let exPt1 := exPt s + 1 in
  let exPt2 := if exPt1 =? enPt s then exPt1 + 1 else exPt1 in
  do stack' <- stack_update (stack s) exPt2 (fun e =>
    mkStackElem t
      (Point_set
         (Point_set (Point_set (se_pb e) axis splitVal) nextAxis
            (Point_get (Ray.origin ray) nextAxis
             + t * Vector_get (Ray.direction ray) nextAxis)%float)
         prevAxis
         (Point_get (Ray.origin ray) prevAxis
          + t * Vector_get (Ray.direction ray) prevAxis)%float)
      (Some far) tmp) ;
  Ret (mkTrav near stack' (enPt s) exPt2 (rxIntersections s)).

(** Lines 376-436: one iteration of the inner loop, at an internal node. *)
Definition descend_step (s : Trav) (axis : Z) (splitVal : float)
    (left right : KdNode) : Run Trav :=
  let goto n := Ret (mkTrav n (stack s) (enPt s) (exPt s) (rxIntersections s)) in
  do en <- stack_get (stack s) (enPt s) ;
  if (Point_get (se_pb en) axis <=? splitVal)%float then
    do ex <- stack_get (stack s) (exPt s) ;
    if (Point_get (se_pb ex) axis <=? splitVal)%float then goto left
    else if (Point_get (se_pb ex) axis =? splitVal)%float then goto right
    else push_far s axis splitVal left right
  else
    do ex <- stack_get (stack s) (exPt s) ;
    if (splitVal <? Point_get (se_pb ex) axis)%float then goto right
    else push_far s axis splitVal right left.

(** Lines 439-466: the scan of a leaf.  The state is [minDistance],
    [minResult] and the collected receivers. *)
Definition scan_geometry (s : Trav)
    (acc : float * IntersectResult * list (Z * RxSphereInfo)) (g : Geometry)
  : Run (float * IntersectResult * list (Z * RxSphereInfo)) :=
  let '(minDistance, minResult, rx) := acc in
  match Geometry_intersect g ray with
  | NoHit => Ret acc
  | Hit distance position normal geometry =>
      do en <- stack_get (stack s) (enPt s) ;
      if (se_t en - EPS_F <=? distance)%float then
        do ex <- stack_get (stack s) (exPt s) ;
        if (distance <=? se_t ex + EPS_F)%float then
          match geometry with
          | Sphere center radius index =>
              if (distance <? minDistance)%float then
                Ret (minDistance, minResult,
                     rx_insert index
                       (mkRxSphereInfo distance
                          (Vector_length (Vector_of_points position center))
                          radius) rx)
              else Ret acc
          | Triangle _ _ _ _ =>
              if (distance <? minDistance)%float
              then Ret (distance, Hit distance position normal geometry, rx)
              else Ret acc
          end
        else Ret acc
      else Ret acc
  end.

Fixpoint scan_leaf (s : Trav) (lst : list Geometry)
    (acc : float * IntersectResult * list (Z * RxSphereInfo))
  : Run (float * IntersectResult * list (Z * RxSphereInfo)) :=
  match lst with
  | [] => Ret acc
  | g :: lst' => do acc' <- scan_geometry s acc g ; scan_leaf s lst' acc'
  end.

(** Lines 468-490, after the scan of a leaf: return the occluder with the
    receivers in front of it, or pop the stack; and lines 493-502 when the
    popped node is [NULL]. *)
Definition leave_leaf (s : Trav) (rxPoints0 : list RxIntersection)
    (minDistance : float) (minResult : IntersectResult)
    (rx : list (Z * RxSphereInfo)) : Run (Trav + Answer) :=
  if hit minResult then
    Ret (inr (mkAnswer minResult
                (rxPoints0
                 ++ map RxIntersection_of
                      (List.filter
                         (fun e => (info_distance (snd e) <? minDistance)%float)
                         rx))
                rx))
  else
    let enPt' := exPt s in
    do ex <- stack_get (stack s) (exPt s) ;
    do en <- stack_get (stack s) enPt' ;
    let exPt' := se_prev en in
    match se_node ex with
    | Some node => Ret (inl (mkTrav node (stack s) enPt' exPt' rx))
    | None =>
        Ret (inr (mkAnswer NoHit (rxPoints0 ++ map RxIntersection_of rx) rx))
    end.

(** One step of the loop of lines 373-491: an iteration of the inner loop
    when the current node is internal, the scan of the leaf and what follows
    it otherwise. *)
Definition step (rxPoints0 : list RxIntersection) (s : Trav)
  : Run (Trav + Answer) :=
  match currNode s with
  | Internal _ _ axis splitVal l r =>
      do s' <- descend_step s axis splitVal l r ; Ret (inl s')
  | Leaf _ _ lst =>
      do acc <- scan_leaf s lst (DBL_MAX, NoHit, rxIntersections s) ;
      let '(minDistance, minResult, rx) := acc in
      leave_leaf s rxPoints0 minDistance minResult rx
  end.

Fixpoint run (fuel : nat) (rxPoints0 : list RxIntersection) (s : Trav)
  : Run Answer :=
  match fuel with
  | O => Timeout
  | S fuel' =>
      do r <- step rxPoints0 s ;
      match r with
      | inl s' => run fuel' rxPoints0 s'
      | inr a => Ret a
      end
  end.

(** Lines 355-370: the stack and indices before the loop. *)
Definition initial (garbage : nat -> StackElem) (root : KdNode)
    (a b : float) : Trav :=
  let stack0 := fresh_stack garbage in
  let stack1 :=
    <[0%nat := mkStackElem a
                 (if (0 <=? a)%float then Ray_at ray a else Ray.origin ray)
                 (se_node (garbage 0%nat)) (se_prev (garbage 0%nat))]> stack0 in
  let stack2 :=
    <[1%nat := mkStackElem b (Ray_at ray b) None (se_prev (garbage 1%nat))]>
      stack1 in
  mkTrav root stack2 0 1 [].

(** [KdTreeAcc::intersect], lines 334-503.  [fuel] bounds the number of
    loop steps. *)
Definition intersect (fuel : nat) (garbage : nat -> StackElem)
    (root : KdNode) (rxPoints0 : list RxIntersection) : Run Answer :=
  match Grid_intersect (node_min root) (node_max root) ray with
  | None => Ret (mkAnswer NoHit rxPoints0 [])
  | Some (a, b) => run fuel rxPoints0 (initial garbage root a b)
  end.
End Traversal.

(** ** Field kernels *)

(** Modelled from the spec: "Vectors support dot, cross, norm-to-unit,
    length" ([Vector.h] is not among the sources). *)
Definition Vector_dot (u v : Vector) : float :=
  (vx u * vx v + vy u * vy v + vz u * vz v)%float.

Definition Vector_cross (u v : Vector) : Vector :=
  mkVector (vy u * vz v - vz u * vy v)%float
           (vz u * vx v - vx u * vz v)%float
           (vx u * vy v - vy u * vx v)%float.

Definition Vector_scale (v : Vector) (s : float) : Vector :=
  mkVector (vx v * s)%float (vy v * s)%float (vz v * s)%float.

Definition Vector_sub (u v : Vector) : Vector :=
  mkVector (vx u - vx v)%float (vy u - vy v)%float (vz u - vz v)%float.

Definition Vector_norm (v : Vector) : Vector :=
  let len := Vector_length v in
  mkVector (vx v / len)%float (vy v / len)%float (vz v / len)%float.

(** Modelled from the spec: "Complex scalar: real/imag double pair";
    "Complex 3-vector: three complex scalars; scalar-times-vector yields a
    complex 3-vector; Matrix (real) times complex 3-vector applies the matrix
    to each complex component independently" ([Complex.h] and [Matrix.h] are
    not among the sources).  The fields are named [a] and [b] as [calc_power]
    reads them. *)
Record ComplexNumber := mkComplex { a : float; b : float }.
Record ComplexVector := mkComplexVector
  { x : ComplexNumber; y : ComplexNumber; z : ComplexNumber }.
Record Matrix := mkMatrix
  { m11 : float; m12 : float; m13 : float;
    m21 : float; m22 : float; m23 : float;
    m31 : float; m32 : float; m33 : float }.

Definition Complex_add (u v : ComplexNumber) : ComplexNumber :=
  mkComplex (a u + a v)%float (b u + b v)%float.
Definition Complex_sub (u v : ComplexNumber) : ComplexNumber :=
  mkComplex (a u - a v)%float (b u - b v)%float.
Definition Complex_mul (u v : ComplexNumber) : ComplexNumber :=
  mkComplex (a u * a v - b u * b v)%float (a u * b v + b u * a v)%float.
Definition Complex_scale (u : ComplexNumber) (s : float) : ComplexNumber :=
  mkComplex (a u * s)%float (b u * s)%float.

Definition ComplexVector_add (u v : ComplexVector) : ComplexVector :=
  mkComplexVector (Complex_add (x u) (x v)) (Complex_add (y u) (y v))
                  (Complex_add (z u) (z v)).
Definition ComplexVector_scale (u : ComplexVector) (s : float) : ComplexVector :=
  mkComplexVector (Complex_scale (x u) s) (Complex_scale (y u) s)
                  (Complex_scale (z u) s).
(** [c * v] for a complex scalar and a real vector. *)
Definition Complex_times_Vector (c : ComplexNumber) (v : Vector) : ComplexVector :=
  mkComplexVector (Complex_scale c (vx v)) (Complex_scale c (vy v))
                  (Complex_scale c (vz v)).

Definition Matrix_times_ComplexVector (m : Matrix) (v : ComplexVector)
  : ComplexVector :=
  let row p q r :=
    Complex_add (Complex_add (Complex_scale (x v) p) (Complex_scale (y v) q))
                (Complex_scale (z v) r) in
  mkComplexVector (row (m11 m) (m12 m) (m13 m)) (row (m21 m) (m22 m) (m23 m))
                  (row (m31 m) (m32 m) (m33 m)).

Definition Matrix_unit : Matrix := mkMatrix 1 0 0 0 1 0 0 0 1.

(** What the engine takes from outside the sources: the C math library, the
    [PI] macro of [Utils.h], and the routines of [Complex.h] and [Matrix.h]
    whose arithmetic the spec does not fix. *)
Class Externals := mkExternals
  { PI : float;
    cos : float -> float;
    sin : float -> float;
    acos : float -> float;
    log10 : float -> float;
    pow : float -> float -> float;
    Complex_Sqrt : ComplexNumber -> ComplexNumber;
    Complex_div : ComplexNumber -> ComplexNumber -> ComplexNumber;
    Matrix_inverse : Matrix -> Matrix }.

(** [struct RtParameter], lines 31-43. *)
Record RtParameter := mkRtParameter
  { permittivity : float; conductivity : float; maxReflections : Z;
    raySpacing : float; frequency : float; lamda : float; k : float }.

(** [calc_new_base(dir, alpha, beta)], lines 224-230. *)
Definition calc_new_base (dir : Vector) : Vector * Vector :=
  let alpha :=
    if (0.1 <? PrimFloat.abs (vx dir))%float
    then Vector_cross (mkVector 0 1 0) dir
    else Vector_cross (mkVector 1 0 0) dir in
  let beta := Vector_cross dir alpha in
  (alpha, beta).

(** The same basis as the specification words it: "alpha = (1,0,0) x j if
    |j_x| > 0.1 else (0,1,0) x j (then normalise); beta = j x alpha". *)
Definition calc_new_base_spec (dir : Vector) : Vector * Vector :=
  let alpha :=
    Vector_norm
      (if (0.1 <? PrimFloat.abs (vx dir))%float
       then Vector_cross (mkVector 1 0 0) dir
       else Vector_cross (mkVector 0 1 0) dir) in
  let beta := Vector_cross dir alpha in
  (alpha, beta).

(** [calc_new_base(axi, axr, alpha1, beta1, alpha2, beta2)], lines 208-222. *)
Definition calc_new_base_reflect (axi axr : Vector)
  : Vector * Vector * Vector * Vector :=
  let alpha1 := Vector_norm (Vector_cross axi axr) in
  let alpha1 :=
    if (PrimFloat.abs (vx alpha1) <? 0.00001)%float
       && (PrimFloat.abs (vy alpha1) <? 0.00001)%float
       && (PrimFloat.abs (vz alpha1) <? 0.00001)%float
    then
      if (0.1 <? PrimFloat.abs (vx axi))%float
      then Vector_norm (Vector_cross (mkVector 0 1 0) axi)
      else Vector_norm (Vector_cross (mkVector 1 0 0) axi)
    else alpha1 in
  let beta1 := Vector_norm (Vector_cross axi alpha1) in
  let alpha2 := alpha1 in
  let beta2 := Vector_norm (Vector_cross axr alpha2) in
  (alpha1, beta1, alpha2, beta2).

(** The receiver-sphere area correction as lines 407-412 apply it. *)
Definition area_correction `{Externals} (r : Ray.t) (rx : RxIntersection)
    (Ez : ComplexVector) : ComplexVector :=
  let mileage := (Ray.prev_mileage r + rx_distance rx)%float in
  let projectionArea := (Ray.unit_surface_area r * mileage * mileage)%float in
  let rxSphereArea := (PI * rx_radius rx * rx_radius rx)%float in
  if (projectionArea <? rxSphereArea)%float
  then ComplexVector_scale Ez (PrimFloat.sqrt (projectionArea / rxSphereArea))
  else Ez.

Section Engine.
Context `{Externals}.

(** The session's globals read by the kernels. *)
Variable parameters : RtParameter.
Variable txPower : float.

(** Modelled from the spec: "ComplexNumber.Euler(mag, phase) returns
    mag * (cos phase + i sin phase)" ([Complex.h] is not among the
    sources). *)
Definition Euler (mag phase : float) : ComplexNumber :=
  mkComplex (mag * cos phase)%float (mag * sin phase)%float.

(** [calc_fresnel_coeff], lines 198-206. *)
Definition calc_fresnel_coeff (psi : float) : ComplexNumber * ComplexNumber :=
  let epsilon :=
    mkComplex (permittivity parameters)
              (-60.0 * lamda parameters * conductivity parameters)%float in
  let eta :=
    Complex_Sqrt
      (Complex_sub epsilon (mkComplex (cos psi * cos psi)%float 0%float)) in
  let RH :=
    Complex_div (Complex_sub (Complex_scale epsilon (sin psi)) eta)
                (Complex_add (Complex_scale epsilon (sin psi)) eta) in
  let RV :=
    Complex_div (Complex_sub (mkComplex (sin psi) 0%float) eta)
                (Complex_add (mkComplex (sin psi) 0%float) eta) in
  (RH, RV).

(** [calc_field_direct(r, distance)], lines 232-256. *)
Definition calc_field_direct (r : Ray.t) (distance : float) : ComplexVector :=
  let Pt := pow 10 (txPower / 10.0 - 3.0)%float in
  let eta0 := 377%float in
  let phi_v := Vector_cross (mkVector 0 0 1) (Ray.direction r) in
  let theta_v := Vector_cross phi_v (Ray.direction r) in
  let E_theta_mag := (PrimFloat.sqrt (Pt * eta0 / (2 * PI)) / distance)%float in
  let E_theta_phase := (- k parameters * distance)%float in
  let E_phi_mag := 0%float in
  let E_phi_phase := 0%float in
  let E_theta := Euler E_theta_mag E_theta_phase in
  let E_phi := Euler E_phi_mag E_phi_phase in
  ComplexVector_add (Complex_times_Vector E_theta theta_v)
                    (Complex_times_Vector E_phi phi_v).

(** The change of basis shared by the two kernels below:
    [A = inv(h) * (unit * Ei)] for [h] with columns [alpha], [beta], [dir]. *)
Definition decompose (alpha beta dir : Vector) (Ei : ComplexVector)
  : ComplexVector :=
  let h := mkMatrix (vx alpha) (vx beta) (vx dir)
                    (vy alpha) (vy beta) (vy dir)
                    (vz alpha) (vz beta) (vz dir) in
  let inv := Matrix_inverse h in
  Matrix_times_ComplexVector inv (Matrix_times_ComplexVector Matrix_unit Ei).

(** [calc_field_direct(r, distance, Ei)], lines 258-302. *)
Definition calc_field_direct_E (r : Ray.t) (distance : float)
    (Ei : ComplexVector) : ComplexVector :=
  let '(alpha, beta) := calc_new_base (Ray.direction r) in
  let A := decompose alpha beta (Ray.direction r) Ei in
  let '(E_alpha, E_beta) :=
    match Ray.state r with
    | Ray.MoreReflect =>
        let factor := (Ray.prev_mileage r / (Ray.prev_mileage r + distance))%float in
        (Complex_mul (x A) (Euler factor (- k parameters * distance)%float),
         Complex_mul (y A) (Euler factor (- k parameters * distance)%float))
    | _ => (mkComplex 0 0, mkComplex 0 0)
    end in
  ComplexVector_add (Complex_times_Vector E_alpha alpha)
                    (Complex_times_Vector E_beta beta).

(** The reflected direction, as lines 307-310 and 430-432 compute it. *)
Definition reflect_direction (dir n : Vector) : Vector :=
  let nl := if (Vector_dot n dir <? 0)%float then n else Vector_scale n (-1) in
  Vector_sub dir (Vector_scale (Vector_scale nl 2) (Vector_dot nl dir)).

(** [calc_field_reflect], lines 304-371, on the hit's [normal] and
    [position]. *)
Definition calc_field_reflect (r : Ray.t) (normal : Vector) (position : Point)
    (Ei : ComplexVector) : ComplexVector :=
  let axi := Ray.direction r in
  let axr := reflect_direction (Ray.direction r) normal in
  let psi := (acos (Vector_dot axi axr) / 2.0)%float in
  let '(RH, RV) := calc_fresnel_coeff psi in
  let '(alpha1, beta1, alpha2, beta2) := calc_new_base_reflect axi axr in
  let A := decompose alpha1 beta1 axi Ei in
  let '(E_alpha, E_beta) :=
    match Ray.state r with
    | Ray.FirstReflect =>
        (Complex_scale (Complex_mul (x A) RV) 1.0,
         Complex_scale (Complex_mul (y A) RH) 1.0)
    | Ray.MoreReflect =>
        let s2 := Vector_length (Vector_of_points (Ray.prev_point r) position) in
        let factor := (Ray.prev_mileage r / (Ray.prev_mileage r + s2))%float in
        (Complex_mul (Complex_mul (x A) RV) (Euler factor (- k parameters * s2)%float),
         Complex_mul (Complex_mul (y A) RH) (Euler factor (- k parameters * s2)%float))
    | Ray.Start => (mkComplex 0 0, mkComplex 0 0)
    end in
  ComplexVector_add (Complex_times_Vector E_alpha alpha2)
                    (Complex_times_Vector E_beta beta2).

(** [calc_power], lines 373-381. *)
Definition calc_power (E : ComplexVector) : float :=
  let norm_sqr :=
    (a (x E) * a (x E) + b (x E) * b (x E)
     + a (y E) * a (y E) + b (y E) * b (y E)
     + a (z E) * a (z E) + b (z E) * b (z E))%float in
  let watt := (lamda parameters * lamda parameters / (8.0 * PI * 377.0)
               * norm_sqr)%float in
  (10 * log10 watt + 30.0)%float.
End Engine.

(** ** The launcher *)

Section Launcher.
Context `{Externals}.

(** The session's globals, and the accelerator chosen by
    [SetPreprocessMethod]: [accelerator->intersect(r, rxSpheres)] on an empty
    [rxSpheres] gives the result and the vector's final content.
    [geometry_index] is [Geometry::index], whose assignment is not among the
    sources. *)
Variable parameters : RtParameter.
Variable txPower : float.
Variable accelerator_intersect : Ray.t -> IntersectResult * list RxIntersection.
Variable geometry_index : Geometry -> Z.

(** The receiver buckets: [RxFields.h] is not among the sources, so the
    bucket type and its two operations, [AddField(Ez, path, offset)] and
    [Sum()], are arbitrary. *)
Context {RxFields : Type}.
Variable AddField : RxFields -> ComplexVector -> list Z -> float -> RxFields.
Variable RxFields_Sum : RxFields -> ComplexVector.

(** [rxFields[index].AddField(Ez, path, offset)] on the global vector.  (An
    index outside the vector has no defined outcome in C++; the vector is
    then left as it is.) *)
Definition record_field (rxFields : list RxFields) (index : Z)
    (Ez : ComplexVector) (path : list Z) (offset : float) : list RxFields :=
  if index <? 0 then rxFields
  else alter (fun f => AddField f Ez path offset) (Z.to_nat index) rxFields.

(** The ray spawned at a hit, lines 434-438 and 491-495: a fresh [Ray]
    whose state, previous point and mileage are then assigned and to whose
    (fresh) path the index of the hit geometry is added. *)
Definition spawn (r : Ray.t) (position : Point) (normal : Vector)
    (mileage : float) (geometry : Geometry) : Ray.t :=
  let v := reflect_direction (Ray.direction r) normal in
  let newRay := Ray.new position v (Ray.unit_surface_area r) in
  Ray.mk (Ray.origin newRay) (Ray.direction newRay)
         (Ray.unit_surface_area newRay) Ray.MoreReflect position mileage
         (Ray.path newRay ++ [geometry_index geometry]).

(** Lines 400-417: the contributions of the pierced receivers on a segment
    that carries the field [E]. *)
Definition record_carried (r : Ray.t) (E : ComplexVector)
    (rxSpheres : list RxIntersection) (rxFields : list RxFields)
  : list RxFields :=
  fold_left
    (fun fields rx =>
       let Ez := calc_field_direct_E parameters r (rx_distance rx) E in
       let Ez := area_correction r rx Ez in
       record_field fields (rx_index rx) Ez (Ray.path r) (rx_offset rx))
    rxSpheres rxFields.

(** Lines 458-471: the contributions of the pierced receivers on the
    segment that leaves the transmitter. *)
Definition record_direct (r : Ray.t) (rxSpheres : list RxIntersection)
    (rxFields : list RxFields) : list RxFields :=
  match Ray.state r with
  | Ray.Start =>
      fold_left
        (fun fields rx =>
           let Ez := calc_field_direct parameters txPower r (rx_distance rx) in
           record_field fields (rx_index rx) Ez (Ray.path r) (rx_offset rx))
        rxSpheres rxFields
  | _ => rxFields
  end.

(** [trace(r, depth, E)], lines 392-451, as a transformer of the global
    [rxFields].  [fuel] bounds the nesting of the recursive calls; [None]
    is the answer when it runs out. *)
Fixpoint trace_E (fuel : nat) (r : Ray.t) (depth : Z) (E : ComplexVector)
    (rxFields : list RxFields) : option (list RxFields) :=
  let '(result, rxSpheres) := accelerator_intersect r in
  if maxReflections parameters <? depth then Some rxFields
  else
    let rxFields := record_carried r E rxSpheres rxFields in
    match result with
    | Hit distance position normal geometry =>
        match Ray.state r with
        | Ray.MoreReflect =>
            let Ei := calc_field_direct_E parameters r distance E in
            let Er := calc_field_reflect parameters r normal position Ei in
            let newRay :=
              spawn r position normal (Ray.prev_mileage r + distance)%float
                    geometry in
            match fuel with
            | O => None
            | S fuel' => trace_E fuel' newRay (depth + 1) Er rxFields
            end
        | _ => Some rxFields
        end
    | NoHit => Some rxFields
    end.

(** The fuel that a call at [depth] needs: one unit per level up to
    [maxReflections]. *)
Definition trace_fuel (depth : Z) : nat :=
  Z.to_nat (maxReflections parameters + 1 - depth).

(** [trace(r, depth)], lines 453-504. *)
Definition trace (r : Ray.t) (depth : Z) (rxFields : list RxFields)
  : option (list RxFields) :=
  let '(result, rxSpheres) := accelerator_intersect r in
  let rxFields := record_direct r rxSpheres rxFields in
  match result with
  | Hit distance position normal geometry =>
      match Ray.state r with
      | Ray.Start =>
          let Ei := calc_field_direct parameters txPower r distance in
          let r1 :=
            Ray.mk (Ray.origin r) (Ray.direction r) (Ray.unit_surface_area r)
                   Ray.FirstReflect (Ray.prev_point r) (Ray.prev_mileage r)
                   (Ray.path r) in
          let Er := calc_field_reflect parameters r1 normal position Ei in
          let newRay :=
            spawn r position normal
                  (Vector_length (Vector_of_points (Ray.origin r) position))
                  geometry in
          trace_E (trace_fuel (depth + 1)) newRay (depth + 1) Er rxFields
      | _ => Some rxFields
      end
  | NoHit => Some rxFields
  end.

(** *** Read-out *)

(** The body of the loop of [GetRxPowers], lines 566-576. *)
Definition rx_power (f : RxFields) : float :=
  let sum := RxFields_Sum f in
  if (a (x sum) =? 0)%float && (b (x sum) =? 0)%float
     && (a (y sum) =? 0)%float && (b (y sum) =? 0)%float
     && (a (z sum) =? 0)%float && (b (z sum) =? 0)%float
  then (txPower - 250.0)%float
  else calc_power parameters sum.

(** The loop of [GetRxPowers] from index [i] on, [fields] being the
    buckets not yet visited.  [powers] is the caller's array; a write past
    its end has no defined outcome ([None]). *)
Fixpoint GetRxPowers_from (i : nat) (fields : list RxFields)
    (powers : list float) : option (list float) :=
  match fields with
  | [] => Some powers
  | f :: fields' =>
      if (i <? length powers)%nat
      then GetRxPowers_from (S i) fields' (<[i := rx_power f]> powers)
      else None
  end.

(** [GetRxPowers(powers, n)], lines 562-578, on the global [rxFields]. *)
Definition GetRxPowers (rxFields : list RxFields) (powers : list float)
    (n : Z) : option (list float) :=
  GetRxPowers_from 0 rxFields powers.
End Launcher.

(** ** The session: [Simulate] *)

(** The C++ conversion [(int)d] of a double: truncation towards zero.  (The
    conversion of a NaN, of an infinity or of a value that does not fit has
    no defined outcome; 0 stands for it.) *)
Definition int_of_double (d : float) : Z :=
  match Prim2SF d with
  | S754_finite s m e =>
      let magnitude :=
        if 0 <=? e then Z.pos m * 2 ^ e else Z.pos m / 2 ^ (- e) in
      if s then - magnitude else magnitude
  | _ => 0
  end.

Section Session.
Context `{Externals}.
Context {RxFields : Type}.

(** The accelerator chosen by [SetPreprocessMethod], once [init] has run on
    the scene: its [intersect] on an empty [rxSpheres].  A default-constructed
    bucket is [RxFields_new]. *)
Variable accelerator : list Geometry -> Ray.t -> IntersectResult * list RxIntersection.
Variable geometry_index : Geometry -> Z.
Variable AddField : RxFields -> ComplexVector -> list Z -> float -> RxFields.
Variable RxFields_new : RxFields.

(** [calc_sphere_area], lines 383-390. *)
Definition calc_sphere_area (theta1 theta2 phi1 phi2 : float) : float :=
  ((theta2 - theta1) * (cos phi1 - cos phi2))%float.

(** The ray of cell [(i, j)], lines 542-551. *)
Definition cell_ray (txPoint : Point) (nTheta nPhi i j : Z) : Ray.t :=
  let theta := (double_of_int i * PI * 2.0 / double_of_int nTheta)%float in
  let phi := ((double_of_int j + 0.5) * PI / double_of_int nPhi)%float in
  let theta1 := (double_of_int i * PI * 2.0 / double_of_int nTheta)%float in
  let theta2 := (double_of_int (i + 1) * PI * 2.0 / double_of_int nTheta)%float in
  let phi1 := (double_of_int j * PI / double_of_int nPhi)%float in
  let phi2 := (double_of_int (j + 1) * PI / double_of_int nPhi)%float in
  let unitSufaceArea := calc_sphere_area theta1 theta2 phi1 phi2 in
  Ray.new txPoint
    (mkVector (sin phi * cos theta)%float (sin phi * sin theta)%float (cos phi))
    unitSufaceArea.

(** The rays of the two nested loops of lines 535-555, in launch order. *)
Definition launched_rays (txPoint : Point) (raySpacing : float) : list Ray.t :=
  let nTheta := int_of_double (360.0 / raySpacing + 0.5)%float in
  let nPhi := int_of_double (180.0 / raySpacing + 0.5)%float in
  flat_map
    (fun i =>
       map (fun j => cell_ray txPoint nTheta nPhi (Z.of_nat i) (Z.of_nat j))
           (seq 0 (Z.to_nat nPhi)))
    (seq 0 (Z.to_nat nTheta)).

(** [trace(ray, 0)] on each ray in turn. *)
Fixpoint trace_all (parameters : RtParameter) (txPower : float)
    (scene : list Geometry) (rays : list Ray.t) (rxFields : list RxFields)
  : option (list RxFields) :=
  match rays with
  | [] => Some rxFields
  | ray :: rays' =>
      match trace parameters txPower (accelerator scene) geometry_index
                  AddField ray 0 rxFields with
      | Some rxFields' => trace_all parameters txPower scene rays' rxFields'
      | None => None
      end
  end.

(** The automatic parameters of lines 518-519. *)
Definition with_wavelength (parameters : RtParameter) : RtParameter :=
  let lamda := (299792458.0 / (frequency parameters * 1000000.0))%float in
  mkRtParameter (permittivity parameters) (conductivity parameters)
    (maxReflections parameters) (raySpacing parameters) (frequency parameters)
    lamda (2 * PI / lamda)%float.

(** [Simulate], lines 506-560, as a transformer of the globals [scene],
    [parameters] and [rxFields]. *)
Definition Simulate (scene : list Geometry) (txPoint : Point) (txPower : float)
    (rxPoints : list Point) (rxRadius : float) (parameters : RtParameter)
    (rxFields : list RxFields)
  : option (list Geometry * RtParameter * list RxFields) :=
  let scene :=
    scene ++ imap (fun i p => Sphere p rxRadius (Z.of_nat i)) rxPoints in
  let rxFields := rxFields ++ map (fun _ => RxFields_new) rxPoints in
  let parameters := with_wavelength parameters in
  match trace_all parameters txPower scene
          (launched_rays txPoint (raySpacing parameters)) rxFields with
  | Some rxFields => Some (scene, parameters, rxFields)
  | None => None
  end.
End Session.

(** ** Binary STL input *)

Module Stl.
(** A 32-bit variable is its unsigned value; the machine is little-endian,
    as the file format is. *)
Definition le_value (bytes : list Byte.byte) : Z :=
  fold_right (fun byte acc => Z.of_N (Strings.Byte.to_N byte) + 256 * acc) 0 bytes.

(** [fread(&v, size, 1, fp)] on a variable of [size] bytes holding [v]: the
    bytes still in the file, at most [size] of them, overwrite the first
    bytes of the variable and are consumed. *)
Definition fread (size : nat) (v : Z) (fp : list Byte.byte)
  : Z * list Byte.byte :=
  let got := take size fp in
  let kept := 256 ^ Z.of_nat (length got) in
  (le_value got + (v mod 256 ^ Z.of_nat size) / kept * kept, drop size fp).

(** The value of an [int] from its 32 bits. *)
Definition int_of_bits (w : Z) : Z :=
  let w := w mod 2 ^ 32 in
  if w <? 2 ^ 31 then w else w - 2 ^ 32.

(** The value of a [float] from its 32 bits, promoted to [double]. *)
Definition double_of_float_bits (w : Z) : float :=
  let e := Z.land (Z.shiftr w 23) 255 in
  let m := Z.land w (2 ^ 23 - 1) in
  let magnitude :=
    if e =? 255 then (if m =? 0 then infinity else nan)
    else if e =? 0 then Z.ldexp (PrimFloat.of_uint63 (Uint63.of_Z m)) (-149)
    else Z.ldexp (PrimFloat.of_uint63 (Uint63.of_Z (m + 2 ^ 23))) (e - 150) in
  if Z.testbit w 31 then (- magnitude)%float else magnitude.

(** Twelve consecutive [fread]s of a [float], lines 104-118; [uninit j] is
    the indeterminate content of the [j]-th variable before its read. *)
Fixpoint read_floats (n : nat) (j : nat) (uninit : nat -> Z)
    (fp : list Byte.byte) : list float * list Byte.byte :=
  match n with
  | O => ([], fp)
  | S n' =>
      let '(w, fp) := fread 4 (uninit j) fp in
      let '(rest, fp) := read_floats n' (S j) uninit fp in
      (double_of_float_bits w :: rest, fp)
  end.

(** One iteration of the loop of lines 96-129. *)
Definition read_triangle (uninit : nat -> Z) (fp : list Byte.byte)
  : Geometry * list Byte.byte :=
  let '(fs, fp) := read_floats 12 0 uninit fp in
  let '(_, fp) := fread 2 (uninit 12%nat) fp in
  let f i := nth i fs 0%float in
  (Triangle (mkPoint (f 3%nat) (f 4%nat) (f 5%nat))
            (mkPoint (f 6%nat) (f 7%nat) (f 8%nat))
            (mkPoint (f 9%nat) (f 10%nat) (f 11%nat))
            (mkVector (f 0%nat) (f 1%nat) (f 2%nat)),
   fp).

(** [count] iterations, counted from [i]; [uninit i] gives the
    indeterminate contents of the locals of iteration [i]. *)
Fixpoint read_triangles (count : nat) (i : nat) (uninit : nat -> nat -> Z)
    (fp : list Byte.byte) : list Geometry :=
  match count with
  | O => []
  | S count' =>
      let '(t, fp) := read_triangle (uninit i) fp in
      t :: read_triangles count' (S i) uninit fp
  end.

(** The value [count] holds after lines 89-93, on the content of a file
    that opened. *)
Definition read_count (fp : list Byte.byte) : Z * list Byte.byte :=
  let fp := drop 80 fp in
  let '(w, fp) := fread 4 (2 ^ 32 - 1) fp in
  (int_of_bits w, fp).

(** [AddStlModel], lines 78-132, as a transformer of the global [scene].
    [file] is the content of the named file, [None] when [fopen_s] fails. *)
Definition AddStlModel (uninit : nat -> nat -> Z)
    (file : option (list Byte.byte)) (scene : list Geometry)
  : bool * list Geometry :=
  match file with
  | None => (false, scene)
  | Some fp =>
      let '(count, fp) := read_count fp in
      (true, scene ++ read_triangles (Z.to_nat count) 0 uninit fp)
  end.

(** A well-formed binary STL file, as the specification describes it: an
    80-byte header, a count [N], and [N] records of 50 bytes. *)
Definition well_formed (fp : list Byte.byte) : bool :=
  let '(count, rest) := read_count fp in
  (84 <=? Z.of_nat (length fp)) && (0 <=? count)
  && (Z.of_nat (length rest) =? 50 * count).
End Stl.

(** ** Adding triangles to the scene *)

(** The structs [RtPoint] and [RtTriangle] of the interface header
    ([Engine.h], not among the sources), with the fields lines 55-58 and
    68-71 read: three points [a], [b], [c] and a normal [n], each with
    [x], [y], [z]. *)
Record RtPoint := mkRtPoint { rt_x : float; rt_y : float; rt_z : float }.
Record RtTriangle := mkRtTriangle
  { rt_a : RtPoint; rt_b : RtPoint; rt_c : RtPoint; rt_n : RtPoint }.

(** The [Triangle] built at lines 55-60 and 68-73. *)
Definition Triangle_of (t : RtTriangle) : Geometry :=
  Triangle (mkPoint (rt_x (rt_a t)) (rt_y (rt_a t)) (rt_z (rt_a t)))
           (mkPoint (rt_x (rt_b t)) (rt_y (rt_b t)) (rt_z (rt_b t)))
           (mkPoint (rt_x (rt_c t)) (rt_y (rt_c t)) (rt_z (rt_c t)))
           (mkVector (rt_x (rt_n t)) (rt_y (rt_n t)) (rt_z (rt_n t))).

(** [AddTriangle], lines 53-62, as a transformer of the global [scene]. *)
Definition AddTriangle (triangle : RtTriangle) (scene : list Geometry)
  : list Geometry :=
  scene ++ [Triangle_of triangle].

(** The loop of [AddTriangles], lines 66-75, from index [i] on with [count]
    iterations left.  [triangles] is the caller's array; a read past its end
    has no defined outcome ([None]). *)
Fixpoint AddTriangles_from (count : nat) (i : nat) (triangles : list RtTriangle)
    (scene : list Geometry) : option (list Geometry) :=
  match count with
  | O => Some scene
  | S count' =>
      match triangles !! i with
      | Some t =>
          AddTriangles_from count' (S i) triangles (scene ++ [Triangle_of t])
      | None => None
      end
  end.

(** [AddTriangles(triangles, n)], lines 64-76. *)
Definition AddTriangles (triangles : list RtTriangle) (n : Z)
    (scene : list Geometry) : option (list Geometry) :=
  AddTriangles_from (Z.to_nat n) 0 triangles scene.

(** ** Definitions used to state the properties *)

(** The cost as the specification (and the comment of line 264) writes it:
    "cost = KT + KI * ((SAL/SA) * (NL + NP) + (SAR/SA) * NR)" with KT = 1 and
    KI = 1.5. *)
Definition SAH_cost_spec (nmin nmax : Point) (axis : Z) (position : float)
    (NL NP NR : Z) : float :=
  let nextAxis := (axis + 1) mod 3 in
  let prevAxis := (axis + 2) mod 3 in
  let boxSize := Vector_of_points nmin nmax in
  let width := (Point_get nmax axis - Point_get nmin axis)%float in
  let leftWidth := (position - Point_get nmin axis)%float in
  let rightWidth := (Point_get nmax axis - position)%float in
  let height := Vector_get boxSize nextAxis in
  let depth := Vector_get boxSize prevAxis in
  let SAL := (leftWidth * height + leftWidth * depth + height * depth)%float in
  let SAR := (rightWidth * height + rightWidth * depth + height * depth)%float in
  let SA := (width * height + width * depth + height * depth)%float in
  (1 + 1.5 * ((SAL / SA) * double_of_int (NL + NP)
              + (SAR / SA) * double_of_int NR))%float.

(** Number of internal nodes on the longest path from a node down to a
    leaf. *)
Fixpoint height (t : KdNode) : Z :=
  match t with
  | Leaf _ _ _ => 0
  | Internal _ _ _ _ l r => 1 + Z.max (height l) (height r)
  end.

(** The calls of [buildKdTree] that made the nodes of a tree: for each node
    its depth, its box, the list it was built from (for the root, [lst]; for
    a child, the part its parent handed down) and whether it is a leaf. *)
Fixpoint node_calls (t : KdNode) (lst : list Geometry) (depth : Z)
  : list (Z * (Point * Point) * list Geometry * bool) :=
  match t with
  | Leaf bmin bmax _ => [(depth, (bmin, bmax), lst, true)]
  | Internal bmin bmax axis median l r =>
      (depth, (bmin, bmax), lst, false)
      :: node_calls l (List.filter (goes_left axis median) lst) (depth + 1)
      ++ node_calls r (List.filter (goes_right axis median) lst) (depth + 1)
  end.

(** The three ways a call of [buildKdTree] ends in a leaf. *)
Definition leaf_rule (depth : Z) (box : Point * Point) (lst : list Geometry)
  : Prop :=
  Z.of_nat (length lst) <= 8
  \/ 18 < depth
  \/ exists best, splitSAH (fst box) (snd box) lst = Some best
                  /\ sah_terminates (minSAH best) lst = true.

(** The state of the traversal loop after [n] steps, or the answer if the
    loop has returned by then. *)
Fixpoint steps (GI : Geometry -> Ray.t -> IntersectResult) (ray : Ray.t)
    (n : nat) (rxPoints0 : list RxIntersection) (s : Trav)
  : Run (Trav + Answer) :=
  match n with
  | O => Ret (inl s)
  | S n' =>
      do r <- step GI ray rxPoints0 s ;
      match r with
      | inl s' => steps GI ray n' rxPoints0 s'
      | inr ans => Ret (inr ans)
      end
  end.

(** The exit chain: the stack slots reached from the exit slot [top]
    through [prev], down to the slot whose node is [NULL]. *)
Inductive on_chain (st : list StackElem) : Z -> Z -> Prop :=
| on_chain_here top : on_chain st top top
| on_chain_next top e i :
    st !! Z.to_nat top = Some e -> se_node e <> None ->
    on_chain st (se_prev e) i -> on_chain st top i.

(** The slots in use: the entry slot and the slots of the exit chain. *)
Definition in_use (s : Trav) (i : Z) : Prop :=
  i = enPt s \/ on_chain (stack s) (exPt s) i.

(** Number of nodes of a tree. *)
Fixpoint node_count (t : KdNode) : Z :=
  match t with
  | Leaf _ _ _ => 1
  | Internal _ _ _ _ l r => 1 + node_count l + node_count r
  end.

(** [chain H st top j w]: the exit chain from [top] holds [j] pending far
    children above the terminating slot 1, of [w] nodes in all; each link
    goes down by one or two slots, and the subtree pending at level [j]
    leaves room for its own pushes within the bound [H]. *)
Inductive chain (H : Z) (st : list StackElem) : Z -> Z -> Z -> Prop :=
| chain_base e :
    st !! 1%nat = Some e -> se_node e = None -> chain H st 1 0 0
| chain_push top e far j w :
    st !! Z.to_nat top = Some e -> se_node e = Some far ->
    se_prev e < top <= se_prev e + 2 ->
    j + height far <= H ->
    chain H st (se_prev e) j w ->
    chain H st top (j + 1) (w + node_count far).

(** The invariant of the traversal loop for a tree of height at most [H]:
    [m] bounds the number of nodes still to visit. *)
Definition stack_inv (H m : Z) (s : Trav) : Prop :=
  length (stack s) = 50%nat
  /\ 0 <= enPt s <= 1 + 2 * H
  /\ enPt s <> exPt s
  /\ exists j w, chain H (stack s) (exPt s) j w
                 /\ j + height (currNode s) <= H
                 /\ w + node_count (currNode s) <= m.

(** What the scan of a leaf maintains: [minResult] is still
    [IntersectResult(false)], or it is a triangle hit whose distance is
    [minDistance]. *)
Definition scan_invariant
    (acc : float * IntersectResult * list (Z * RxSphereInfo)) : Prop :=
  let '(minDistance, minResult, _) := acc in
  minResult = NoHit
  \/ exists p n g, minResult = Hit minDistance p n g /\ is_sphere g = false.

(** How the emitted receivers relate to the collected ones. *)
Definition emission_rule (rxPoints0 : list RxIntersection) (ans : Answer)
  : Prop :=
  match result ans with
  | Hit d _ _ g =>
      is_sphere g = false
      /\ rxPoints ans
         = rxPoints0
           ++ map RxIntersection_of
                (List.filter (fun e => (info_distance (snd e) <? d)%float)
                   (collected ans))
      /\ Forall (fun rx => (rx_distance rx <? d)%float = true
                           /\ (rx_distance rx <=? d)%float = true)
           (drop (length rxPoints0) (rxPoints ans))
  | NoHit => rxPoints ans = rxPoints0 ++ map RxIntersection_of (collected ans)
  end.

(** *** The built tree *)

(** The geometries stored in the leaves of a tree, leaf by leaf from left to
    right. *)
Fixpoint tree_geometries (t : KdNode) : list Geometry :=
  match t with
  | Leaf _ _ lst => lst
  | Internal _ _ _ _ l r => tree_geometries l ++ tree_geometries r
  end.

(** A geometry the clipping rule of [buildKdTree] can place: a triangle whose
    vertex coordinates are not NaN, a sphere whose extent
    [center - radius, center + radius] is ordered on every axis. *)
Definition well_placed (g : Geometry) : Prop :=
  match g with
  | Triangle a b c _ =>
      forall axis,
        (Point_get a axis =? Point_get a axis)%float = true
        /\ (Point_get b axis =? Point_get b axis)%float = true
        /\ (Point_get c axis =? Point_get c axis)%float = true
  | Sphere center radius _ =>
      forall axis,
        (Point_get center axis - radius <=? Point_get center axis + radius)%float
        = true
  end.

(** Every internal node splits on axis 0, 1 or 2. *)
Fixpoint axes_ok (t : KdNode) : Prop :=
  match t with
  | Leaf _ _ _ => True
  | Internal _ _ axis _ l r => 0 <= axis <= 2 /\ axes_ok l /\ axes_ok r
  end.

(** The boxes of a tree built for the box [nmin], [nmax]: every node carries
    the box it was built for, and a split plane, which is not a NaN, cuts the
    box of a node into the boxes of its children. *)
Fixpoint boxes_ok (nmin nmax : Point) (t : KdNode) : Prop :=
  match t with
  | Leaf bmin bmax _ => bmin = nmin /\ bmax = nmax
  | Internal bmin bmax axis sv l r =>
      bmin = nmin /\ bmax = nmax
      /\ (sv =? sv)%float = true
      /\ boxes_ok nmin (Point_set nmax axis sv) l
      /\ boxes_ok (Point_set nmin axis sv) nmax r
  end.

(** [position] is a face, on [axis], of the bounding box of a geometry of
    [lst]. *)
Definition plane_of (lst : list Geometry) (axis : Z) (position : float) : Prop :=
  exists g, In g lst
    /\ (position = Point_get (fst (getBoundingBox g)) axis
        \/ position = Point_get (snd (getBoundingBox g)) axis).

(** What the running best of [splitSAH] holds: [DBL_MAX] and no plane, or a
    cost below [DBL_MAX] with the plane that has it. *)
Definition best_ok (lst : list Geometry) (best : SAHBest) : Prop :=
  match minSplit best with
  | None => minSAH best = DBL_MAX
  | Some (median, axis) =>
      0 <= axis <= 2
      /\ (median =? median)%float = true
      /\ (minSAH best <? DBL_MAX)%float = true
      /\ plane_of lst axis median
  end.

(** One iteration of the loop of [init] that grows the root box, lines
    307-319. *)
Definition grow_box (box : Point * Point) (g : Geometry) : Point * Point :=
  let '(bmin, bmax) := box in
  let '(gmin, gmax) := getBoundingBox g in
  (mkPoint (std_min (px bmin) (px gmin)) (std_min (py bmin) (py gmin))
           (std_min (pz bmin) (pz gmin)),
   mkPoint (std_max (px bmax) (px gmax)) (std_max (py bmax) (py gmax))
           (std_max (pz bmax) (pz gmax))).

(** No coordinate of the box is a NaN. *)
Definition box_defined (box : Point * Point) : Prop :=
  forall axis,
    (Point_get (fst box) axis =? Point_get (fst box) axis)%float = true
    /\ (Point_get (snd box) axis =? Point_get (snd box) axis)%float = true.

(** The order [<=] of the doubles on their IEEE-754 descriptions. *)
Definition SFle (x y : spec_float) : Prop :=
  match SFcompare x y with Some Lt | Some Eq => True | _ => False end.

(** *** The traversal *)

(** Strictly increasing integers. *)
Fixpoint increasing (l : list Z) : Prop :=
  match l with
  | [] => True
  | x :: l' => Forall (Z.lt x) l' /\ increasing l'
  end.

(** The nodes of the tree rooted at [root]. *)
Inductive subtree (root : KdNode) : KdNode -> Prop :=
| subtree_root : subtree root root
| subtree_left bmin bmax axis sv l r :
    subtree root (Internal bmin bmax axis sv l r) -> subtree root l
| subtree_right bmin bmax axis sv l r :
    subtree root (Internal bmin bmax axis sv l r) -> subtree root r.

(** The far children pending on the exit chain from [top] are nodes of the
    tree. *)
Inductive chain_in (root : KdNode) (st : list StackElem) : Z -> Prop :=
| chain_in_base top e :
    0 <= top -> st !! Z.to_nat top = Some e -> se_node e = None ->
    chain_in root st top
| chain_in_push top e far :
    st !! Z.to_nat top = Some e -> se_node e = Some far ->
    0 <= se_prev e < top -> subtree root far ->
    chain_in root st (se_prev e) -> chain_in root st top.

Definition nodes_inv (root : KdNode) (s : Trav) : Prop :=
  subtree root (currNode s) /\ chain_in root (stack s) (exPt s).

(** A collected receiver entry that records an intersection of the ray with
    a geometry of [lst]: the hit of a sphere with the entry's index and
    radius, at the entry's distance, the offset being the length from the hit
    position to the centre. *)
Definition rx_from (GI : Geometry -> Ray.t -> IntersectResult) (ray : Ray.t)
    (lst : list Geometry) (e : Z * RxSphereInfo) : Prop :=
  exists g0 p n c,
    In g0 lst
    /\ GI g0 ray = Hit (info_distance (snd e)) p n
                       (Sphere c (info_radius (snd e)) (fst e))
    /\ info_offset (snd e) = Vector_length (Vector_of_points p c).

(** A result that, when it is a hit, is what [Geometry::intersect] answered
    for a geometry of [lst]. *)
Definition hit_from (GI : Geometry -> Ray.t -> IntersectResult) (ray : Ray.t)
    (lst : list Geometry) (r : IntersectResult) : Prop :=
  match r with
  | NoHit => True
  | Hit _ _ _ _ => exists g0, In g0 lst /\ GI g0 ray = r
  end.

Definition scan_ok (GI : Geometry -> Ray.t -> IntersectResult) (ray : Ray.t)
    (lst : list Geometry)
    (acc : float * IntersectResult * list (Z * RxSphereInfo)) : Prop :=
  increasing (map fst (snd acc))
  /\ hit_from GI ray lst (snd (fst acc))
  /\ Forall (rx_from GI ray lst) (snd acc).

Definition collected_ok (GI : Geometry -> Ray.t -> IntersectResult)
    (ray : Ray.t) (root : KdNode) (rx : list (Z * RxSphereInfo)) : Prop :=
  increasing (map fst rx)
  /\ Forall (rx_from GI ray (tree_geometries root)) rx.

(** The distance [d] passes the guard band of lines 446-447 in state [s]:
    [stack[enPt].t - 0.001f <= d <= stack[exPt].t + 0.001f]. *)
Definition in_band (s : Trav) (d : float) : Prop :=
  exists en ex,
    stack_get (stack s) (enPt s) = Ret en
    /\ (se_t en - EPS_F <=? d)%float = true
    /\ stack_get (stack s) (exPt s) = Ret ex
    /\ (d <=? se_t ex + EPS_F)%float = true.

(** What the scan of a leaf maintains about [minDistance]: it is not a NaN
    and it is at most the distance of every triangle hit within the guard
    band among the geometries [seen] so far. *)
Definition nearest_so_far (GI : Geometry -> Ray.t -> IntersectResult)
    (ray : Ray.t) (s : Trav) (seen : list Geometry)
    (acc : float * IntersectResult * list (Z * RxSphereInfo)) : Prop :=
  (fst (fst acc) =? fst (fst acc))%float = true
  /\ forall g0 d0 p0 n0 g1,
       In g0 seen -> GI g0 ray = Hit d0 p0 n0 g1 -> is_sphere g1 = false ->
       in_band s d0 -> (fst (fst acc) <=? d0)%float = true.

(** Two stacks agree on what the loop may still read: along the exit chain
    from [top] the pushed entries are equal, and the terminating entry has
    the same [t] and [pb] and a [NULL] node. *)
Inductive live (st st' : list StackElem) : Z -> Prop :=
| live_base top e e' :
    1 <= top -> st !! Z.to_nat top = Some e -> st' !! Z.to_nat top = Some e' ->
    se_t e = se_t e' -> se_pb e = se_pb e' ->
    se_node e = None -> se_node e' = None -> live st st' top
| live_push top e far :
    st !! Z.to_nat top = Some e -> st' !! Z.to_nat top = Some e ->
    se_node e = Some far -> axes_ok far -> 1 <= se_prev e < top ->
    live st st' (se_prev e) -> live st st' top.

Definition entry_agrees (st st' : list StackElem) (i : Z) : Prop :=
  forall e e', st !! Z.to_nat i = Some e -> st' !! Z.to_nat i = Some e' ->
               se_t e = se_t e' /\ se_pb e = se_pb e'.

(** Two states of the loop that differ only in stack content the loop will
    not read. *)
Definition agree (s s' : Trav) : Prop :=
  currNode s = currNode s' /\ enPt s = enPt s' /\ exPt s = exPt s'
  /\ rxIntersections s = rxIntersections s'
  /\ axes_ok (currNode s)
  /\ length (stack s) = length (stack s')
  /\ 0 <= enPt s
  /\ entry_agrees (stack s) (stack s') (enPt s)
  /\ live (stack s) (stack s') (exPt s).

Definition agree_out (r r' : Run (Trav + Answer)) : Prop :=
  match r, r' with
  | Ret (inl s1), Ret (inl s1') => agree s1 s1'
  | Ret (inr a), Ret (inr a') => a = a'
  | OutOfBounds i, OutOfBounds i' => i = i'
  | Timeout, Timeout => True
  | _, _ => False
  end.

(** *** The receiver buckets *)

(** [n] buckets, the one at each position [i] satisfying [P i]. *)
Definition buckets_ok {RxFields : Type} (P : nat -> RxFields -> Prop)
    (n : nat) (fields : list RxFields) : Prop :=
  length fields = n /\ forall i f, fields !! i = Some f -> P i f.

(** *** The automatic termination test on [DBL_MAX] *)

(** [DBL_MAX > 1.5f * size]: the test of line 81 when no plane was
    accepted. *)
Definition size_ok (size : Z) : bool :=
  (1.5 * double_of_int size <? DBL_MAX)%float.

(** The test on the sizes 0, 1, ..., [n - 1] in turn. *)
Definition check_step (st : bool * Z) : bool * Z :=
  let '(ok, i) := st in (ok && size_ok i, i + 1).

Definition check_upto (n : N) : bool := fst (N.iter n check_step (true, 0)).

(** *** Concrete scenes *)

Definition planar_triangle (xpos : float) : Geometry :=
  Triangle (mkPoint xpos 0 0) (mkPoint xpos 2 0) (mkPoint xpos 0 1)
           (mkVector 1 0 0).

(** Twelve triangles parallel to the yz-plane: one at x = 0, five at
    x = 0.5, five at x = 1.5 and one at x = 2. *)
Definition slab_scene : list Geometry :=
  [planar_triangle 0] ++ repeat (planar_triangle 0.5) 5
  ++ repeat (planar_triangle 1.5) 5 ++ [planar_triangle 2].

(** [n] triangles parallel to the yz-plane at x, 2x, 4x, ... *)
Fixpoint doubling_scene (n : nat) (xpos : float) : list Geometry :=
  match n with
  | O => []
  | S n' =>
      Triangle (mkPoint xpos 0 0) (mkPoint xpos 1 0) (mkPoint xpos 0 1)
               (mkVector 1 0 0)
      :: doubling_scene n' (xpos * 2)%float
  end.

(** Intersection routines for the concrete runs below, exact for a ray that
    travels along +x through [slab_scene]-like geometry: a triangle parallel
    to the yz-plane is met at the distance of its plane, a sphere centred on
    the ray at the distance of its near pole; the scene box is entered and
    left through its x-faces. *)
Definition axial_Geometry_intersect (g : Geometry) (r : Ray.t) : IntersectResult :=
  match g with
  | Triangle p _ _ n =>
      let d := (px p - px (Ray.origin r))%float in
      if (0.0001 <=? d)%float then Hit d (Ray_at r d) n g else NoHit
  | Sphere c radius _ =>
      let d := (px c - radius - px (Ray.origin r))%float in
      if (0.0001 <=? d)%float then Hit d (Ray_at r d) (mkVector (-1) 0 0) g
      else NoHit
  end.

Definition axial_Grid_intersect (bmin bmax : Point) (r : Ray.t)
  : option (float * float) :=
  Some ((px bmin - px (Ray.origin r))%float, (px bmax - px (Ray.origin r))%float).

Definition axial_ray : Ray.t :=
  Ray.new (mkPoint (-1) 0.5 0.25) (mkVector 1 0 0) 0.0003%float.

(** [slab_scene] with two receiver spheres on the ray, one behind the first
    triangle the ray meets (and scanned before it) and one in front of it. *)
Definition receiver_scene : list Geometry :=
  [Sphere (mkPoint 0.5 0.5 0.25) 0.25 1]
  ++ slab_scene
  ++ [Sphere (mkPoint (-0.25) 0.5 0.25) 0.25 0].

Definition zero_garbage (i : nat) : StackElem :=
  mkStackElem 0 (mkPoint 0 0 0) None 0.

(** An instance of the external routines for the concrete runs (the
    properties below hold for every instance): the double nearest to pi, and
    first-order stand-ins for the math library. *)
Definition sample_externals : Externals :=
  mkExternals 0x1.921fb54442d18p+1%float
    (fun t => (1 - t * t / 2)%float) (fun t => t) (fun t => (1 - t)%float)
    (fun t => (t - 1)%float) (fun base e => (1 + e * (base - 1))%float)
    (fun c => c) (fun u v => Complex_mul u (mkComplex (a v) (- b v)%float))
    (fun m => m).

(** A bucket for the concrete runs: the sequence of the contributions it
    was given, [AddField] appending one. *)
Record Contribution := mkContribution
  { c_field : ComplexVector; c_path : list Z; c_offset : float }.

Definition sample_AddField (f : list Contribution) (Ez : ComplexVector)
    (path : list Z) (offset : float) : list Contribution :=
  f ++ [mkContribution Ez path offset].

(** The plain sum of the contributions of a bucket. *)
Definition sample_Sum (f : list Contribution) : ComplexVector :=
  fold_left (fun acc c => ComplexVector_add acc (c_field c)) f
    (mkComplexVector (mkComplex 0 0) (mkComplex 0 0) (mkComplex 0 0)).

Definition sample_parameters : RtParameter :=
  mkRtParameter 5.0 0.01 0 60 900 0.25%float 25%float.

(** The tree [init] builds over [receiver_scene] (a root split at x = 0.75
    and two leaves). *)
Definition receiver_tree : KdNode :=
  default (Leaf (mkPoint 0 0 0) (mkPoint 0 0 0) []) (init receiver_scene).

(** An accelerator answer for the concrete runs of [trace]: a triangle hit
    at distance 2 behind one receiver pierced at distance 1. *)
Definition sample_accelerator (r : Ray.t)
  : IntersectResult * list RxIntersection :=
  (Hit 2 (Ray_at r 2) (mkVector (-1) 0 0) (planar_triangle 1),
   [mkRxIntersection 0 1 0.25 0.25]).

(** Two buckets: an empty one and one holding a single contribution. *)
Definition sample_rxFields : list (list Contribution) :=
  [[];
   [mkContribution
      (mkComplexVector (mkComplex 0 0) (mkComplex 0 0) (mkComplex 0.5 0.25))
      [] 0.25%float]].

(** A file that announces one triangle and ends after the count. *)
Definition truncated_stl : list Byte.byte :=
  repeat Byte.x00 80 ++ [Byte.x01; Byte.x00; Byte.x00; Byte.x00].

(** A state of the traversal at a leaf that holds two triangles, the
    farther one first, for [axial_ray]: the entry distance is 1 and the exit
    distance 3. *)
Definition scan_state : Trav :=
  initial axial_ray zero_garbage
    (Leaf (mkPoint 0 0 0) (mkPoint 2 2 1) [planar_triangle 2; planar_triangle 1])
    1 3.

(** Stack content unlike [zero_garbage] in every field. *)
Definition other_garbage (i : nat) : StackElem :=
  mkStackElem 7 (mkPoint 1 2 3) (Some receiver_tree) 5.

(** [sample_parameters] with two reflections allowed. *)
Definition bounce_parameters : RtParameter :=
  mkRtParameter 5.0 0.01 2 60 900 0.25%float 25%float.

(** A file that announces one triangle and holds its 50-byte record. *)
Definition one_triangle_stl : list Byte.byte :=
  truncated_stl ++ repeat Byte.x00 50.

(** Two triangles of a caller's array. *)
Definition sample_triangles : list RtTriangle :=
  [mkRtTriangle (mkRtPoint 0 0 0) (mkRtPoint 1 0 0) (mkRtPoint 0 1 0)
                (mkRtPoint 0 0 1);
   mkRtTriangle (mkRtPoint 0 0 1) (mkRtPoint 1 0 1) (mkRtPoint 0 1 1)
                (mkRtPoint 0 0 1)].

(** Nine triangles parallel to the yz-plane, the first one at a NaN x. *)
Definition nan_scene : list Geometry :=
  planar_triangle nan :: repeat (planar_triangle 1) 8.

(** * Properties *)


(** ** Floating-point comparisons *)

Lemma float_ltb_leb (u v : float) :
  (u <? v)%float = true -> (u <=? v)%float = true.
Proof.
  rewrite ltb_spec, leb_spec. unfold SFltb, SFleb.
  destruct (SFcompare _ _) as [[]|]; congruence.
Qed.

(** ** The SAH split *)

(** C1.  On [slab_scene] in its own box, the cost [splitSAH] computes counts
    the geometries lying in the candidate plane with the right side: at the
    plane x = 1.5 (NL = 6, NP = 5, NR = 1) the code computes 12.25 where the
    formula of the specification gives 15.0625, and the plane the code
    returns, x = 1.5, does not minimise the specification's cost, which is
    12.25 at x = 0.5 (NL = 1, NP = 5, NR = 6). *)
Theorem splitSAH_counts_planar_right :
  root_box slab_scene = (mkPoint 0 0 0, mkPoint 2 2 1)
  /\ splitSAH (mkPoint 0 0 0) (mkPoint 2 2 1) slab_scene
     = Some (mkSAHBest 12.25 (Some (1.5%float, 0)))
  /\ SAH_cost (mkPoint 0 0 0) (mkPoint 2 2 1) 0 1.5 6 5 1 = 12.25%float
  /\ SAH_cost_spec (mkPoint 0 0 0) (mkPoint 2 2 1) 0 1.5 6 5 1 = 15.0625%float
  /\ SAH_cost_spec (mkPoint 0 0 0) (mkPoint 2 2 1) 0 0.5 1 5 6 = 12.25%float.
Proof. repeat split; vm_compute; reflexivity. Qed.

(** The events left by one of the inner loops are a suffix of the events it
    was given. *)
Lemma skip_events_suffix position t evs :
  exists done, evs = done ++ snd (skip_events position t evs).
Proof.
  induction evs as [|e evs IH]; simpl; [exists []; reflexivity|].
  destruct (_ && _); [|exists []; reflexivity].
  destruct IH as (done & Hd). destruct (skip_events position t evs) as [n rest].
  simpl in *. exists (e :: done). simpl. congruence.
Qed.

Lemma skip_events_length position t evs :
  (length (snd (skip_events position t evs)) <= length evs)%nat.
Proof.
  destruct (skip_events_suffix position t evs) as (done & Hd).
  rewrite Hd at 2. rewrite length_app. lia.
Qed.

(** An event whose position is not a NaN is consumed by the inner loop of its
    own type. *)
Lemma skip_events_head e evs :
  (ev_position e =? ev_position e)%float = true ->
  (length (snd (skip_events (ev_position e) (ev_type e) (e :: evs)))
   <= length evs)%nat.
Proof.
  intros Hp. simpl. rewrite Hp. unfold EventType_eqb. rewrite Z.eqb_refl. simpl.
  pose proof (skip_events_length (ev_position e) (ev_type e) evs).
  destruct (skip_events (ev_position e) (ev_type e) evs). simpl in *. lia.
Qed.

(** One iteration of the sweep consumes at least the first event. *)
Lemma skip_events_other e evs t :
  EventType_eqb (ev_type e) t = false ->
  skip_events (ev_position e) t (e :: evs) = (0, e :: evs).
Proof.
  intros Ht. simpl. rewrite Ht, andb_false_r. reflexivity.
Qed.

Lemma sweep_progress e evs :
  (ev_position e =? ev_position e)%float = true ->
  (length (snd (skip_events (ev_position e) Start
             (snd (skip_events (ev_position e) Planar
                (snd (skip_events (ev_position e) End (e :: evs)))))))
   <= length evs)%nat.
Proof.
  intros Hp. pose proof (skip_events_head e evs Hp) as Hh.
  destruct (ev_type e) eqn:Ht; rewrite ?Ht in Hh.
  - pose proof (skip_events_length (ev_position e) Planar
                  (snd (skip_events (ev_position e) End (e :: evs)))).
    pose proof (skip_events_length (ev_position e) Start
                  (snd (skip_events (ev_position e) Planar
                          (snd (skip_events (ev_position e) End (e :: evs)))))).
    lia.
  - rewrite (skip_events_other e evs End) by (unfold EventType_eqb; rewrite Ht; reflexivity).
    cbn [snd].
    pose proof (skip_events_length (ev_position e) Start
                  (snd (skip_events (ev_position e) Planar (e :: evs)))).
    lia.
  - rewrite (skip_events_other e evs End) by (unfold EventType_eqb; rewrite Ht; reflexivity).
    cbn [snd].
    rewrite (skip_events_other e evs Planar) by (unfold EventType_eqb; rewrite Ht; reflexivity).
    cbn [snd]. exact Hh.
Qed.

Lemma Forall_skip_events (P : KdEvent -> Prop) position t evs :
  Forall P evs -> Forall P (snd (skip_events position t evs)).
Proof.
  intros Hf. destruct (skip_events_suffix position t evs) as (done & Hd).
  rewrite Hd in Hf. apply Forall_app in Hf. tauto.
Qed.

(** The sweep ends when no event position is a NaN. *)
Lemma sweep_returns fuel : forall nmin nmax axis evs NL NR best,
  Forall (fun e => (ev_position e =? ev_position e)%float = true) evs ->
  (length evs <= fuel)%nat ->
  exists best', sweep fuel nmin nmax axis evs NL NR best = Some best'.
Proof.
  induction fuel as [|fuel IH]; intros nmin nmax axis evs NL NR best Hf Hlen;
    destruct evs as [|e evs]; simpl in Hlen; try lia; [eexists; reflexivity..|].
  cbn [sweep].
  assert (He : (ev_position e =? ev_position e)%float = true)
    by (inversion Hf; assumption).
  pose proof (sweep_progress e evs He) as Hp.
  pose proof (Forall_skip_events _ (ev_position e) Start _
                (Forall_skip_events _ (ev_position e) Planar _
                   (Forall_skip_events _ (ev_position e) End _ Hf))) as Hf3.
  destruct (skip_events (ev_position e) End (e :: evs)) as [PE evs1].
  cbn [snd] in Hp, Hf3.
  destruct (skip_events (ev_position e) Planar evs1) as [PP evs2].
  cbn [snd] in Hp, Hf3.
  destruct (skip_events (ev_position e) Start evs2) as [PS evs3].
  cbn [snd] in Hp, Hf3. apply IH; [assumption|lia].
Qed.

Lemma Forall_insert_event (P : KdEvent -> Prop) e l :
  P e -> Forall P l -> Forall P (insert_event e l).
Proof.
  intros He. induction 1 as [|x l Hx Hl IH]; simpl.
  - repeat constructor. assumption.
  - destruct (cmpKdEvent x e); repeat constructor; assumption.
Qed.

Lemma Forall_sort_events (P : KdEvent -> Prop) l :
  Forall P l -> Forall P (sort_events l).
Proof.
  unfold sort_events. induction 1 as [|x l Hx Hl IH]; simpl; [constructor|].
  apply Forall_insert_event; assumption.
Qed.

(** [splitSAH] returns when no bounding-box coordinate is a NaN. *)
Lemma splitSAH_returns nmin nmax lst :
  Forall (fun g => forall axis,
            let p := Point_get (fst (getBoundingBox g)) axis in
            let q := Point_get (snd (getBoundingBox g)) axis in
            (p =? p)%float = true /\ (q =? q)%float = true) lst ->
  exists best, splitSAH nmin nmax lst = Some best.
Proof.
  intros Hbox.
  assert (Hax : forall axis best,
            exists best', sweep_axis nmin nmax lst axis best = Some best').
  { intros axis best. unfold sweep_axis. apply sweep_returns; [|lia].
    apply Forall_sort_events. unfold generate_events.
    apply Forall_concat, Forall_map, (Forall_impl _ _ _ Hbox).
    intros g Hg. specialize (Hg axis). cbv zeta in Hg. destruct Hg as [Hp Hq].
    unfold events_of. destruct (getBoundingBox g) as [bmin bmax]. simpl in *.
    destruct (Point_get bmin axis =? Point_get bmax axis)%float;
      repeat constructor; simpl; assumption. }
  unfold splitSAH.
  destruct (Hax 0 (mkSAHBest DBL_MAX None)) as (b0 & ->).
  destruct (Hax 1 b0) as (b1 & ->). apply Hax.
Qed.

(** ** The build *)

(** The recursion of [buildKdTree] never runs out of the levels it is given:
    any two amounts of fuel that cover the levels left agree. *)
Lemma buildKdTree_rec_fuel fuel : forall fuel' nmin nmax lst depth,
  19 - depth <= Z.of_nat fuel -> 19 - depth <= Z.of_nat fuel' ->
  buildKdTree_rec fuel nmin nmax lst depth
  = buildKdTree_rec fuel' nmin nmax lst depth.
Proof.
  induction fuel as [|fuel IH]; intros fuel' nmin nmax lst depth Hf Hf';
    destruct fuel' as [|fuel']; simpl;
    destruct (leaf_test lst depth) eqn:Hlt; try reflexivity;
    try (apply not_true_iff_false in Hlt; unfold leaf_test in Hlt;
         rewrite orb_true_iff, Z.leb_le, Z.ltb_lt in Hlt; lia).
  destruct (splitSAH nmin nmax lst) as [best|]; [|reflexivity].
  destruct (sah_terminates (minSAH best) lst); [reflexivity|].
  destruct (minSplit best) as [[median axis]|]; [|reflexivity].
  apply not_true_iff_false in Hlt. unfold leaf_test in Hlt.
  rewrite orb_true_iff, Z.leb_le, Z.ltb_lt in Hlt.
  rewrite (IH fuel' nmin (Point_set nmax axis median)) by lia.
  rewrite (IH fuel' (Point_set nmin axis median) nmax) by lia.
  reflexivity.
Qed.

Lemma leaf_test_true lst depth :
  leaf_test lst depth = true <-> Z.of_nat (length lst) <= 8 \/ 18 < depth.
Proof.
  unfold leaf_test. rewrite orb_true_iff, Z.leb_le, Z.ltb_lt. tauto.
Qed.

Lemma buildKdTree_rec_calls fuel : forall nmin nmax lst depth t,
  depth <= 19 ->
  buildKdTree_rec fuel nmin nmax lst depth = Some t ->
  forall d box l leaf, In (d, box, l, leaf) (node_calls t lst depth) ->
    depth <= d <= 19
    /\ (leaf = false -> d <= 18)
    /\ (leaf = true <-> leaf_rule d box l).
Proof.
  induction fuel as [|fuel IH]; intros nmin nmax lst depth t Hd Hb d box l leaf Hin;
    simpl in Hb; destruct (leaf_test lst depth) eqn:Hlt.
  - injection Hb as <-. simpl in Hin. destruct Hin as [[= <- <- <- <-]|[]].
    split; [lia|]. split; [discriminate|]. split; [intros _|reflexivity].
    apply leaf_test_true in Hlt. unfold leaf_rule. tauto.
  - discriminate.
  - injection Hb as <-. simpl in Hin. destruct Hin as [[= <- <- <- <-]|[]].
    split; [lia|]. split; [discriminate|]. split; [intros _|reflexivity].
    apply leaf_test_true in Hlt. unfold leaf_rule. tauto.
  - assert (Hnl : ~ (Z.of_nat (length lst) <= 8 \/ 18 < depth))
      by (rewrite <- leaf_test_true, Hlt; discriminate).
    destruct (splitSAH nmin nmax lst) as [best|] eqn:Hs; [|discriminate].
    destruct (sah_terminates (minSAH best) lst) eqn:Ht.
    + injection Hb as <-. simpl in Hin. destruct Hin as [[= <- <- <- <-]|[]].
      split; [lia|]. split; [discriminate|]. split; [intros _|reflexivity].
      right; right. exists best. simpl. auto.
    + destruct (minSplit best) as [[median axis]|]; [|discriminate].
      destruct (buildKdTree_rec fuel nmin _ _ _) as [tl|] eqn:Hl; [|discriminate].
      destruct (buildKdTree_rec fuel _ nmax _ _) as [tr|] eqn:Hr; [|discriminate].
      injection Hb as <-. simpl in Hin.
      destruct Hin as [[= <- <- <- <-]|Hin].
      * split; [lia|]. split; [intros _; lia|]. split; [discriminate|].
        intros [Hsz|[Hdp|(best' & Hs' & Ht')]]; try lia.
        simpl in Hs'. rewrite Hs in Hs'. injection Hs' as <-. congruence.
      * assert (Hd' : depth + 1 <= 19) by lia.
        apply in_app_or in Hin. destruct Hin as [Hin|Hin].
        -- destruct (IH _ _ _ _ _ Hd' Hl _ _ _ _ Hin) as (? & ? & ?).
           split; [lia|]. auto.
        -- destruct (IH _ _ _ _ _ Hd' Hr _ _ _ _ Hin) as (? & ? & ?).
           split; [lia|]. auto.
Qed.

(** A leaf stores the list its call received. *)
Lemma buildKdTree_rec_leaves fuel : forall nmin nmax lst depth t,
  buildKdTree_rec fuel nmin nmax lst depth = Some t ->
  forall d box l, In (d, box, l) (leaves t depth) ->
    In (d, box, l, true) (node_calls t lst depth).
Proof.
  induction fuel as [|fuel IH]; intros nmin nmax lst depth t Hb d box l Hin;
    simpl in Hb; destruct (leaf_test lst depth) eqn:Hlt.
  - injection Hb as <-. simpl in *. destruct Hin as [[= <- <- <-]|[]]. auto.
  - discriminate.
  - injection Hb as <-. simpl in *. destruct Hin as [[= <- <- <-]|[]]. auto.
  - destruct (splitSAH nmin nmax lst) as [best|] eqn:Hs; [|discriminate].
    destruct (sah_terminates (minSAH best) lst) eqn:Ht.
    + injection Hb as <-. simpl in *. destruct Hin as [[= <- <- <-]|[]]. auto.
    + destruct (minSplit best) as [[median axis]|]; [|discriminate].
      destruct (buildKdTree_rec fuel nmin _ _ _) as [tl|] eqn:Hl; [|discriminate].
      destruct (buildKdTree_rec fuel _ nmax _ _) as [tr|] eqn:Hr; [|discriminate].
      injection Hb as <-. simpl in *. right. apply in_or_app.
      apply in_app_or in Hin. destruct Hin as [Hin|Hin]; eauto.
Qed.

Lemma tree_depth_calls t : forall lst depth,
  exists box l leaf, In (tree_depth t depth, box, l, leaf) (node_calls t lst depth).
Proof.
  induction t as [bmin bmax l0|bmin bmax axis median l IHl r IHr]; intros lst depth; simpl.
  - eauto 6.
  - destruct (Z.max_spec (tree_depth l (depth + 1)) (tree_depth r (depth + 1)))
      as [[_ ->]|[_ ->]].
    + destruct (IHr (List.filter (goes_right axis median) lst) (depth + 1))
        as (box & l' & leaf & Hin).
      exists box, l', leaf. right. apply in_or_app. auto.
    + destruct (IHl (List.filter (goes_left axis median) lst) (depth + 1))
        as (box & l' & leaf & Hin).
      exists box, l', leaf. right. apply in_or_app. auto.
Qed.

(** C5, as amended.  In every tree [buildKdTree] returns for a call at depth
    0, a node is a leaf exactly when its list has at most 8 geometries, or its
    depth exceeds 18, or the best SAH cost exceeds 1.5 times the size of its
    list; every node has depth at most 19, every internal node depth at most
    18, and every leaf holds at most 8 geometries unless its depth is 19 or
    the SAH rule ended the recursion there. *)
Theorem buildKdTree_leaf_rule nmin nmax lst t :
  buildKdTree nmin nmax lst 0 = Some t ->
  (forall d box l leaf, In (d, box, l, leaf) (node_calls t lst 0) ->
     (leaf = true <->
      (Z.of_nat (length l) <= 8 \/ 18 < d
       \/ exists best, splitSAH (fst box) (snd box) l = Some best
                       /\ sah_terminates (minSAH best) l = true))
     /\ 0 <= d <= 19 /\ (leaf = false -> d <= 18))
  /\ tree_depth t 0 <= 19
  /\ (forall d box l, In (d, box, l) (leaves t 0) ->
        Z.of_nat (length l) <= 8 \/ d = 19
        \/ exists best, splitSAH (fst box) (snd box) l = Some best
                        /\ sah_terminates (minSAH best) l = true).
Proof.
  unfold buildKdTree. intros Hb.
  assert (H19 : 0 <= 19) by lia.
  pose proof (buildKdTree_rec_calls _ _ _ _ _ _ H19 Hb) as Hc.
  split; [|split].
  - intros d box l leaf Hin. destruct (Hc _ _ _ _ Hin) as (? & ? & ?). auto.
  - destruct (tree_depth_calls t lst 0) as (box & l & leaf & Hin).
    destruct (Hc _ _ _ _ Hin) as (? & _). lia.
  - intros d box l Hin.
    apply (buildKdTree_rec_leaves _ _ _ _ _ _ Hb) in Hin.
    destruct (Hc _ _ _ _ Hin) as (Hd & _ & Hr).
    destruct (proj1 Hr eq_refl) as [Hsz|[Hdp|Hsah]]; auto.
    right; left. lia.
Qed.

(** [buildKdTree_leaf_rule] on [slab_scene]: the build returns a tree, of
    depth 1. *)
Lemma buildKdTree_leaf_rule_witness :
  exists t, buildKdTree (mkPoint 0 0 0) (mkPoint 2 2 1) slab_scene 0 = Some t
            /\ tree_depth t 0 <= 19 /\ tree_depth t 0 = 1.
Proof.
  eexists. split; [vm_compute; reflexivity|].
  split; [|vm_compute; reflexivity].
  refine (proj1 (proj2 (buildKdTree_leaf_rule (mkPoint 0 0 0) (mkPoint 2 2 1)
                          slab_scene _ _))).
  vm_compute. reflexivity.
Defined.

(** C5, the claim as stated fails: the tree built over one hundred triangles
    at x = 1, 2, 4, ... has depth 19, and its leaf at depth 19 holds nine of
    them. *)
Lemma buildKdTree_reaches_depth_19 :
  exists t, init (doubling_scene 100 1) = Some t
            /\ tree_depth t 0 = 19 /\ ~ tree_depth t 0 <= 18
            /\ In (19, 9%nat) (map (fun '(d, _, l) => (d, length l)) (leaves t 0)).
Proof.
  eexists. split; [vm_compute; reflexivity|].
  split; [vm_compute; reflexivity|].
  split; [vm_compute; intros Hle; apply Hle; reflexivity|].
  vm_compute. left. reflexivity.
Qed.


(** ** The traversal *)

Lemma height_nonneg t : 0 <= height t.
Proof. induction t; simpl; lia. Qed.

Lemma tree_depth_height t : forall d, tree_depth t d = d + height t.
Proof.
  induction t as [| ? ? ? ? l IHl r IHr]; intros d; simpl; [lia|].
  rewrite IHl, IHr. lia.
Qed.

Lemma stack_get_inv st i :
  length st = 50%nat -> 0 <= i <= 49 ->
  exists e, stack_get st i = Ret e /\ st !! Z.to_nat i = Some e.
Proof.
  intros Hlen Hi. unfold stack_get, STACK_SIZE.
  destruct (Z.leb_spec 0 i); [|lia]. destruct (Z.ltb_spec i 50); [|lia]. simpl.
  destruct (st !! Z.to_nat i) as [e|] eqn:He; [eauto|].
  apply lookup_ge_None in He. lia.
Qed.

Lemma node_count_pos t : 1 <= node_count t.
Proof. induction t; simpl; lia. Qed.

Lemma chain_bounds H st top j w :
  chain H st top j w -> 0 <= j /\ 1 <= top <= 1 + 2 * j /\ 0 <= w.
Proof.
  induction 1 as [|top e far j w He Hn Hp Hh Hc IH];
    [|pose proof (node_count_pos far)]; lia.
Qed.

Lemma chain_frame H st top j w :
  chain H st top j w ->
  forall i e', top < i -> chain H (<[Z.to_nat i := e']> st) top j w.
Proof.
  induction 1 as [e He Hn|top e far j w He Hn Hp Hh Hc IH]; intros i e' Hi.
  - apply chain_base with e; [|assumption].
    rewrite list_lookup_insert_ne by lia. assumption.
  - pose proof (chain_bounds _ _ _ _ _ Hc).
    apply chain_push with e; try assumption.
    + rewrite list_lookup_insert_ne by lia. assumption.
    + apply IH. lia.
Qed.

Lemma on_chain_le H st top j w :
  chain H st top j w -> forall i, on_chain st top i -> 1 <= i <= top.
Proof.
  induction 1 as [e He Hn|top e far j w He Hn Hp Hh Hc IH]; intros i Hi.
  - inversion Hi as [|? e' ? He' Hn' Hi']; subst; [lia|].
    change (Z.to_nat 1) with 1%nat in He'. congruence.
  - pose proof (chain_bounds _ _ _ _ _ Hc).
    inversion Hi as [|? e' ? He' Hn' Hi']; subst; [lia|].
    assert (e' = e) by congruence. subst e'.
    specialize (IH _ Hi'). lia.
Qed.

(** *** What the traversal emits *)

Section TraversalFacts.
Variable GI : Geometry -> Ray.t -> IntersectResult.
Variable ray : Ray.t.
Variable rxPoints0 : list RxIntersection.

Lemma scan_geometry_ok s acc g acc' :
  scan_geometry GI ray s acc g = Ret acc' ->
  scan_invariant acc -> scan_invariant acc'.
Proof.
  destruct acc as [[minDistance minResult] rx]. unfold scan_geometry.
  destruct (GI g ray) as [|d p n g']; [intros [= <-]; auto|].
  destruct (stack_get (stack s) (enPt s)) as [en| |]; simpl; try discriminate.
  destruct (_ <=? d)%float; [|intros [= <-]; auto].
  destruct (stack_get (stack s) (exPt s)) as [ex| |]; simpl; try discriminate.
  destruct (d <=? _)%float; [|intros [= <-]; auto].
  destruct g' as [pa pb pc pn|c rad idx];
    destruct (d <? minDistance)%float; intros [= <-]; auto.
  unfold scan_invariant. right. eauto 10.
Qed.

Lemma scan_leaf_ok s lst : forall acc acc',
  scan_leaf GI ray s lst acc = Ret acc' ->
  scan_invariant acc -> scan_invariant acc'.
Proof.
  induction lst as [|g lst IH]; intros acc acc'; simpl; [intros [= <-]; auto|].
  destruct (scan_geometry GI ray s acc g) as [acc1| |] eqn:Hg; simpl; try discriminate.
  intros Hl Ha. eapply IH; [eassumption|]. eapply scan_geometry_ok; eassumption.
Qed.

Lemma leave_leaf_answer s minDistance minResult rx ans :
  scan_invariant (minDistance, minResult, rx) ->
  leave_leaf s rxPoints0 minDistance minResult rx = Ret (inr ans) ->
  emission_rule rxPoints0 ans.
Proof.
  intros Hinv. unfold leave_leaf.
  destruct minResult as [|d p n g]; simpl.
  - destruct (stack_get (stack s) (exPt s)) as [ex| |]; simpl; try discriminate.
    destruct (se_node ex); [discriminate|]. intros [= <-].
    unfold emission_rule. simpl. constructor.
  - intros [= <-]. unfold emission_rule. simpl.
    destruct Hinv as [Hn|(p' & n' & g' & Heq & Hg)]; [discriminate|].
    injection Heq as -> <- <- <-.
    split; [assumption|]. split; [reflexivity|].
    rewrite drop_app_length. apply Forall_forall. intros rxi Hin. apply list_elem_of_In in Hin.
    apply in_map_iff in Hin. destruct Hin as (e & <- & Hin).
    apply filter_In in Hin. destruct Hin as [_ Hlt]. simpl.
    split; [assumption|]. apply float_ltb_leb. assumption.
Qed.

Lemma step_answer s ans :
  step GI ray rxPoints0 s = Ret (inr ans) -> emission_rule rxPoints0 ans.
Proof.
  unfold step. destruct (currNode s) as [bmin bmax lst|bmin bmax axis sv l r].
  - destruct (scan_leaf GI ray s lst (DBL_MAX, NoHit, rxIntersections s))
      as [[[minDistance minResult] rx]| |] eqn:Hs; simpl; try discriminate.
    apply leave_leaf_answer. eapply scan_leaf_ok; [eassumption|].
    left. reflexivity.
  - destruct (descend_step ray s axis sv l r); simpl; discriminate.
Qed.

Lemma run_answer fuel : forall s ans,
  run GI ray fuel rxPoints0 s = Ret ans -> emission_rule rxPoints0 ans.
Proof.
  induction fuel as [|fuel IH]; intros s ans; simpl; [discriminate|].
  destruct (step GI ray rxPoints0 s) as [[s'|a]| |] eqn:Hst; simpl; try discriminate.
  - apply IH.
  - intros [= <-]. eapply step_answer; eassumption.
Qed.
End TraversalFacts.

(** *** The stack *)

Section StackFacts.
Variable GI : Geometry -> Ray.t -> IntersectResult.
Variable ray : Ray.t.
Variable rxPoints0 : list RxIntersection.
Variable H : Z.
Hypothesis H_bound : H <= 24.

Lemma scan_geometry_reads s acc g :
  length (stack s) = 50%nat -> 0 <= enPt s <= 49 -> 0 <= exPt s <= 49 ->
  exists acc', scan_geometry GI ray s acc g = Ret acc'.
Proof.
  intros Hlen Hen Hex. destruct acc as [[minDistance minResult] rx].
  unfold scan_geometry. destruct (GI g ray) as [|d p n g']; [eauto|].
  destruct (stack_get_inv _ _ Hlen Hen) as (en & -> & _). simpl.
  destruct (_ <=? d)%float; [|eauto].
  destruct (stack_get_inv _ _ Hlen Hex) as (ex & -> & _). simpl.
  destruct (d <=? _)%float; [|eauto].
  destruct g'; destruct (d <? minDistance)%float; eauto.
Qed.

Lemma scan_leaf_reads s lst :
  length (stack s) = 50%nat -> 0 <= enPt s <= 49 -> 0 <= exPt s <= 49 ->
  forall acc, exists acc', scan_leaf GI ray s lst acc = Ret acc'.
Proof.
  intros Hlen Hen Hex. induction lst as [|g lst IH]; intros acc; simpl; [eauto|].
  destruct (scan_geometry_reads s acc g Hlen Hen Hex) as (acc1 & ->). simpl.
  apply IH.
Qed.

(** One step keeps the invariant, stays inside the array, leaves the
    slots in use as they are, and visits one of the nodes still to visit. *)
Lemma step_inv m s :
  stack_inv H m s ->
  0 <= enPt s <= 49 /\ 0 <= exPt s <= 49 /\ 1 <= m
  /\ exists r, step GI ray rxPoints0 s = Ret r
     /\ match r with
        | inl s' =>
            stack_inv H (m - 1) s'
            /\ forall i, in_use s i ->
                 stack s' !! Z.to_nat i = stack s !! Z.to_nat i
        | inr _ => True
        end.
Proof.
  intros (Hlen & Hen & Hne & j & w & Hc & Hj & Hw).
  pose proof (chain_bounds _ _ _ _ _ Hc) as (Hj0 & Hex & Hw0).
  pose proof (height_nonneg (currNode s)) as Hh0.
  pose proof (node_count_pos (currNode s)) as Hn0.
  assert (Hen' : 0 <= enPt s <= 49) by lia.
  assert (Hex' : 0 <= exPt s <= 49) by lia.
  split; [assumption|]. split; [assumption|]. split; [lia|].
  unfold step. destruct s as [curr st en ex rx]. simpl in *.
  destruct curr as [bmin bmax lst|bmin bmax axis sv l r]; simpl in *.
  - (* a leaf *)
    destruct (scan_leaf_reads (mkTrav (Leaf bmin bmax lst) st en ex rx) lst
                Hlen Hen' Hex' (DBL_MAX, NoHit, rx))
      as ([[minDistance minResult] rx'] & ->). simpl.
    unfold leave_leaf. cbn [stack exPt enPt].
    destruct (hit minResult); [eexists; split; [reflexivity|exact I]|].
    destruct (stack_get_inv _ _ Hlen Hex') as (e & -> & He). cbn [bind].
    destruct (se_node e) as [node|] eqn:Hnode;
      [|eexists; split; [reflexivity|exact I]].
    eexists. split; [reflexivity|]. simpl. split; [|reflexivity].
    inversion Hc as [e0 He0 Hn0'|top e1 far j1 w1 He1 Hn1 Hp1 Hh1 Hc1]; subst.
    + change (Z.to_nat 1) with 1%nat in He. congruence.
    + assert (e1 = e) by congruence. subst e1.
      assert (far = node) by congruence. subst far.
      pose proof (chain_bounds _ _ _ _ _ Hc1).
      repeat split; simpl; try assumption; try lia.
      exists j1, w1. repeat split; [assumption|lia|lia].
  - (* an internal node *)
    pose proof (height_nonneg l). pose proof (height_nonneg r).
    pose proof (node_count_pos l). pose proof (node_count_pos r).
    unfold descend_step. cbn [stack exPt enPt].
    destruct (stack_get_inv _ _ Hlen Hen') as (een & -> & _).
    destruct (stack_get_inv _ _ Hlen Hex') as (eex & -> & _). cbn [bind].
    assert (Hgoto : forall n, height n < 1 + Z.max (height l) (height r) ->
              node_count n < 1 + node_count l + node_count r ->
              stack_inv H (m - 1) (mkTrav n st en ex rx)).
    { intros n Hn Hn'. repeat split; simpl; try assumption; try lia.
      exists j, w. repeat split; [assumption|lia|lia]. }
    assert (Hpush : forall near far,
              height near < 1 + Z.max (height l) (height r) ->
              height far < 1 + Z.max (height l) (height r) ->
              node_count near + node_count far = node_count l + node_count r ->
              exists r0,
                (do s' <- push_far ray (mkTrav (Internal bmin bmax axis sv l r) st en ex rx)
                            axis sv near far ; Ret (inl s' : Trav + Answer)) = Ret r0
                /\ match r0 with
                   | inl s' =>
                       stack_inv H (m - 1) s'
                       /\ forall i, in_use (mkTrav (Internal bmin bmax axis sv l r) st en ex rx) i ->
                            stack s' !! Z.to_nat i = st !! Z.to_nat i
                   | inr _ => True
                   end).
    { intros near far Hnear Hfar Hcount. unfold push_far, stack_update.
      cbn [stack exPt enPt rxIntersections].
      set (ex2 := if ex + 1 =? en then ex + 1 + 1 else ex + 1).
      assert (Hex2 : ex < ex2 <= ex + 2 /\ ex2 <> en).
      { unfold ex2. destruct (Z.eqb_spec (ex + 1) en); lia. }
      assert (Hex2b : 0 <= ex2 <= 49) by lia.
      destruct (stack_get_inv _ _ Hlen Hex2b) as (e2 & -> & He2). cbn [bind].
      eexists. split; [reflexivity|]. cbn beta iota. split.
      - repeat split; simpl; try lia.
        + rewrite length_insert. assumption.
        + exists (j + 1), (w + node_count far). repeat split; [|lia|lia].
          eapply chain_push with (far := far).
          * apply list_lookup_insert_eq. lia.
          * reflexivity.
          * simpl. lia.
          * lia.
          * simpl. apply chain_frame; [assumption|lia].
      - intros i [->|Hi]; simpl in *.
        + rewrite list_lookup_insert_ne by lia. reflexivity.
        + pose proof (on_chain_le _ _ _ _ _ Hc _ Hi).
          rewrite list_lookup_insert_ne by lia. reflexivity. }
    destruct (_ <=? sv)%float.
    + destruct (_ <=? sv)%float.
      * eexists. split; [reflexivity|]. split; [apply Hgoto; lia|reflexivity].
      * destruct (_ =? sv)%float.
        -- eexists. split; [reflexivity|]. split; [apply Hgoto; lia|reflexivity].
        -- apply Hpush; lia.
    + destruct (sv <? _)%float.
      * eexists. split; [reflexivity|]. split; [apply Hgoto; lia|reflexivity].
      * apply Hpush; lia.
Qed.

Lemma steps_inv n : forall m s,
  stack_inv H m s ->
  (forall i, steps GI ray n rxPoints0 s <> OutOfBounds i)
  /\ forall s', steps GI ray n rxPoints0 s = Ret (inl s') ->
       stack_inv H (m - Z.of_nat n) s'.
Proof.
  induction n as [|n IH]; intros m s Hinv.
  - simpl. split; [discriminate|]. intros s' [= <-].
    replace (m - Z.of_nat 0) with m by lia. assumption.
  - cbn [steps].
    destruct (step_inv m s Hinv) as (_ & _ & _ & r & -> & Hr). cbn [bind].
    destruct r as [s1|ans]; [|split; discriminate].
    destruct Hr as [Hr _].
    replace (m - Z.of_nat (S n)) with (m - 1 - Z.of_nat n) by lia.
    apply IH. assumption.
Qed.

(** The loop returns within as many steps as there are nodes to visit. *)
Lemma steps_answer n : forall m s,
  stack_inv H m s -> m <= Z.of_nat n ->
  exists ans, steps GI ray n rxPoints0 s = Ret (inr ans).
Proof.
  induction n as [|n IH]; intros m s Hinv Hm;
    destruct (step_inv m s Hinv) as (_ & _ & Hm1 & r & Hst & Hr); [lia|].
  cbn [steps]. rewrite Hst. cbn [bind].
  destruct r as [s1|ans]; [|eauto].
  destruct Hr as [Hr _]. apply (IH (m - 1)); [assumption|lia].
Qed.
End StackFacts.

Lemma initial_inv ray garbage root a b H :
  height root <= H -> 0 <= H ->
  stack_inv H (node_count root) (initial ray garbage root a b).
Proof.
  intros Hh H0. unfold stack_inv, initial. cbn [stack enPt exPt currNode].
  split; [reflexivity|]. split; [lia|]. split; [lia|].
  exists 0, 0. repeat split; [|lia|lia].
  eapply chain_base; reflexivity.
Qed.

Lemma run_steps GI ray rxPoints0 fuel : forall s,
  run GI ray fuel rxPoints0 s
  = match steps GI ray fuel rxPoints0 s with
    | Ret (inl _) => Timeout
    | Ret (inr ans) => Ret ans
    | OutOfBounds i => OutOfBounds i
    | Timeout => Timeout
    end.
Proof.
  induction fuel as [|fuel IH]; intros s; simpl; [reflexivity|].
  destruct (step GI ray rxPoints0 s) as [[s'|ans]| |]; simpl; auto.
Qed.

Lemma intersect_returns GI Grid ray garbage root rxPoints0 fuel :
  tree_depth root 0 <= 19 -> node_count root <= Z.of_nat fuel ->
  exists ans, intersect GI Grid ray fuel garbage root rxPoints0 = Ret ans.
Proof.
  intros Hd Hf. rewrite tree_depth_height in Hd. unfold intersect.
  destruct (Grid (node_min root) (node_max root) ray) as [[a b]|]; [|eauto].
  assert (H24 : 19 <= 24) by lia.
  assert (Hinit : stack_inv 19 (node_count root) (initial ray garbage root a b))
    by (apply initial_inv; lia).
  destruct (steps_answer GI ray rxPoints0 19 H24 fuel _ _ Hinit Hf) as (ans & Hans).
  rewrite run_steps, Hans. eauto.
Qed.

(** C4.  Whatever [intersect] returns obeys the emission rule: with an
    occluder (a triangle hit at distance [d]) the receivers pushed onto
    [rxPoints] are exactly the collected ones whose recorded distance is
    strictly less than [d], in the order of the map, so each emitted distance
    is also at most [d]; without an occluder all collected receivers are
    pushed.  And on a tree within the depth bound of the build the traversal
    does return, within as many steps as the tree has nodes. *)
Theorem intersect_emits_receivers_before_occluder
    (GI : Geometry -> Ray.t -> IntersectResult)
    (Grid : Point -> Point -> Ray.t -> option (float * float))
    (ray : Ray.t) (fuel : nat) (garbage : nat -> StackElem) (root : KdNode)
    (rxPoints0 : list RxIntersection) :
  (tree_depth root 0 <= 19 -> node_count root <= Z.of_nat fuel ->
   exists ans, intersect GI Grid ray fuel garbage root rxPoints0 = Ret ans)
  /\ forall ans,
       intersect GI Grid ray fuel garbage root rxPoints0 = Ret ans ->
       match result ans with
       | Hit d _ _ g =>
           is_sphere g = false
           /\ rxPoints ans
              = rxPoints0
                ++ map RxIntersection_of
                     (List.filter (fun e => (info_distance (snd e) <? d)%float)
                        (collected ans))
           /\ Forall (fun rx => (rx_distance rx <? d)%float = true
                                /\ (rx_distance rx <=? d)%float = true)
                (drop (length rxPoints0) (rxPoints ans))
       | NoHit =>
           rxPoints ans = rxPoints0 ++ map RxIntersection_of (collected ans)
       end.
Proof.
  split; [apply intersect_returns|].
  intros ans. unfold intersect.
  destruct (Grid (node_min root) (node_max root) ray) as [[a b]|].
  - intros Hr. apply (run_answer _ _ _ _ _ _ Hr).
  - intros [= <-]. simpl. rewrite app_nil_r. reflexivity.
Qed.

(** [intersect_emits_receivers_before_occluder] on [receiver_tree]: the ray
    collects both receivers in the first leaf, meets the triangle at distance
    1 and emits only receiver 0, pierced at distance 0.5. *)
Lemma intersect_emits_witness :
  exists ans,
    intersect axial_Geometry_intersect axial_Grid_intersect axial_ray 3
              zero_garbage receiver_tree [] = Ret ans
    /\ rxPoints ans = [mkRxIntersection 0 0.5 0.25 0.25]
    /\ map fst (collected ans) = [0; 1]
    /\ emission_rule [] ans.
Proof.
  eexists. split; [vm_compute; reflexivity|].
  split; [vm_compute; reflexivity|]. split; [vm_compute; reflexivity|].
  apply (proj2 (intersect_emits_receivers_before_occluder
                  axial_Geometry_intersect axial_Grid_intersect axial_ray 3
                  zero_garbage receiver_tree [])).
  vm_compute. reflexivity.
Defined.

(** C9.  On a tree within the depth bound of the build, no run of
    [intersect] reads or writes the stack outside [0, 49]; at every state the
    loop reaches, [enPt] and [exPt] are within [0, 49] and distinct, the next
    step stays inside the array, and it leaves every slot in use (the entry
    slot and the slots of the exit chain) as it was. *)
Theorem traversal_stack_within_bounds
    (GI : Geometry -> Ray.t -> IntersectResult)
    (Grid : Point -> Point -> Ray.t -> option (float * float))
    (ray : Ray.t) (garbage : nat -> StackElem) (root : KdNode) (a b : float)
    (rxPoints0 : list RxIntersection) :
  tree_depth root 0 <= 19 ->
  (forall fuel i,
     intersect GI Grid ray fuel garbage root rxPoints0 <> OutOfBounds i)
  /\ forall n,
       (forall i, steps GI ray n rxPoints0 (initial ray garbage root a b)
                  <> OutOfBounds i)
       /\ forall s,
            steps GI ray n rxPoints0 (initial ray garbage root a b) = Ret (inl s) ->
            0 <= enPt s <= 49 /\ 0 <= exPt s <= 49 /\ enPt s <> exPt s
            /\ (forall i, step GI ray rxPoints0 s <> OutOfBounds i)
            /\ forall s', step GI ray rxPoints0 s = Ret (inl s') ->
                 forall i, in_use s i ->
                   stack s' !! Z.to_nat i = stack s !! Z.to_nat i.
Proof.
  intros Hd. rewrite tree_depth_height in Hd.
  assert (Hinit : forall a' b',
            stack_inv 19 (node_count root) (initial ray garbage root a' b'))
    by (intros; apply initial_inv; lia).
  assert (H24 : 19 <= 24) by lia.
  split.
  - intros fuel i. unfold intersect.
    destruct (Grid (node_min root) (node_max root) ray) as [[a' b']|]; [|discriminate].
    rewrite run_steps.
    destruct (steps_inv GI ray rxPoints0 19 H24 fuel _ _ (Hinit a' b')) as [Hno _].
    specialize (Hno i).
    destruct (steps GI ray fuel rxPoints0 (initial ray garbage root a' b'))
      as [[s|ans]| |]; congruence.
  - intros n.
    destruct (steps_inv GI ray rxPoints0 19 H24 n _ _ (Hinit a b)) as [Hno Hs].
    split; [assumption|]. intros s Hst. specialize (Hs _ Hst).
    destruct (step_inv GI ray rxPoints0 19 H24 _ s Hs) as (Hen & Hex & _ & r & Hr & Hpost).
    destruct Hs as (_ & _ & Hne & _).
    repeat split; try lia.
    + intros i. rewrite Hr. discriminate.
    + intros s' Hs' i Hi. rewrite Hr in Hs'. injection Hs' as ->.
      apply Hpost. assumption.
Qed.

(** [traversal_stack_within_bounds] on [receiver_tree]. *)
Lemma traversal_stack_within_bounds_witness :
  tree_depth receiver_tree 0 <= 19
  /\ forall fuel i,
       intersect axial_Geometry_intersect axial_Grid_intersect axial_ray fuel
                 zero_garbage receiver_tree [] <> OutOfBounds i.
Proof.
  assert (Hd : tree_depth receiver_tree 0 <= 19) by (vm_compute; discriminate).
  split; [exact Hd|].
  exact (proj1 (traversal_stack_within_bounds
                  axial_Geometry_intersect axial_Grid_intersect axial_ray
                  zero_garbage receiver_tree 0%float 0%float [] Hd)).
Defined.


(** ** The field kernels and the launcher *)

(** C3, the claim as stated fails: for the unit direction (0, 0, 1) the code
    takes alpha = (1,0,0) x j where the claim takes (0,1,0) x j; and for
    (0.6, 0.8, 0), of length 1, the code's alpha is (0, 0, -0.6), which is not
    normalised, where the claim's is (0, 0, 1). *)
Lemma calc_new_base_differs_from_spec :
  calc_new_base (mkVector 0 0 1) <> calc_new_base_spec (mkVector 0 0 1)
  /\ Vector_length (mkVector 0.6 0.8 0) = 1%float
  /\ fst (calc_new_base (mkVector 0.6 0.8 0)) = mkVector 0 0 (-0.6)
  /\ fst (calc_new_base_spec (mkVector 0.6 0.8 0)) = mkVector 0 0 1.
Proof.
  split; [|repeat split; vm_compute; reflexivity].
  intros Heq.
  apply (f_equal (fun p => (vx (fst p) =? 0)%float)) in Heq.
  vm_compute in Heq. discriminate.
Qed.

(** C3, as amended.  For every direction j the basis of a post-reflection
    straight segment is alpha = (0,1,0) x j if |j_x| > 0.1, else (1,0,0) x j,
    taken as computed (not normalised), with beta = j x alpha; the carried
    field is decomposed through the inverse of the matrix of columns alpha,
    beta, j and recomposed on alpha and beta. *)
Theorem calc_field_direct_E_basis `{Externals} (parameters : RtParameter)
    (r : Ray.t) (distance : float) (Ei : ComplexVector) :
  let dir := Ray.direction r in
  let alpha :=
    if (0.1 <? PrimFloat.abs (vx dir))%float
    then Vector_cross (mkVector 0 1 0) dir
    else Vector_cross (mkVector 1 0 0) dir in
  let beta := Vector_cross dir alpha in
  let A := decompose alpha beta dir Ei in
  let phasor :=
    Euler (Ray.prev_mileage r / (Ray.prev_mileage r + distance))%float
          (- k parameters * distance)%float in
  calc_new_base dir = (alpha, beta)
  /\ calc_field_direct_E parameters
       (Ray.mk (Ray.origin r) dir (Ray.unit_surface_area r) Ray.MoreReflect
               (Ray.prev_point r) (Ray.prev_mileage r) (Ray.path r))
       distance Ei
     = ComplexVector_add
         (Complex_times_Vector (Complex_mul (x A) phasor) alpha)
         (Complex_times_Vector (Complex_mul (y A) phasor) beta).
Proof.
  intros dir alpha beta A phasor. split; [reflexivity|].
  unfold calc_field_direct_E. simpl Ray.direction. simpl Ray.state.
  fold dir. unfold calc_new_base. fold alpha. fold beta. reflexivity.
Qed.

Section LauncherFacts.
Context `{Externals}.
Variable parameters : RtParameter.
Variable txPower : float.
Variable accelerator_intersect : Ray.t -> IntersectResult * list RxIntersection.
Variable geometry_index : Geometry -> Z.
Context {RxFields : Type}.
Variable AddField : RxFields -> ComplexVector -> list Z -> float -> RxFields.
Variable RxFields_Sum : RxFields -> ComplexVector.

Lemma GetRxPowers_from_eq (fields : list RxFields) : forall i powers,
  (i + length fields <= length powers)%nat ->
  GetRxPowers_from parameters txPower RxFields_Sum i fields powers
  = Some (take i powers ++ map (rx_power parameters txPower RxFields_Sum) fields
          ++ drop (i + length fields) powers).
Proof.
  induction fields as [|f fields IH]; intros i powers Hlen; simpl in *.
  - rewrite Nat.add_0_r, take_drop. reflexivity.
  - destruct (Nat.ltb_spec i (length powers)) as [Hi|Hi]; [|lia].
    rewrite IH; [|rewrite length_insert; lia].
    rewrite (take_S_r _ _ (rx_power parameters txPower RxFields_Sum f))
      by (apply list_lookup_insert_eq; lia).
    rewrite take_insert_ge by lia.
    rewrite drop_insert_lt by lia.
    rewrite <- app_assoc. simpl.
    replace (S (i + length fields)) with (i + S (length fields))%nat by lia.
    reflexivity.
Qed.

(** C7.  When the caller's array has room for every receiver,
    [GetRxPowers] returns it with, at each index [i] below the number of
    buckets, the power of bucket [i]: [txPower - 250.0] when the six
    components of its sum all compare equal to zero, and
    [10 * log10(lamda^2 / (8 * PI * 377) * |E|^2) + 30] otherwise. *)
Theorem GetRxPowers_values (rxFields : list RxFields) (powers : list float)
    (n : Z) :
  (length rxFields <= length powers)%nat ->
  exists out,
    GetRxPowers parameters txPower RxFields_Sum rxFields powers n = Some out
    /\ length out = length powers
    /\ forall (i : nat) (f : RxFields), rxFields !! i = Some f ->
         let sum := RxFields_Sum f in
         let norm_sqr :=
           (a (x sum) * a (x sum) + b (x sum) * b (x sum)
            + a (y sum) * a (y sum) + b (y sum) * b (y sum)
            + a (z sum) * a (z sum) + b (z sum) * b (z sum))%float in
         out !! i
         = Some (if (a (x sum) =? 0)%float && (b (x sum) =? 0)%float
                    && (a (y sum) =? 0)%float && (b (y sum) =? 0)%float
                    && (a (z sum) =? 0)%float && (b (z sum) =? 0)%float
                 then (txPower - 250.0)%float
                 else (10 * log10 (lamda parameters * lamda parameters
                                   / (8.0 * PI * 377.0) * norm_sqr)
                       + 30.0)%float).
Proof.
  intros Hlen. unfold GetRxPowers.
  rewrite GetRxPowers_from_eq by (simpl; lia). simpl.
  eexists. split; [reflexivity|]. split.
  - rewrite length_app, length_map, length_drop. lia.
  - intros i f Hi. cbv zeta.
    rewrite lookup_app_l by (rewrite length_map; eapply lookup_lt_Some; eauto).
    rewrite list_lookup_fmap, Hi. reflexivity.
Qed.

(** C10.  [GetRxPowers] does not look at [n]: for every two values of it the
    outcome is the same, and it is the caller's array with its first
    [rxFields.size()] entries overwritten, one per bucket, and the others
    untouched. *)
Theorem GetRxPowers_ignores_n (rxFields : list RxFields)
    (powers : list float) (n n' : Z) :
  (length rxFields <= length powers)%nat ->
  GetRxPowers parameters txPower RxFields_Sum rxFields powers n
  = GetRxPowers parameters txPower RxFields_Sum rxFields powers n'
  /\ GetRxPowers parameters txPower RxFields_Sum rxFields powers n
     = Some (map (rx_power parameters txPower RxFields_Sum) rxFields
             ++ drop (length rxFields) powers).
Proof.
  intros Hlen. split; [reflexivity|]. unfold GetRxPowers.
  rewrite GetRxPowers_from_eq by (simpl; lia). reflexivity.
Qed.

(** Beyond the bounce limit [trace(r, depth, E)] records nothing. *)
Lemma trace_E_beyond_limit (fuel : nat) (r : Ray.t) (depth : Z)
    (E : ComplexVector) (rxFields : list RxFields) :
  maxReflections parameters < depth ->
  trace_E parameters accelerator_intersect geometry_index AddField fuel r depth E rxFields
  = Some rxFields.
Proof.
  intros Hd. destruct fuel; simpl; destruct (accelerator_intersect r);
    destruct (Z.ltb_spec (maxReflections parameters) depth); auto; lia.
Qed.

(** The recursion of [trace(r, depth, E)] ends within the levels left up
    to [maxReflections]. *)
Lemma trace_E_returns (fuel : nat) : forall r depth E rxFields,
  maxReflections parameters + 1 - depth <= Z.of_nat fuel ->
  exists rxFields',
    trace_E parameters accelerator_intersect geometry_index AddField fuel r depth E rxFields
    = Some rxFields'.
Proof.
  induction fuel as [|fuel IH]; intros r depth E rxFields Hf; simpl;
    destruct (accelerator_intersect r) as [res rxs];
    destruct (Z.ltb_spec (maxReflections parameters) depth); eauto; try lia.
  destruct res; eauto. destruct (Ray.state r); eauto.
  apply IH. lia.
Qed.

(** [trace(r, depth)] always returns. *)
Lemma trace_returns (r : Ray.t) (depth : Z) (rxFields : list RxFields) :
  exists rxFields',
    trace parameters txPower accelerator_intersect geometry_index AddField r depth rxFields
    = Some rxFields'.
Proof.
  unfold trace. destruct (accelerator_intersect r) as [res rxs].
  destruct res; eauto. destruct (Ray.state r); eauto.
  apply trace_E_returns. unfold trace_fuel. lia.
Qed.

(** With [maxReflections = 0], [trace(ray, 0)] leaves in [rxFields] exactly
    what the direct-path loop of lines 458-471 records: the call it makes at
    depth 1 adds nothing. *)
Lemma trace_direct_only (r : Ray.t) (rxFields : list RxFields) :
  maxReflections parameters = 0 ->
  trace parameters txPower accelerator_intersect geometry_index AddField r 0 rxFields
  = Some (record_direct parameters txPower AddField r (snd (accelerator_intersect r))
            rxFields).
Proof.
  intros Hm. unfold trace. destruct (accelerator_intersect r) as [res rxs].
  simpl. destruct res; [reflexivity|]. destruct (Ray.state r); try reflexivity.
  apply trace_E_beyond_limit. lia.
Qed.

(** C2.  For a ray in [Start] state, whatever its cell area and whatever
    the distance and radius of the pierced receiver, [trace(r, depth)] hands
    [AddField] the direct field as [calc_field_direct] computed it, with no
    area correction; the correction is applied only on the segments that
    carry a field, by [trace(r, depth, E)]. *)
Theorem trace_start_records_uncorrected (o : Point) (d : Vector)
    (area distance offset radius : float) (depth : Z) (f : RxFields) :
  let r := Ray.new o d area in
  let rx := mkRxIntersection 0 distance offset radius in
  trace parameters txPower (fun _ => (NoHit, [rx])) geometry_index AddField
        r depth [f]
  = Some [AddField f (calc_field_direct parameters txPower r distance) []
                   offset]
  /\ forall E,
       record_carried parameters AddField r E [rx] [f]
       = [AddField f
            (area_correction r rx (calc_field_direct_E parameters r distance E))
            [] offset].
Proof. intros r rx. split; [reflexivity|]. intros E. reflexivity. Qed.
End LauncherFacts.


Section SessionFacts.
Context `{Externals}.
Variable RxFields : Type.
Variable accelerator : list Geometry -> Ray.t -> IntersectResult * list RxIntersection.
Variable geometry_index : Geometry -> Z.
Variable AddField : RxFields -> ComplexVector -> list Z -> float -> RxFields.
Variable RxFields_new : RxFields.

Lemma launched_rays_Start (txPoint : Point) (raySpacing : float) :
  Forall (fun ray => Ray.state ray = Ray.Start /\ Ray.path ray = []
                     /\ Ray.origin ray = txPoint)
         (launched_rays txPoint raySpacing).
Proof.
  unfold launched_rays. apply Forall_forall. intros ray Hin.
  apply list_elem_of_In, in_flat_map in Hin. destruct Hin as (i & _ & Hin).
  apply in_map_iff in Hin. destruct Hin as (j & <- & _). auto.
Qed.

Lemma trace_all_direct_only (parameters : RtParameter) (txPower : float)
    (scene : list Geometry) (rays : list Ray.t) :
  maxReflections parameters = 0 ->
  forall rxFields,
    trace_all accelerator geometry_index AddField parameters txPower scene rays
              rxFields
    = Some (fold_left
              (fun fields ray =>
                 record_direct parameters txPower AddField ray
                   (snd (accelerator scene ray)) fields)
              rays rxFields).
Proof.
  intros Hm. induction rays as [|ray rays IH]; intros rxFields; simpl;
    [reflexivity|].
  rewrite trace_direct_only by assumption. apply IH.
Qed.

(** C6.  With [maxReflections = 0], [Simulate] leaves in the receiver buckets
    exactly what the direct-path loop of lines 458-471 records for each
    launched ray in turn, the direct-launch field of every receiver the ray
    pierces; every launched ray is in [Start] state with an empty path; and
    for any ray, the call [trace] makes at depth 1 adds nothing. *)
Theorem Simulate_direct_only (scene : list Geometry) (txPoint : Point)
    (txPower : float) (rxPoints : list Point) (rxRadius : float)
    (parameters : RtParameter) (rxFields : list RxFields) :
  maxReflections parameters = 0 ->
  let scene' :=
    scene ++ imap (fun i p => Sphere p rxRadius (Z.of_nat i)) rxPoints in
  let parameters' := with_wavelength parameters in
  let rays := launched_rays txPoint (raySpacing parameters) in
  Simulate accelerator geometry_index AddField RxFields_new scene txPoint
           txPower rxPoints rxRadius parameters rxFields
  = Some (scene', parameters',
          fold_left
            (fun fields ray =>
               record_direct parameters' txPower AddField ray
                 (snd (accelerator scene' ray)) fields)
            rays (rxFields ++ map (fun _ => RxFields_new) rxPoints))
  /\ Forall (fun ray => Ray.state ray = Ray.Start /\ Ray.path ray = []
                        /\ Ray.origin ray = txPoint) rays
  /\ forall ray fields,
       trace parameters' txPower (accelerator scene') geometry_index AddField
             ray 0 fields
       = Some (record_direct parameters' txPower AddField ray
                 (snd (accelerator scene' ray)) fields).
Proof.
  intros Hm scene' parameters' rays. split; [|split].
  - unfold Simulate. fold scene'. fold parameters'.
    rewrite trace_all_direct_only by assumption. reflexivity.
  - apply launched_rays_Start.
  - intros ray fields. apply trace_direct_only. assumption.
Qed.
End SessionFacts.

(** [Simulate_direct_only] on an empty scene with one receiver and a ray
    spacing of 60 degrees. *)
Lemma Simulate_direct_only_witness :
  maxReflections sample_parameters = 0
  /\ exists fields,
       Simulate (H := sample_externals) (fun _ => sample_accelerator)
                (fun _ => 7) sample_AddField [] [] (mkPoint 0 0 0) 0%float
                [mkPoint 10 0 0] 1%float sample_parameters []
       = Some ([Sphere (mkPoint 10 0 0) 1 0],
               with_wavelength (H := sample_externals) sample_parameters,
               fields)
       /\ length (launched_rays (H := sample_externals) (mkPoint 0 0 0)
                    (raySpacing sample_parameters)) = 18%nat.
Proof.
  split; [reflexivity|].
  eexists. split; [|vm_compute; reflexivity].
  exact (proj1 (Simulate_direct_only (H := sample_externals) (list Contribution)
                  (fun _ => sample_accelerator) (fun _ => 7) sample_AddField []
                  [] (mkPoint 0 0 0) 0%float [mkPoint 10 0 0] 1%float
                  sample_parameters [] eq_refl)).
Defined.

(** [GetRxPowers_values] on two buckets and an array of two entries: the
    empty bucket reads as [txPower - 250]. *)
Lemma GetRxPowers_values_witness :
  (length sample_rxFields <= length [0%float; 0%float])%nat
  /\ exists out,
       GetRxPowers (H := sample_externals) sample_parameters 0%float sample_Sum
                   sample_rxFields [0%float; 0%float] 2 = Some out
       /\ length out = 2%nat
       /\ out !! 0%nat = Some (-250)%float.
Proof.
  assert (Hlen : (length sample_rxFields <= length [0%float; 0%float])%nat)
    by (simpl; lia).
  split; [exact Hlen|].
  destruct (GetRxPowers_values (H := sample_externals) sample_parameters 0%float
              sample_Sum sample_rxFields [0%float; 0%float] 2 Hlen)
    as (out & Heq & Hout & Hval).
  exists out. split; [exact Heq|]. split; [exact Hout|].
  exact (Hval 0%nat [] eq_refl).
Defined.

(** [GetRxPowers_ignores_n] on the same buckets, for [n = 2] and [n = 99]. *)
Lemma GetRxPowers_ignores_n_witness :
  (length sample_rxFields <= length [0%float; 0%float; 7%float])%nat
  /\ GetRxPowers (H := sample_externals) sample_parameters 0%float sample_Sum
                 sample_rxFields [0%float; 0%float; 7%float] 2
     = GetRxPowers (H := sample_externals) sample_parameters 0%float sample_Sum
                   sample_rxFields [0%float; 0%float; 7%float] 99.
Proof.
  assert (Hlen : (length sample_rxFields
                  <= length [0%float; 0%float; 7%float])%nat) by (simpl; lia).
  split; [exact Hlen|].
  exact (proj1 (GetRxPowers_ignores_n (H := sample_externals) sample_parameters
                  0%float sample_Sum sample_rxFields
                  [0%float; 0%float; 7%float] 2 99 Hlen)).
Defined.

(** ** Binary STL input *)

(** C8, the claim as stated fails: on a file that announces one triangle and
    ends there, [AddStlModel] returns [true] and adds a triangle to the
    scene. *)
Lemma AddStlModel_accepts_truncated :
  Stl.well_formed truncated_stl = false
  /\ Stl.AddStlModel (fun _ _ => 0) (Some truncated_stl) []
     = (true, [Triangle (mkPoint 0 0 0) (mkPoint 0 0 0) (mkPoint 0 0 0)
                        (mkVector 0 0 0)])
  /\ Stl.AddStlModel (fun _ _ => 0) (Some truncated_stl) [] <> (false, []).
Proof.
  split; [vm_compute; reflexivity|]. split; [vm_compute; reflexivity|].
  intros Heq. apply (f_equal fst) in Heq. vm_compute in Heq. discriminate.
Qed.

Lemma read_triangles_length count : forall i uninit fp,
  length (Stl.read_triangles count i uninit fp) = count.
Proof.
  induction count as [|count IH]; intros i uninit fp; simpl; [reflexivity|].
  destruct (Stl.read_triangle (uninit i) fp) as [t fp']. simpl. now rewrite IH.
Qed.

(** C8, as amended.  [AddStlModel] fails, leaving the scene unchanged, when
    the file cannot be opened; on every file that opens, well-formed or not,
    it returns [true] and appends to the scene as many triangles as the
    count it read announces (none when that count is not positive). *)
Theorem AddStlModel_fails_only_on_open (uninit : nat -> nat -> Z)
    (scene : list Geometry) :
  Stl.AddStlModel uninit None scene = (false, scene)
  /\ forall fp, exists triangles,
       Stl.AddStlModel uninit (Some fp) scene = (true, scene ++ triangles)
       /\ length triangles = Z.to_nat (fst (Stl.read_count fp)).
Proof.
  split; [reflexivity|]. intros fp. unfold Stl.AddStlModel.
  destruct (Stl.read_count fp) as [count fp'] eqn:Hc. simpl.
  eexists. split; [reflexivity|]. apply read_triangles_length.
Qed.


(** * Further properties *)

(** ** The order of the doubles *)

(** The comparisons of [SFcompare] are decided by [Z.compare] on the
    exponents and [Pos.compare] on the mantissas. *)
Ltac compare_cases :=
  repeat match goal with
         | |- context [Z.compare ?a ?b] =>
             destruct (Z.compare_spec a b); simpl; try tauto; try lia
         | |- context [Pos.compare_cont Eq ?a ?b] =>
             change (Pos.compare_cont Eq a b) with (Pos.compare a b);
             destruct (Pos.compare_spec a b); simpl; try tauto; try lia
         end.

Lemma SFcompare_opp x y :
  SFcompare y x = option_map CompOpp (SFcompare x y).
Proof.
  destruct x as [[]|[]| |[] m1 e1], y as [[]|[]| |[] m2 e2]; simpl; try reflexivity;
    f_equal; compare_cases; try reflexivity.
Qed.

Lemma SFle_trans x y z : SFle x y -> SFle y z -> SFle x z.
Proof.
  unfold SFle.
  destruct x as [[]|[]| |[] m1 e1], y as [[]|[]| |[] m2 e2], z as [[]|[]| |[] m3 e3];
    simpl; try tauto; compare_cases.
Qed.

Lemma SFcompare_refl x : SFcompare x x = Some Eq \/ SFcompare x x = None.
Proof.
  destruct x as [[]|[]| |[] m e]; simpl; auto; left; f_equal;
    rewrite Z.compare_refl; change (Pos.compare_cont Eq m m) with (Pos.compare m m);
    rewrite Pos.compare_refl; reflexivity.
Qed.

Lemma SFcompare_None x y :
  SFcompare x y = None -> SFcompare x x = None \/ SFcompare y y = None.
Proof.
  destruct x as [[]|[]| |[] m1 e1], y as [[]|[]| |[] m2 e2]; simpl; auto; discriminate.
Qed.

Lemma float_leb_SFle x y : (x <=? y)%float = true <-> SFle (Prim2SF x) (Prim2SF y).
Proof.
  rewrite leb_spec. unfold SFleb, SFle.
  destruct (SFcompare _ _) as [[]|]; intuition congruence.
Qed.

(** A double compares equal to itself exactly when it is not a NaN. *)
Lemma float_defined x :
  (x =? x)%float = true <-> SFcompare (Prim2SF x) (Prim2SF x) = Some Eq.
Proof.
  rewrite FloatAxioms.eqb_spec. unfold SFeqb.
  destruct (SFcompare _ _) as [[]|]; intuition congruence.
Qed.

Lemma float_leb_trans x y z :
  (x <=? y)%float = true -> (y <=? z)%float = true -> (x <=? z)%float = true.
Proof. rewrite !float_leb_SFle. apply SFle_trans. Qed.

Lemma float_leb_refl x : (x =? x)%float = true -> (x <=? x)%float = true.
Proof.
  rewrite float_defined, float_leb_SFle. unfold SFle. intros ->. exact I.
Qed.

Lemma float_leb_defined x y :
  (x <=? y)%float = true -> (x =? x)%float = true /\ (y =? y)%float = true.
Proof.
  rewrite float_leb_SFle, !float_defined. unfold SFle.
  destruct (SFcompare (Prim2SF x) (Prim2SF y)) as [c|] eqn:Hc; [|tauto].
  intros _.
  destruct (SFcompare_refl (Prim2SF x)) as [Hx|Hx], (SFcompare_refl (Prim2SF y)) as [Hy|Hy];
    auto; exfalso;
    destruct (Prim2SF x) as [[]|[]| |[] m1 e1], (Prim2SF y) as [[]|[]| |[] m2 e2];
    simpl in *; congruence.
Qed.

Lemma float_ltb_defined x y :
  (x <? y)%float = true -> (x =? x)%float = true /\ (y =? y)%float = true.
Proof. intros Hlt. apply float_leb_defined, float_ltb_leb, Hlt. Qed.

(** Two doubles that are not NaNs are comparable. *)
Lemma float_not_ltb_leb x y :
  (x =? x)%float = true -> (y =? y)%float = true ->
  (x <? y)%float = false -> (y <=? x)%float = true.
Proof.
  rewrite !float_defined, ltb_spec, leb_spec. unfold SFltb, SFleb.
  intros Hx Hy. rewrite (SFcompare_opp (Prim2SF x) (Prim2SF y)).
  destruct (SFcompare (Prim2SF x) (Prim2SF y)) as [[]|] eqn:Hc; simpl; try congruence.
  apply SFcompare_None in Hc. destruct Hc; congruence.
Qed.

Lemma float_ltb_leb_trans x y z :
  (x <? y)%float = true -> (y <=? z)%float = true -> (x <? z)%float = true.
Proof.
  rewrite !ltb_spec, leb_spec. unfold SFltb, SFleb.
  destruct (Prim2SF x) as [[]|[]| |[] m1 e1], (Prim2SF y) as [[]|[]| |[] m2 e2],
    (Prim2SF z) as [[]|[]| |[] m3 e3];
    simpl; try congruence; compare_cases; try congruence.
Qed.

Lemma float_eqb_not_ltb x y : (x =? y)%float = true -> (x <? y)%float = false.
Proof.
  rewrite FloatAxioms.eqb_spec, ltb_spec. unfold SFeqb, SFltb.
  destruct (SFcompare _ _) as [[]|]; congruence.
Qed.

Lemma float_eqb_leb_sym x y : (x =? y)%float = true -> (y <=? x)%float = true.
Proof.
  rewrite FloatAxioms.eqb_spec, leb_spec. unfold SFeqb, SFleb.
  rewrite (SFcompare_opp (Prim2SF x) (Prim2SF y)).
  destruct (SFcompare _ _) as [[]|]; simpl; congruence.
Qed.

Lemma std_min_le_l a b : (a =? a)%float = true -> (std_min a b <=? a)%float = true.
Proof.
  intros Ha. unfold std_min. destruct (b <? a)%float eqn:Hlt.
  - apply float_ltb_leb, Hlt.
  - apply float_leb_refl, Ha.
Qed.

Lemma std_min_le_r a b :
  (a =? a)%float = true -> (b =? b)%float = true -> (std_min a b <=? b)%float = true.
Proof.
  intros Ha Hb. unfold std_min. destruct (b <? a)%float eqn:Hlt.
  - apply float_leb_refl, Hb.
  - apply float_not_ltb_leb; assumption.
Qed.

Lemma std_min_defined a b :
  (a =? a)%float = true -> (std_min a b =? std_min a b)%float = true.
Proof.
  intros Ha. unfold std_min. destruct (b <? a)%float eqn:Hlt; [|assumption].
  apply (float_ltb_defined _ _ Hlt).
Qed.

Lemma std_max_ge_l a b : (a =? a)%float = true -> (a <=? std_max a b)%float = true.
Proof.
  intros Ha. unfold std_max. destruct (a <? b)%float eqn:Hlt.
  - apply float_ltb_leb, Hlt.
  - apply float_leb_refl, Ha.
Qed.

Lemma std_max_ge_r a b :
  (a =? a)%float = true -> (b =? b)%float = true -> (b <=? std_max a b)%float = true.
Proof.
  intros Ha Hb. unfold std_max. destruct (a <? b)%float eqn:Hlt.
  - apply float_leb_refl, Hb.
  - apply float_not_ltb_leb; assumption.
Qed.

Lemma std_max_defined a b :
  (a =? a)%float = true -> (std_max a b =? std_max a b)%float = true.
Proof.
  intros Ha. unfold std_max. destruct (a <? b)%float eqn:Hlt; [|assumption].
  apply (float_ltb_defined _ _ Hlt).
Qed.

(** ** The plane [splitSAH] returns *)

Lemma best_ok_leb lst best :
  best_ok lst best -> (minSAH best <=? DBL_MAX)%float = true.
Proof.
  unfold best_ok. destruct (minSplit best) as [[median axis]|].
  - intros (_ & _ & Hlt & _). apply float_ltb_leb, Hlt.
  - intros ->. vm_compute. reflexivity.
Qed.

(** On an event whose position is a NaN the sweep consumes nothing, and
    never ends. *)
Lemma sweep_nan fuel : forall nmin nmax axis e evs NL NR best,
  (ev_position e =? ev_position e)%float = false ->
  sweep fuel nmin nmax axis (e :: evs) NL NR best = None.
Proof.
  induction fuel as [|fuel IH]; intros nmin nmax axis e evs NL NR best He;
    [reflexivity|].
  assert (Hskip : forall t, skip_events (ev_position e) t (e :: evs) = (0, e :: evs))
    by (intros t; cbn [skip_events]; rewrite He; reflexivity).
  cbn [sweep]. rewrite !Hskip. apply IH, He.
Qed.

Lemma sweep_best lst fuel : forall nmin nmax axis evs NL NR best best',
  0 <= axis <= 2 ->
  Forall (fun e => plane_of lst axis (ev_position e)) evs ->
  best_ok lst best ->
  sweep fuel nmin nmax axis evs NL NR best = Some best' -> best_ok lst best'.
Proof.
  induction fuel as [|fuel IH]; intros nmin nmax axis evs NL NR best best' Hax Hf Hb;
    destruct evs as [|e evs]; cbn [sweep]; try discriminate;
    try (intros [= <-]; assumption).
  destruct (ev_position e =? ev_position e)%float eqn:He.
  2:{ intros Hs. pose proof (sweep_nan (S fuel) nmin nmax axis e evs NL NR best He) as Hn.
      cbn [sweep] in Hn. congruence. }
  pose proof (Forall_skip_events _ (ev_position e) Start _
                (Forall_skip_events _ (ev_position e) Planar _
                   (Forall_skip_events _ (ev_position e) End _ Hf))) as Hf3.
  destruct (skip_events (ev_position e) End (e :: evs)) as [PE evs1].
  cbn [snd] in Hf3.
  destruct (skip_events (ev_position e) Planar evs1) as [PP evs2].
  cbn [snd] in Hf3.
  destruct (skip_events (ev_position e) Start evs2) as [PS evs3].
  cbn [snd] in Hf3.
  apply IH; try assumption.
  destruct (_ <? minSAH best)%float eqn:Hlt; [|assumption].
  unfold best_ok. cbn [minSplit minSAH].
  split; [assumption|]. split; [assumption|]. split.
  - eapply float_ltb_leb_trans; [exact Hlt|]. eapply best_ok_leb, Hb.
  - inversion Hf; assumption.
Qed.

Lemma generate_events_plane lst axis :
  Forall (fun e => plane_of lst axis (ev_position e)) (generate_events axis lst).
Proof.
  unfold generate_events. apply Forall_concat, Forall_map, Forall_forall.
  intros g Hg. apply list_elem_of_In in Hg. unfold events_of.
  destruct (getBoundingBox g) as [bmin bmax] eqn:Hbox.
  destruct (_ =? _)%float; repeat constructor; simpl; exists g; rewrite Hbox; auto.
Qed.

Lemma splitSAH_best nmin nmax lst best :
  splitSAH nmin nmax lst = Some best -> best_ok lst best.
Proof.
  assert (Hax : forall axis b b', 0 <= axis <= 2 -> best_ok lst b ->
            sweep_axis nmin nmax lst axis b = Some b' -> best_ok lst b').
  { intros axis b b' Ha Hb. unfold sweep_axis. apply sweep_best; try assumption.
    apply Forall_sort_events, generate_events_plane. }
  unfold splitSAH.
  destruct (sweep_axis nmin nmax lst 0 _) as [b0|] eqn:H0; [|discriminate].
  destruct (sweep_axis nmin nmax lst 1 b0) as [b1|] eqn:H1; [|discriminate].
  intros H2.
  assert (Hb0 : best_ok lst b0) by (eapply (Hax 0); [lia| |exact H0]; reflexivity).
  assert (Hb1 : best_ok lst b1) by (eapply (Hax 1); [lia|exact Hb0|exact H1]).
  eapply (Hax 2); [lia|exact Hb1|exact H2].
Qed.

(** X1.  Whenever [splitSAH] returns, either no candidate plane was accepted
    and [minSAH] is still [DBL_MAX] ([bestAxis] and the returned position are
    then the uninitialised locals), or the best cost is below [DBL_MAX], the
    axis is 0, 1 or 2, and the returned position is not a NaN and is a face,
    on that axis, of the box [getBoundingBox] gives for one of the
    geometries of the list. *)
Theorem splitSAH_plane_is_box_face nmin nmax lst best :
  splitSAH nmin nmax lst = Some best ->
  match minSplit best with
  | None => minSAH best = DBL_MAX
  | Some (median, axis) =>
      0 <= axis <= 2
      /\ (median =? median)%float = true
      /\ (minSAH best <? DBL_MAX)%float = true
      /\ exists g, In g lst
           /\ (median = Point_get (fst (getBoundingBox g)) axis
               \/ median = Point_get (snd (getBoundingBox g)) axis)
  end.
Proof. intros Hs. exact (splitSAH_best _ _ _ _ Hs). Qed.

(** [splitSAH_plane_is_box_face] on [slab_scene]: the plane x = 1.5 is a
    face of the box of one of its triangles. *)
Lemma splitSAH_plane_is_box_face_witness :
  splitSAH (mkPoint 0 0 0) (mkPoint 2 2 1) slab_scene
  = Some (mkSAHBest 12.25 (Some (1.5%float, 0)))
  /\ exists g, In g slab_scene
       /\ (1.5%float = Point_get (fst (getBoundingBox g)) 0
           \/ 1.5%float = Point_get (snd (getBoundingBox g)) 0).
Proof.
  assert (Hs : splitSAH (mkPoint 0 0 0) (mkPoint 2 2 1) slab_scene
               = Some (mkSAHBest 12.25 (Some (1.5%float, 0))))
    by (vm_compute; reflexivity).
  split; [exact Hs|].
  exact (proj2 (proj2 (proj2 (splitSAH_plane_is_box_face _ _ _ _ Hs)))).
Defined.

(** ** The tree [buildKdTree] returns *)

Lemma filter_sublist {A} (f : A -> bool) (l : list A) : sublist (List.filter f l) l.
Proof.
  induction l as [|x l IH]; simpl; [constructor|].
  destruct (f x); constructor; assumption.
Qed.

Lemma sublist_In {A} (l1 l2 : list A) x : sublist l1 l2 -> In x l1 -> In x l2.
Proof.
  induction 1 as [|y l1 l2 Hs IH|y l1 l2 Hs IH]; simpl; [auto| |]; intuition.
Qed.

Lemma buildKdTree_rec_sublist fuel : forall nmin nmax lst depth t,
  buildKdTree_rec fuel nmin nmax lst depth = Some t ->
  forall d box l, In (d, box, l) (leaves t depth) -> sublist l lst.
Proof.
  induction fuel as [|fuel IH]; intros nmin nmax lst depth t Hb d box l Hin;
    simpl in Hb; destruct (leaf_test lst depth) eqn:Hlt.
  - injection Hb as <-. simpl in Hin. destruct Hin as [[= <- <- <-]|[]]. reflexivity.
  - discriminate.
  - injection Hb as <-. simpl in Hin. destruct Hin as [[= <- <- <-]|[]]. reflexivity.
  - destruct (splitSAH nmin nmax lst) as [best|] eqn:Hs; [|discriminate].
    destruct (sah_terminates (minSAH best) lst) eqn:Ht.
    + injection Hb as <-. simpl in Hin. destruct Hin as [[= <- <- <-]|[]]. reflexivity.
    + destruct (minSplit best) as [[median axis]|]; [|discriminate].
      destruct (buildKdTree_rec fuel nmin _ _ _) as [tl|] eqn:Hl; [|discriminate].
      destruct (buildKdTree_rec fuel _ nmax _ _) as [tr|] eqn:Hr; [|discriminate].
      injection Hb as <-. simpl in Hin. apply in_app_or in Hin.
      destruct Hin as [Hin|Hin].
      * etransitivity; [exact (IH _ _ _ _ _ Hl _ _ _ Hin)|apply filter_sublist].
      * etransitivity; [exact (IH _ _ _ _ _ Hr _ _ _ Hin)|apply filter_sublist].
Qed.

Lemma tree_geometries_leaves t : forall depth g,
  In g (tree_geometries t)
  <-> exists d box l, In (d, box, l) (leaves t depth) /\ In g l.
Proof.
  induction t as [bmin bmax lst|bmin bmax axis sv l IHl r IHr]; intros depth g; simpl.
  - split.
    + intros Hg. exists depth, (bmin, bmax), lst. auto.
    + intros (d & box & l & [[= <- <- <-]|[]] & Hg). exact Hg.
  - rewrite in_app_iff, (IHl (depth + 1)), (IHr (depth + 1)). split.
    + intros [(d & box & l0 & Hin & Hg)|(d & box & l0 & Hin & Hg)];
        exists d, box, l0; (split; [apply in_or_app; auto|assumption]).
    + intros (d & box & l0 & Hin & Hg). apply in_app_or in Hin.
      destruct Hin as [Hin|Hin]; [left|right]; eauto.
Qed.

Lemma buildKdTree_rec_geometries fuel nmin nmax lst depth t :
  buildKdTree_rec fuel nmin nmax lst depth = Some t ->
  forall g, In g (tree_geometries t) -> In g lst.
Proof.
  intros Hb g Hg. apply (tree_geometries_leaves t depth) in Hg.
  destruct Hg as (d & box & l & Hin & Hg).
  eapply sublist_In; [|exact Hg].
  eapply buildKdTree_rec_sublist; eassumption.
Qed.

(** X2.  In every tree [buildKdTree] returns, the list of each leaf is a
    sublist of the list the build was given: its geometries, in their
    original order, none invented and none repeated more often than in the
    input. *)
Theorem buildKdTree_leaves_are_sublists nmin nmax lst depth t :
  buildKdTree nmin nmax lst depth = Some t ->
  forall d box l, In (d, box, l) (leaves t depth) -> sublist l lst.
Proof. apply buildKdTree_rec_sublist. Qed.

(** [buildKdTree_leaves_are_sublists] on [slab_scene]. *)
Lemma buildKdTree_leaves_are_sublists_witness :
  exists t,
    buildKdTree (mkPoint 0 0 0) (mkPoint 2 2 1) slab_scene 0 = Some t
    /\ forall d box l, In (d, box, l) (leaves t 0) -> sublist l slab_scene.
Proof.
  eexists. split; [vm_compute; reflexivity|].
  apply (buildKdTree_leaves_are_sublists (mkPoint 0 0 0) (mkPoint 2 2 1)
           slab_scene 0).
  vm_compute. reflexivity.
Defined.

(** The clipping rule loses no geometry it can place: one that does not go
    left goes right. *)
Lemma goes_somewhere axis median g :
  (median =? median)%float = true -> well_placed g ->
  goes_left axis median g = true \/ goes_right axis median g = true.
Proof.
  intros Hm. destruct g as [a b c n|center radius index]; simpl; intros Hg.
  - destruct (Hg axis) as (Ha & _).
    destruct (Point_get a axis <? median)%float eqn:Hlt; [left; reflexivity|].
    right. rewrite (float_not_ltb_leb _ _ Ha Hm Hlt). reflexivity.
  - specialize (Hg axis).
    destruct (_ <? median)%float eqn:Hlt; [left; reflexivity|].
    right. eapply float_leb_trans; [|exact Hg].
    apply float_not_ltb_leb; [|assumption|assumption].
    apply (float_leb_defined _ _ Hg).
Qed.

Lemma buildKdTree_rec_covers fuel : forall nmin nmax lst depth t,
  buildKdTree_rec fuel nmin nmax lst depth = Some t ->
  forall g, In g lst -> well_placed g -> In g (tree_geometries t).
Proof.
  induction fuel as [|fuel IH]; intros nmin nmax lst depth t Hb g Hin Hg;
    simpl in Hb; destruct (leaf_test lst depth) eqn:Hlt.
  - injection Hb as <-. exact Hin.
  - discriminate.
  - injection Hb as <-. exact Hin.
  - destruct (splitSAH nmin nmax lst) as [best|] eqn:Hs; [|discriminate].
    apply splitSAH_best in Hs. unfold best_ok in Hs.
    destruct (sah_terminates (minSAH best) lst) eqn:Ht.
    + injection Hb as <-. exact Hin.
    + destruct (minSplit best) as [[median axis]|]; [|discriminate].
      destruct Hs as (_ & Hm & _).
      destruct (buildKdTree_rec fuel nmin _ _ _) as [tl|] eqn:Hl; [|discriminate].
      destruct (buildKdTree_rec fuel _ nmax _ _) as [tr|] eqn:Hr; [|discriminate].
      injection Hb as <-. cbn [tree_geometries]. apply in_or_app.
      destruct (goes_somewhere axis median g Hm Hg) as [Hgo|Hgo].
      * left. apply (IH _ _ _ _ _ Hl g); [apply filter_In; auto|assumption].
      * right. apply (IH _ _ _ _ _ Hr g); [apply filter_In; auto|assumption].
Qed.

(** X3.  [buildKdTree] loses no geometry it can place: every triangle of
    the list whose vertex coordinates are not NaN, and every sphere of the
    list whose extent [center - radius, center + radius] is ordered, is
    stored in at least one leaf of the tree, whatever the other geometries
    of the list are. *)
Theorem buildKdTree_keeps_well_placed nmin nmax lst depth t :
  buildKdTree nmin nmax lst depth = Some t ->
  forall g, In g lst -> well_placed g -> In g (tree_geometries t).
Proof. apply buildKdTree_rec_covers. Qed.

Lemma well_placed_planar xpos :
  (xpos =? xpos)%float = true -> well_placed (planar_triangle xpos).
Proof.
  intros Hx axis. unfold planar_triangle, Point_get. simpl.
  destruct (axis =? 0); [auto|].
  destruct (axis =? 1); repeat split; vm_compute; reflexivity.
Qed.

(** [buildKdTree_keeps_well_placed] on [slab_scene] and its triangle at
    x = 0. *)
Lemma buildKdTree_keeps_well_placed_witness :
  well_placed (planar_triangle 0)
  /\ exists t,
       buildKdTree (mkPoint 0 0 0) (mkPoint 2 2 1) slab_scene 0 = Some t
       /\ In (planar_triangle 0) (tree_geometries t).
Proof.
  assert (Hwp : well_placed (planar_triangle 0))
    by (apply well_placed_planar; vm_compute; reflexivity).
  split; [exact Hwp|].
  eexists. split; [vm_compute; reflexivity|].
  apply (buildKdTree_keeps_well_placed (mkPoint 0 0 0) (mkPoint 2 2 1)
           slab_scene 0); [vm_compute; reflexivity| |exact Hwp].
  left. reflexivity.
Defined.

Lemma buildKdTree_rec_shape fuel : forall nmin nmax lst depth t,
  buildKdTree_rec fuel nmin nmax lst depth = Some t ->
  axes_ok t /\ boxes_ok nmin nmax t.
Proof.
  induction fuel as [|fuel IH]; intros nmin nmax lst depth t Hb;
    simpl in Hb; destruct (leaf_test lst depth) eqn:Hlt.
  - injection Hb as <-. simpl. auto.
  - discriminate.
  - injection Hb as <-. simpl. auto.
  - destruct (splitSAH nmin nmax lst) as [best|] eqn:Hs; [|discriminate].
    apply splitSAH_best in Hs. unfold best_ok in Hs.
    destruct (sah_terminates (minSAH best) lst) eqn:Ht.
    + injection Hb as <-. simpl. auto.
    + destruct (minSplit best) as [[median axis]|]; [|discriminate].
      destruct Hs as (Hax & Hm & _).
      destruct (buildKdTree_rec fuel nmin _ _ _) as [tl|] eqn:Hl; [|discriminate].
      destruct (buildKdTree_rec fuel _ nmax _ _) as [tr|] eqn:Hr; [|discriminate].
      injection Hb as <-. apply IH in Hl. apply IH in Hr.
      simpl. tauto.
Qed.

(** X4.  In every tree [buildKdTree] returns for the box [nmin], [nmax],
    every internal node splits on axis 0, 1 or 2 at a plane that is not a
    NaN, every node carries the box it was built for, and the boxes of the
    children of a node are its own box cut at the split plane: the left
    child keeps [min] and gets [max[axis] = median], the right child keeps
    [max] and gets [min[axis] = median]. *)
Theorem buildKdTree_boxes_and_axes nmin nmax lst depth t :
  buildKdTree nmin nmax lst depth = Some t ->
  axes_ok t /\ boxes_ok nmin nmax t.
Proof. apply buildKdTree_rec_shape. Qed.

(** [buildKdTree_boxes_and_axes] on [slab_scene]. *)
Lemma buildKdTree_boxes_and_axes_witness :
  exists t,
    buildKdTree (mkPoint 0 0 0) (mkPoint 2 2 1) slab_scene 0 = Some t
    /\ axes_ok t /\ boxes_ok (mkPoint 0 0 0) (mkPoint 2 2 1) t.
Proof.
  eexists. split; [vm_compute; reflexivity|].
  apply (buildKdTree_boxes_and_axes (mkPoint 0 0 0) (mkPoint 2 2 1)
           slab_scene 0).
  vm_compute. reflexivity.
Defined.

Lemma buildKdTree_rec_Internal fuel nmin nmax lst depth bmin bmax axis median l r :
  buildKdTree_rec fuel nmin nmax lst depth
  = Some (Internal bmin bmax axis median l r) ->
  exists fuel',
    buildKdTree_rec fuel' nmin (Point_set nmax axis median)
      (List.filter (goes_left axis median) lst) (depth + 1) = Some l
    /\ buildKdTree_rec fuel' (Point_set nmin axis median) nmax
         (List.filter (goes_right axis median) lst) (depth + 1) = Some r.
Proof.
  destruct fuel as [|fuel]; simpl; destruct (leaf_test lst depth); try discriminate.
  destruct (splitSAH nmin nmax lst) as [best|]; [|discriminate].
  destruct (sah_terminates (minSAH best) lst); [discriminate|].
  destruct (minSplit best) as [[median' axis']|]; [|discriminate].
  destruct (buildKdTree_rec fuel nmin _ _ _) as [tl|] eqn:Hl; [|discriminate].
  destruct (buildKdTree_rec fuel _ nmax _ _) as [tr|] eqn:Hr; [|discriminate].
  intros [= <- <- <- <- <- <-]. exists fuel. auto.
Qed.

(** X5.  A triangle that lies in the split plane of the node [buildKdTree]
    returns (its three vertices compare equal to the plane on the split
    axis) is handed to the right child only: it is stored in no leaf of the
    left subtree and, its coordinates not being NaN, in a leaf of the right
    one.  This is the side on which line 279 counts the in-plane geometries. *)
Theorem buildKdTree_in_plane_goes_right nmin nmax lst depth bmin bmax axis
    median l r a b c n :
  buildKdTree nmin nmax lst depth = Some (Internal bmin bmax axis median l r) ->
  In (Triangle a b c n) lst -> well_placed (Triangle a b c n) ->
  (Point_get a axis =? median)%float = true ->
  (Point_get b axis =? median)%float = true ->
  (Point_get c axis =? median)%float = true ->
  ~ In (Triangle a b c n) (tree_geometries l)
  /\ In (Triangle a b c n) (tree_geometries r).
Proof.
  unfold buildKdTree. intros Hb Hin Hwp Ha Hb' Hc.
  apply buildKdTree_rec_Internal in Hb. destruct Hb as (fuel' & Hl & Hr). split.
  - intros Hg. apply (buildKdTree_rec_geometries _ _ _ _ _ _ Hl) in Hg.
    apply filter_In in Hg. destruct Hg as [_ Hgo]. simpl in Hgo.
    rewrite !float_eqb_not_ltb in Hgo by assumption. discriminate.
  - apply (buildKdTree_rec_covers _ _ _ _ _ _ Hr); [|assumption].
    apply filter_In. split; [assumption|]. simpl.
    rewrite (float_eqb_leb_sym _ _ Ha). reflexivity.
Qed.

(** [buildKdTree_in_plane_goes_right] on [slab_scene], split at x = 1.5, and
    its triangles at x = 1.5. *)
Lemma buildKdTree_in_plane_goes_right_witness :
  exists bmin bmax l r,
    buildKdTree (mkPoint 0 0 0) (mkPoint 2 2 1) slab_scene 0
    = Some (Internal bmin bmax 0 1.5 l r)
    /\ ~ In (planar_triangle 1.5) (tree_geometries l)
    /\ In (planar_triangle 1.5) (tree_geometries r).
Proof.
  eexists _, _, _, _. split; [vm_compute; reflexivity|].
  eapply (buildKdTree_in_plane_goes_right (mkPoint 0 0 0) (mkPoint 2 2 1)
            slab_scene 0).
  - vm_compute. reflexivity.
  - vm_compute. do 6 right. left. reflexivity.
  - apply well_placed_planar. vm_compute. reflexivity.
  - vm_compute. reflexivity.
  - vm_compute. reflexivity.
  - vm_compute. reflexivity.
Defined.

(** ** The root box *)

Lemma grow_box_get box g axis :
  Point_get (fst (grow_box box g)) axis
  = std_min (Point_get (fst box) axis) (Point_get (fst (getBoundingBox g)) axis)
  /\ Point_get (snd (grow_box box g)) axis
     = std_max (Point_get (snd box) axis) (Point_get (snd (getBoundingBox g)) axis).
Proof.
  unfold grow_box. destruct box as [bmin bmax], (getBoundingBox g) as [gmin gmax].
  unfold Point_get. simpl. destruct (axis =? 0), (axis =? 1); auto.
Qed.

Lemma root_box_fold scene : forall box,
  box_defined box ->
  let res := fold_left grow_box scene box in
  box_defined res
  /\ (forall axis,
        (Point_get (fst res) axis <=? Point_get (fst box) axis)%float = true
        /\ (Point_get (snd box) axis <=? Point_get (snd res) axis)%float = true)
  /\ forall g axis, In g scene ->
       ((Point_get (fst (getBoundingBox g)) axis
         =? Point_get (fst (getBoundingBox g)) axis)%float = true ->
        (Point_get (fst res) axis
         <=? Point_get (fst (getBoundingBox g)) axis)%float = true)
       /\ ((Point_get (snd (getBoundingBox g)) axis
            =? Point_get (snd (getBoundingBox g)) axis)%float = true ->
           (Point_get (snd (getBoundingBox g)) axis
            <=? Point_get (snd res) axis)%float = true).
Proof.
  induction scene as [|g0 scene IH]; intros box Hbox; cbn [fold_left].
  - split; [assumption|]. split; [|intros g axis []].
    intros axis. destruct (Hbox axis). split; apply float_leb_refl; assumption.
  - assert (Hbox' : box_defined (grow_box box g0)).
    { intros axis. destruct (grow_box_get box g0 axis) as [-> ->].
      destruct (Hbox axis). split; [apply std_min_defined|apply std_max_defined];
        assumption. }
    destruct (IH _ Hbox') as (Hdef & Hmono & Hall).
    split; [assumption|]. split.
    + intros axis. destruct (Hmono axis) as [Hlo Hhi].
      destruct (grow_box_get box g0 axis) as [Emin Emax].
      rewrite Emin in Hlo. rewrite Emax in Hhi. destruct (Hbox axis).
      split.
      * eapply float_leb_trans; [exact Hlo|]. apply std_min_le_l. assumption.
      * eapply float_leb_trans; [|exact Hhi]. apply std_max_ge_l. assumption.
    + intros g axis [<-|Hin]; [|apply Hall; assumption].
      destruct (Hmono axis) as [Hlo Hhi].
      destruct (grow_box_get box g0 axis) as [Emin Emax].
      rewrite Emin in Hlo. rewrite Emax in Hhi. destruct (Hbox axis).
      split; intros Hg.
      * eapply float_leb_trans; [exact Hlo|]. apply std_min_le_r; assumption.
      * eapply float_leb_trans; [|exact Hhi]. apply std_max_ge_r; assumption.
Qed.

Lemma root_box_fold_eq scene :
  root_box scene
  = fold_left grow_box scene
      (mkPoint DBL_MAX DBL_MAX DBL_MAX,
       mkPoint (- DBL_MAX)%float (- DBL_MAX)%float (- DBL_MAX)%float).
Proof.
  unfold root_box. generalize (mkPoint DBL_MAX DBL_MAX DBL_MAX,
       mkPoint (- DBL_MAX)%float (- DBL_MAX)%float (- DBL_MAX)%float).
  induction scene as [|g scene IH]; intros box; [reflexivity|].
  cbn [fold_left]. rewrite <- IH. destruct box. reflexivity.
Qed.

(** X6.  The root box [init] computes encloses the box [getBoundingBox]
    gives for every geometry of the scene, on every coordinate of that box
    that is not a NaN: its minimum is at most the minimum of the geometry's
    box and its maximum at least the maximum, whatever the other geometries
    are (a NaN coordinate never enters the root box, [std::min] and
    [std::max] keeping their first argument then). *)
Theorem root_box_encloses scene g axis :
  In g scene ->
  let p := Point_get (fst (getBoundingBox g)) axis in
  let q := Point_get (snd (getBoundingBox g)) axis in
  ((p =? p)%float = true ->
   (Point_get (fst (root_box scene)) axis <=? p)%float = true)
  /\ ((q =? q)%float = true ->
      (q <=? Point_get (snd (root_box scene)) axis)%float = true).
Proof.
  intros Hin p q. rewrite root_box_fold_eq.
  refine (proj2 (proj2 (root_box_fold scene _ _)) g axis Hin).
  intros ax. unfold Point_get. cbn [fst snd px py pz].
  destruct (ax =? 0), (ax =? 1); split; vm_compute; reflexivity.
Qed.

(** [root_box_encloses] on [slab_scene] and one of its triangles at
    x = 0.5. *)
Lemma root_box_encloses_witness :
  In (planar_triangle 0.5) slab_scene
  /\ (Point_get (fst (root_box slab_scene)) 0 <=? 0.5)%float = true
  /\ (0.5 <=? Point_get (snd (root_box slab_scene)) 0)%float = true.
Proof.
  assert (Hin : In (planar_triangle 0.5) slab_scene)
    by (right; left; reflexivity).
  split; [exact Hin|].
  destruct (root_box_encloses slab_scene (planar_triangle 0.5) 0 Hin) as [Hlo Hhi].
  split; [apply Hlo|apply Hhi]; vm_compute; reflexivity.
Defined.

(** ** What the traversal reports *)

Lemma rx_insert_In k v m e :
  In e (rx_insert k v m) -> e = (k, v) \/ In e m.
Proof.
  induction m as [|[k' v'] m IH]; simpl.
  - intros [<-|[]]. auto.
  - destruct (k <? k'); [simpl; intuition|].
    destruct (k =? k'); simpl; intuition.
Qed.

Lemma rx_insert_keys k v m :
  Forall (fun k' => k' = k \/ In k' (map fst m)) (map fst (rx_insert k v m)).
Proof.
  apply Forall_forall. intros k' Hin. apply list_elem_of_In, in_map_iff in Hin.
  destruct Hin as (e & <- & Hin). apply rx_insert_In in Hin.
  destruct Hin as [->|Hin]; [auto|]. right. apply in_map. assumption.
Qed.

(** [rxIntersections[index]] keeps the keys of the map strictly
    increasing. *)
Lemma rx_insert_increasing k v m :
  increasing (map fst m) -> increasing (map fst (rx_insert k v m)).
Proof.
  induction m as [|[k' v'] m IH]; simpl; [intros _; split; [constructor|exact I]|].
  intros [Hall Hinc].
  destruct (Z.ltb_spec k k') as [Hlt|Hge].
  - simpl. split; [|split; assumption].
    constructor; [assumption|]. eapply Forall_impl; [exact Hall|].
    simpl. intros; lia.
  - destruct (Z.eqb_spec k k') as [->|Hne]; simpl; [split; assumption|].
    split; [|apply IH, Hinc].
    eapply Forall_impl; [apply rx_insert_keys|].
    simpl. intros k0 [->|Hin]; [lia|].
    rewrite Forall_forall in Hall. apply Hall, list_elem_of_In, Hin.
Qed.

Lemma increasing_filter {A} (key : A -> Z) (f : A -> bool) (l : list A) :
  increasing (map key l) -> increasing (map key (List.filter f l)).
Proof.
  induction l as [|x l IH]; simpl; [auto|]. intros [Hall Hinc].
  destruct (f x); simpl; [|auto]. split; [|auto].
  apply Forall_forall. intros k Hin. apply list_elem_of_In, in_map_iff in Hin.
  destruct Hin as (y & <- & Hin). apply filter_In in Hin. destruct Hin as [Hin _].
  rewrite Forall_forall in Hall. apply Hall, list_elem_of_In, in_map, Hin.
Qed.

Lemma increasing_NoDup l : increasing l -> NoDup l.
Proof.
  induction l as [|x l IH]; simpl; [constructor|]. intros [Hall Hinc].
  constructor; [|auto]. intros Hin. rewrite Forall_forall in Hall.
  specialize (Hall _ Hin). lia.
Qed.

Lemma filter_all {A} (l : list A) : List.filter (fun _ => true) l = l.
Proof. induction l as [|x l IH]; simpl; congruence. Qed.

Lemma subtree_geometries root n :
  subtree root n -> forall g, In g (tree_geometries n) -> In g (tree_geometries root).
Proof.
  induction 1 as [|bmin bmax axis sv l r Hs IH|bmin bmax axis sv l r Hs IH];
    intros g Hg; [assumption| |]; apply IH; simpl; apply in_or_app; auto.
Qed.

Lemma stack_get_Ret st i e :
  stack_get st i = Ret e -> 0 <= i < 50 /\ st !! Z.to_nat i = Some e.
Proof.
  unfold stack_get, STACK_SIZE.
  destruct (Z.leb_spec 0 i); simpl; [|discriminate].
  destruct (Z.ltb_spec i 50); simpl; [|discriminate].
  destruct (st !! Z.to_nat i); [|discriminate]. intros [= ->]. split; [lia|reflexivity].
Qed.

Lemma chain_in_nonneg root st top : chain_in root st top -> 0 <= top.
Proof. destruct 1; lia. Qed.

Lemma chain_in_frame root st top :
  chain_in root st top ->
  forall i e', top < i -> chain_in root (<[Z.to_nat i := e']> st) top.
Proof.
  induction 1 as [top e Ht He Hn|top e far He Hn Hp Hf Hc IH]; intros i e' Hi.
  - apply chain_in_base with e; try assumption.
    rewrite list_lookup_insert_ne by lia. assumption.
  - apply chain_in_push with e far; try assumption.
    + rewrite list_lookup_insert_ne by lia. assumption.
    + apply IH. lia.
Qed.

Section ProvenanceFacts.
Variable GI : Geometry -> Ray.t -> IntersectResult.
Variable ray : Ray.t.
Variable rxPoints0 : list RxIntersection.

Lemma scan_geometry_from lst s acc g acc' :
  In g lst ->
  scan_geometry GI ray s acc g = Ret acc' ->
  scan_ok GI ray lst acc -> scan_ok GI ray lst acc'.
Proof.
  intros Hin. destruct acc as [[minDistance minResult] rx]. unfold scan_geometry.
  destruct (GI g ray) as [|d p n g'] eqn:Hg; [intros [= <-]; auto|].
  destruct (stack_get (stack s) (enPt s)) as [en| |]; simpl; try discriminate.
  destruct (_ <=? d)%float; [|intros [= <-]; auto].
  destruct (stack_get (stack s) (exPt s)) as [ex| |]; simpl; try discriminate.
  destruct (d <=? _)%float; [|intros [= <-]; auto].
  destruct g' as [pa pb pc pn|c rad idx];
    destruct (d <? minDistance)%float; intros [= <-]; auto;
    intros (Hinc & Hhit & Hrx); unfold scan_ok; simpl in *.
  - split; [assumption|]. split; [|assumption]. exists g. auto.
  - split; [apply rx_insert_increasing; assumption|]. split; [assumption|].
    apply Forall_forall. intros e He. apply list_elem_of_In, rx_insert_In in He.
    destruct He as [->|He].
    + exists g, p, n, c. simpl. auto.
    + rewrite Forall_forall in Hrx. apply Hrx, list_elem_of_In, He.
Qed.

Lemma scan_leaf_from lst s l : forall acc acc',
  (forall g, In g l -> In g lst) ->
  scan_leaf GI ray s l acc = Ret acc' ->
  scan_ok GI ray lst acc -> scan_ok GI ray lst acc'.
Proof.
  induction l as [|g l IH]; intros acc acc' Hsub; simpl; [intros [= <-]; auto|].
  destruct (scan_geometry GI ray s acc g) as [acc1| |] eqn:Hg; simpl; try discriminate.
  intros Hl Ha. eapply IH; [intros; apply Hsub; right; assumption|eassumption|].
  eapply scan_geometry_from; [apply Hsub; left; reflexivity|eassumption|assumption].
Qed.

Variable root : KdNode.

(** One step keeps the current node and the pending far children inside the
    tree, the keys of the collected receivers increasing, and every
    collected entry and reported hit an answer of [Geometry::intersect] for
    a geometry of the tree. *)
Lemma step_from s r :
  nodes_inv root s -> collected_ok GI ray root (rxIntersections s) ->
  step GI ray rxPoints0 s = Ret r ->
  match r with
  | inl s' => nodes_inv root s' /\ collected_ok GI ray root (rxIntersections s')
  | inr ans =>
      collected_ok GI ray root (collected ans)
      /\ hit_from GI ray (tree_geometries root) (result ans)
  end.
Proof.
  intros [Hsub Hc] Hrx. unfold step.
  destruct s as [curr st en ex rx]. simpl in *.
  destruct curr as [bmin bmax lst|bmin bmax axis sv l r0].
  - destruct (scan_leaf GI ray _ lst (DBL_MAX, NoHit, rx))
      as [[[minDistance minResult] rx']| |] eqn:Hs; simpl; try discriminate.
    assert (Hok : scan_ok GI ray (tree_geometries root) (minDistance, minResult, rx')).
    { eapply scan_leaf_from; [|exact Hs|].
      - intros g Hg. eapply subtree_geometries; [exact Hsub|exact Hg].
      - destruct Hrx. repeat split; simpl; auto. }
    destruct Hok as (Hinc & Hhit & Hfrom). simpl in *.
    unfold leave_leaf. cbn [stack exPt enPt].
    destruct (hit minResult).
    + intros [= <-]. simpl. repeat split; assumption.
    + destruct (stack_get st ex) as [e| |] eqn:He; simpl; try discriminate.
      apply stack_get_Ret in He. destruct He as [_ He].
      destruct (se_node e) as [node|] eqn:Hnode; intros [= <-]; simpl.
      * split; [|split; assumption].
        inversion Hc as [top e0 Ht He0 Hn0|top e1 far He1 Hn1 Hp1 Hf1 Hc1]; subst.
        -- congruence.
        -- assert (e1 = e) by congruence. subst e1.
           assert (far = node) by congruence. subst far.
           split; assumption.
      * repeat split; assumption.
  - pose proof (chain_in_nonneg _ _ _ Hc) as Hex0.
    assert (Hl : subtree root l) by (eapply subtree_left; exact Hsub).
    assert (Hr : subtree root r0) by (eapply subtree_right; exact Hsub).
    unfold descend_step. cbn [stack exPt enPt rxIntersections].
    destruct (stack_get st en) as [een| |]; simpl; try discriminate.
    destruct (stack_get st ex) as [eex| |]; simpl;
      try (destruct (_ <=? sv)%float; simpl; discriminate).
    assert (Hpush : forall near far,
              subtree root near -> subtree root far ->
              (do s' <- push_far ray (mkTrav (Internal bmin bmax axis sv l r0) st en ex rx)
                          axis sv near far ; Ret (inl s' : Trav + Answer)) = Ret r ->
              match r with
              | inl s' =>
                  nodes_inv root s' /\ collected_ok GI ray root (rxIntersections s')
              | inr ans =>
                  collected_ok GI ray root (collected ans)
                  /\ hit_from GI ray (tree_geometries root) (result ans)
              end).
    { intros near far Hnear Hfar. unfold push_far, stack_update.
      cbn [stack exPt enPt rxIntersections].
      set (ex2 := if ex + 1 =? en then ex + 1 + 1 else ex + 1).
      assert (Hex2 : ex < ex2) by (unfold ex2; destruct (Z.eqb_spec (ex + 1) en); lia).
      destruct (stack_get st ex2) as [e2| |] eqn:He2; simpl; try discriminate.
      apply stack_get_Ret in He2. destruct He2 as [Hb2 He2].
      intros [= <-]. split; [|assumption]. split; [assumption|]. simpl.
      eapply chain_in_push with (far := far).
      - apply list_lookup_insert_eq. apply lookup_lt_Some in He2. assumption.
      - reflexivity.
      - simpl. lia.
      - assumption.
      - simpl. apply chain_in_frame; [assumption|lia]. }
    assert (Hgoto : forall n, subtree root n ->
              nodes_inv root (mkTrav n st en ex rx) /\ collected_ok GI ray root rx).
    { intros n Hn. repeat split; try assumption; apply Hrx. }
    destruct (_ <=? sv)%float.
    + destruct (_ <=? sv)%float; [intros [= <-]; apply Hgoto; assumption|].
      destruct (_ =? sv)%float; [intros [= <-]; apply Hgoto; assumption|].
      apply Hpush; assumption.
    + destruct (sv <? _)%float; [intros [= <-]; apply Hgoto; assumption|].
      apply Hpush; assumption.
Qed.

Lemma run_from fuel : forall s ans,
  nodes_inv root s -> collected_ok GI ray root (rxIntersections s) ->
  run GI ray fuel rxPoints0 s = Ret ans ->
  collected_ok GI ray root (collected ans)
  /\ hit_from GI ray (tree_geometries root) (result ans).
Proof.
  induction fuel as [|fuel IH]; intros s ans Hn Hc; simpl; [discriminate|].
  destruct (step GI ray rxPoints0 s) as [r| |] eqn:Hst; simpl; try discriminate.
  pose proof (step_from s r Hn Hc Hst) as Hr.
  destruct r as [s'|a].
  - destruct Hr. apply IH; assumption.
  - intros [= <-]. assumption.
Qed.
End ProvenanceFacts.

Lemma initial_nodes ray garbage root a b :
  nodes_inv root (initial ray garbage root a b).
Proof.
  split; [constructor|]. unfold initial. cbn [stack exPt].
  eapply chain_in_base; [lia|reflexivity|reflexivity].
Qed.

Lemma intersect_from GI Grid ray fuel garbage root rxPoints0 ans :
  intersect GI Grid ray fuel garbage root rxPoints0 = Ret ans ->
  collected_ok GI ray root (collected ans)
  /\ hit_from GI ray (tree_geometries root) (result ans).
Proof.
  unfold intersect.
  destruct (Grid (node_min root) (node_max root) ray) as [[a b]|].
  - apply run_from; [apply initial_nodes|]. split; [exact I|constructor].
  - intros [= <-]. simpl. repeat split; constructor.
Qed.

(** The receivers [intersect] pushes are collected ones, in the order of the
    map. *)
Lemma emitted_eq GI Grid ray fuel garbage root rxPoints0 ans :
  intersect GI Grid ray fuel garbage root rxPoints0 = Ret ans ->
  exists f, drop (length rxPoints0) (rxPoints ans)
            = map RxIntersection_of (List.filter f (collected ans)).
Proof.
  unfold intersect.
  destruct (Grid (node_min root) (node_max root) ray) as [[a b]|].
  - intros Hr. apply run_answer in Hr. unfold emission_rule in Hr.
    destruct (result ans) as [|d p n g].
    + exists (fun _ => true). rewrite Hr, drop_app_length, filter_all. reflexivity.
    + destruct Hr as (_ & -> & _). rewrite drop_app_length. eauto.
  - intros [= <-]. exists (fun _ => true). simpl. rewrite drop_all. reflexivity.
Qed.

(** X7.  Whatever tree it traverses, [intersect] pushes each receiver at
    most once per call: the indices of the receivers it appends to
    [rxPoints] are strictly increasing, so a sphere stored in several leaves,
    or hit in several of them, is still reported once. *)
Theorem intersect_reports_each_receiver_once GI Grid ray fuel garbage root
    rxPoints0 ans :
  intersect GI Grid ray fuel garbage root rxPoints0 = Ret ans ->
  increasing (map rx_index (drop (length rxPoints0) (rxPoints ans)))
  /\ NoDup (map rx_index (drop (length rxPoints0) (rxPoints ans))).
Proof.
  intros Hr.
  assert (Hinc : increasing (map rx_index (drop (length rxPoints0) (rxPoints ans)))).
  { destruct (emitted_eq _ _ _ _ _ _ _ _ Hr) as (f & ->).
    apply intersect_from in Hr. destruct Hr as [[Hinc _] _].
    rewrite map_map. cbn [RxIntersection_of rx_index].
    apply increasing_filter. exact Hinc. }
  split; [exact Hinc|apply increasing_NoDup, Hinc].
Qed.

(** [intersect_reports_each_receiver_once] on [receiver_tree], where both
    receivers are collected and receiver 0 is reported. *)
Lemma intersect_reports_each_receiver_once_witness :
  exists ans,
    intersect axial_Geometry_intersect axial_Grid_intersect axial_ray 3
              zero_garbage receiver_tree [] = Ret ans
    /\ map rx_index (rxPoints ans) = [0]
    /\ NoDup (map rx_index (drop 0 (rxPoints ans))).
Proof.
  eexists. split; [vm_compute; reflexivity|].
  split; [vm_compute; reflexivity|].
  apply (intersect_reports_each_receiver_once
           axial_Geometry_intersect axial_Grid_intersect axial_ray 3
           zero_garbage receiver_tree []).
  vm_compute. reflexivity.
Defined.

(** X8.  Whatever tree it traverses, [intersect] reports only what
    [Geometry::intersect] answered for a geometry stored in a leaf of that
    tree: the returned hit is such an answer, and every receiver appended to
    [rxPoints] records the hit of a sphere with that index and radius at
    that distance, its offset being the length from the hit position to the
    centre of the sphere. *)
Theorem intersect_reports_tree_geometry GI Grid ray fuel garbage root
    rxPoints0 ans :
  intersect GI Grid ray fuel garbage root rxPoints0 = Ret ans ->
  (forall d p n g, result ans = Hit d p n g ->
     exists g0, In g0 (tree_geometries root) /\ GI g0 ray = Hit d p n g)
  /\ Forall (fun rx => exists g0 p n c,
               In g0 (tree_geometries root)
               /\ GI g0 ray = Hit (rx_distance rx) p n
                                  (Sphere c (rx_radius rx) (rx_index rx))
               /\ rx_offset rx = Vector_length (Vector_of_points p c))
       (drop (length rxPoints0) (rxPoints ans)).
Proof.
  intros Hr. destruct (emitted_eq _ _ _ _ _ _ _ _ Hr) as (f & ->).
  apply intersect_from in Hr. destruct Hr as [[_ Hrx] Hhit]. split.
  - intros d p n g Hres. rewrite Hres in Hhit. exact Hhit.
  - apply Forall_forall. intros rx Hin.
    apply list_elem_of_In, in_map_iff in Hin. destruct Hin as (e & <- & Hin).
    apply filter_In in Hin. destruct Hin as [Hin _].
    rewrite Forall_forall in Hrx. apply (Hrx e), list_elem_of_In, Hin.
Qed.

(** [intersect_reports_tree_geometry] on [receiver_tree]: the triangle hit
    at distance 1 is the answer for a triangle of the tree. *)
Lemma intersect_reports_tree_geometry_witness :
  exists ans,
    intersect axial_Geometry_intersect axial_Grid_intersect axial_ray 3
              zero_garbage receiver_tree [] = Ret ans
    /\ hit (result ans) = true
    /\ forall d p n g, result ans = Hit d p n g ->
         exists g0, In g0 (tree_geometries receiver_tree)
                    /\ axial_Geometry_intersect g0 axial_ray = Hit d p n g.
Proof.
  eexists. split; [vm_compute; reflexivity|].
  split; [vm_compute; reflexivity|].
  refine (proj1 (intersect_reports_tree_geometry
                   axial_Geometry_intersect axial_Grid_intersect axial_ray 3
                   zero_garbage receiver_tree [] _ _)).
  vm_compute. reflexivity.
Defined.

(** *** The nearest triangle of a leaf *)

Section NearestFacts.
Variable GI : Geometry -> Ray.t -> IntersectResult.
Variable ray : Ray.t.
Variable rxPoints0 : list RxIntersection.

Lemma scan_geometry_nearest s seen acc g acc' :
  scan_geometry GI ray s acc g = Ret acc' ->
  nearest_so_far GI ray s seen acc -> nearest_so_far GI ray s (g :: seen) acc'.
Proof.
  destruct acc as [[minDistance minResult] rx]. unfold scan_geometry, nearest_so_far.
  cbn [fst snd]. intros Hs [Hdef Hall].
  assert (Hkeep : forall md, (md =? md)%float = true ->
            (forall d0, (minDistance <=? d0)%float = true -> (md <=? d0)%float = true) ->
            (forall d0 p0 n0 g1, GI g ray = Hit d0 p0 n0 g1 -> is_sphere g1 = false ->
               in_band s d0 -> (md <=? d0)%float = true) ->
            (md =? md)%float = true
            /\ forall g0 d0 p0 n0 g1,
                 In g0 (g :: seen) -> GI g0 ray = Hit d0 p0 n0 g1 ->
                 is_sphere g1 = false -> in_band s d0 -> (md <=? d0)%float = true).
  { intros md Hmd Hle Hg. split; [assumption|].
    intros g0 d0 p0 n0 g1 [<-|Hin] Hhit Hsph Hband; [eauto|].
    apply Hle. eapply Hall; eassumption. }
  destruct (GI g ray) as [|d p n g'] eqn:Hg.
  { injection Hs as <-. cbn [fst]. apply Hkeep; auto. discriminate. }
  destruct (stack_get (stack s) (enPt s)) as [en| |] eqn:Hen; simpl in Hs; try discriminate.
  destruct (_ <=? d)%float eqn:Hlo.
  2:{ injection Hs as <-. cbn [fst]. apply Hkeep; auto.
      intros d0 p0 n0 g1 [= <- <- <- <-] _ (en' & ex' & Hen' & Hlo' & _).
      congruence. }
  destruct (stack_get (stack s) (exPt s)) as [ex| |] eqn:Hex; simpl in Hs; try discriminate.
  destruct (d <=? _)%float eqn:Hhi.
  2:{ injection Hs as <-. cbn [fst]. apply Hkeep; auto.
      intros d0 p0 n0 g1 [= <- <- <- <-] _ (en' & ex' & _ & _ & Hex' & Hhi').
      congruence. }
  pose proof (float_leb_defined _ _ Hhi) as [Hd _].
  destruct g' as [pa pb pc pn|c rad idx].
  - destruct (d <? minDistance)%float eqn:Hlt; injection Hs as <-; cbn [fst].
    + apply Hkeep; [assumption| |].
      * intros d0 Hle. eapply float_leb_trans; [|exact Hle].
        apply float_ltb_leb, Hlt.
      * intros d0 p0 n0 g1 [= <- <- <- <-] _ _. apply float_leb_refl, Hd.
    + apply Hkeep; auto.
      intros d0 p0 n0 g1 [= <- <- <- <-] _ _.
      apply float_not_ltb_leb; assumption.
  - assert (Hsame : acc' = (minDistance, minResult, rx)
                    \/ exists rx', acc' = (minDistance, minResult, rx')).
    { destruct (d <? minDistance)%float; injection Hs as <-; eauto. }
    assert (Hfst : fst (fst acc') = minDistance)
      by (destruct Hsame as [->|(rx' & ->)]; reflexivity).
    rewrite Hfst. apply Hkeep; auto.
    intros d0 p0 n0 g1 [= <- <- <- <-]. discriminate.
Qed.

Lemma scan_leaf_nearest s lst : forall seen acc acc',
  scan_leaf GI ray s lst acc = Ret acc' ->
  nearest_so_far GI ray s seen acc ->
  nearest_so_far GI ray s (rev lst ++ seen) acc'.
Proof.
  induction lst as [|g lst IH]; intros seen acc acc'; simpl; [intros [= <-]; auto|].
  destruct (scan_geometry GI ray s acc g) as [acc1| |] eqn:Hg; simpl; try discriminate.
  intros Hl Ha. rewrite <- app_assoc. simpl. eapply IH; [eassumption|].
  eapply scan_geometry_nearest; eassumption.
Qed.

(** X9.  When the scan of a leaf ends the traversal with an occluder, that
    occluder is the nearest triangle hit of the leaf: its distance is at
    most the distance of every triangle hit of a geometry of the leaf that
    passes the guard band [stack[enPt].t - 0.001f, stack[exPt].t + 0.001f]
    of the leaf.  (Such a distance is never a NaN, a comparison with a NaN
    being false.) *)
Theorem leaf_scan_returns_nearest s bmin bmax lst ans :
  currNode s = Leaf bmin bmax lst ->
  step GI ray rxPoints0 s = Ret (inr ans) ->
  forall d p n g, result ans = Hit d p n g ->
  forall g0 d0 p0 n0 g1,
    In g0 lst -> GI g0 ray = Hit d0 p0 n0 g1 -> is_sphere g1 = false ->
    in_band s d0 -> (d <=? d0)%float = true.
Proof.
  intros Hcurr. unfold step. rewrite Hcurr.
  destruct (scan_leaf GI ray s lst (DBL_MAX, NoHit, rxIntersections s))
    as [[[minDistance minResult] rx]| |] eqn:Hs; simpl; try discriminate.
  pose proof (scan_leaf_ok _ _ _ _ _ _ Hs (or_introl eq_refl)) as Hinv.
  pose proof (scan_leaf_nearest s lst [] _ _ Hs) as Hnear.
  unfold nearest_so_far in Hnear. cbn [fst] in Hnear.
  destruct Hnear as [_ Hnear]; [split; [vm_compute; reflexivity|intros ? ? ? ? ? []]|].
  unfold leave_leaf. destruct minResult as [|dm pm nm gm]; simpl.
  - destruct (stack_get (stack s) (exPt s)) as [ex| |]; simpl; try discriminate.
    destruct (se_node ex); [discriminate|]. intros [= <-]. simpl. discriminate.
  - intros [= <-]. simpl. intros d p n g [= <- <- <- <-].
    destruct Hinv as [Hn|(p' & n' & g' & Heq & Hg)]; [discriminate|].
    injection Heq as -> <- <- <-.
    intros g0 d0 p0 n0 g1 Hin. apply Hnear. rewrite app_nil_r.
    apply in_rev in Hin. exact Hin.
Qed.
End NearestFacts.

(** [leaf_scan_returns_nearest] on [scan_state]: the triangle at distance
    3 is scanned first, the one at distance 2 is returned. *)
Lemma leaf_scan_returns_nearest_witness :
  exists ans p n g,
    step axial_Geometry_intersect axial_ray [] scan_state = Ret (inr ans)
    /\ result ans = Hit 2 p n g
    /\ in_band scan_state 3
    /\ (2 <=? 3)%float = true.
Proof.
  assert (Hband : in_band scan_state 3).
  { eexists. eexists. split; [vm_compute; reflexivity|].
    split; [vm_compute; reflexivity|]. split; vm_compute; reflexivity. }
  eexists _, _, _, _. split; [vm_compute; reflexivity|].
  split; [vm_compute; reflexivity|]. split; [exact Hband|].
  eapply (leaf_scan_returns_nearest axial_Geometry_intersect axial_ray []
            scan_state) with (g0 := planar_triangle 2).
  - reflexivity.
  - vm_compute. reflexivity.
  - vm_compute. reflexivity.
  - left. reflexivity.
  - vm_compute. reflexivity.
  - reflexivity.
  - exact Hband.
Defined.

(** *** The uninitialised stack *)

Lemma agree_intro n st st' en ex rx :
  axes_ok n -> length st = length st' -> 0 <= en ->
  entry_agrees st st' en -> live st st' ex ->
  agree (mkTrav n st en ex rx) (mkTrav n st' en ex rx).
Proof. intros. unfold agree. simpl. tauto. Qed.

(** A push on axis 0, 1 or 2 overwrites the three coordinates of [pb]. *)
Lemma Point_set_all p p' axis u v w :
  0 <= axis <= 2 ->
  Point_set (Point_set (Point_set p axis u) ((axis + 1) mod 3) v)
            ((axis + 2) mod 3) w
  = Point_set (Point_set (Point_set p' axis u) ((axis + 1) mod 3) v)
              ((axis + 2) mod 3) w.
Proof.
  intros Ha. assert (axis = 0 \/ axis = 1 \/ axis = 2) as [-> | [-> | ->]] by lia;
    reflexivity.
Qed.

Lemma live_pos st st' top : live st st' top -> 1 <= top.
Proof. destruct 1; lia. Qed.

Lemma live_frame st st' top :
  live st st' top ->
  forall i e e', top < i ->
    live (<[Z.to_nat i := e]> st) (<[Z.to_nat i := e']> st') top.
Proof.
  induction 1 as [top e0 e0' Ht He He' Heqt Heqp Hn Hn'|top e0 far He He' Hn Hax Hp Hl IH];
    intros i e e' Hi.
  - eapply live_base; try eassumption; rewrite list_lookup_insert_ne by lia;
      assumption.
  - eapply live_push; try eassumption; try (rewrite list_lookup_insert_ne by lia;
      assumption).
    apply IH. lia.
Qed.

Lemma live_top st st' top :
  live st st' top ->
  exists e e', st !! Z.to_nat top = Some e /\ st' !! Z.to_nat top = Some e'
               /\ se_t e = se_t e' /\ se_pb e = se_pb e'
               /\ se_node e = se_node e'.
Proof.
  destruct 1 as [top e e' Ht He He' Heqt Heqp Hn Hn'|top e far He He' Hn Hax Hp Hl].
  - exists e, e'. repeat split; try assumption. congruence.
  - exists e, e. repeat split; assumption.
Qed.

(** Reads of the same slot of two stacks of the same length fail together. *)
Lemma stack_get_pair st st' i :
  length st = length st' ->
  (exists e e', stack_get st i = Ret e /\ stack_get st' i = Ret e'
                /\ st !! Z.to_nat i = Some e /\ st' !! Z.to_nat i = Some e'
                /\ 0 <= i)
  \/ (stack_get st i = OutOfBounds i /\ stack_get st' i = OutOfBounds i).
Proof.
  intros Hlen. unfold stack_get.
  destruct (Z.leb_spec 0 i); simpl; [|auto].
  destruct (i <? STACK_SIZE); simpl; [|auto].
  destruct (st !! Z.to_nat i) as [e|] eqn:He.
  - destruct (st' !! Z.to_nat i) as [e'|] eqn:He'; [left; eauto 10|].
    apply lookup_lt_Some in He. apply lookup_ge_None in He'. lia.
  - destruct (st' !! Z.to_nat i) as [e'|] eqn:He'; [|auto].
    apply lookup_lt_Some in He'. apply lookup_ge_None in He. lia.
Qed.

Section GarbageFacts.
Variable GI : Geometry -> Ray.t -> IntersectResult.
Variable ray : Ray.t.
Variable rxPoints0 : list RxIntersection.

Lemma scan_geometry_agree s s' acc g :
  agree s s' ->
  scan_geometry GI ray s acc g = scan_geometry GI ray s' acc g.
Proof.
  intros (_ & Hen & Hex & _ & _ & Hlen & _ & Hentry & Hlive).
  destruct acc as [[minDistance minResult] rx]. unfold scan_geometry.
  destruct (GI g ray) as [|d p n g']; [reflexivity|].
  rewrite <- Hen, <- Hex.
  destruct (stack_get_pair _ _ (enPt s) Hlen)
    as [(en & en' & -> & -> & Hl & Hl' & _)|[-> ->]]; [|reflexivity].
  cbn [bind]. destruct (Hentry _ _ Hl Hl') as [<- _].
  destruct (_ <=? d)%float; [|reflexivity].
  destruct (stack_get_pair _ _ (exPt s) Hlen)
    as [(ex & ex' & -> & -> & Hx & Hx' & _)|[-> ->]]; [|reflexivity].
  cbn [bind]. destruct (live_top _ _ _ Hlive) as (e & e' & He & He' & Ht & _).
  assert (ex = e) by congruence. assert (ex' = e') by congruence. subst.
  rewrite Ht. reflexivity.
Qed.

Lemma scan_leaf_agree s s' lst : forall acc,
  agree s s' -> scan_leaf GI ray s lst acc = scan_leaf GI ray s' lst acc.
Proof.
  induction lst as [|g lst IH]; intros acc Ha; simpl; [reflexivity|].
  rewrite (scan_geometry_agree s s' acc g Ha).
  destruct (scan_geometry GI ray s' acc g); simpl; auto.
Qed.

(** A step from two states that agree ends in the same answer or the same
    failure, or in two states that agree. *)
Lemma step_agree s s' :
  agree s s' -> agree_out (step GI ray rxPoints0 s) (step GI ray rxPoints0 s').
Proof.
  intros Ha. pose proof Ha as (Hcurr & Hen & Hex & Hrx & Hax & Hlen & Hen0 & Hentry & Hlive).
  unfold step. rewrite <- Hcurr.
  destruct (currNode s) as [bmin bmax lst|bmin bmax axis sv l r] eqn:Hc.
  - rewrite <- Hrx, <- (scan_leaf_agree s s' lst _ Ha).
    destruct (scan_leaf GI ray s lst (DBL_MAX, NoHit, rxIntersections s))
      as [[[minDistance minResult] rx]| |]; simpl; auto.
    unfold leave_leaf. destruct (hit minResult); [simpl; reflexivity|].
    rewrite <- Hex.
    destruct (stack_get_pair _ _ (exPt s) Hlen)
      as [(ex & ex' & -> & -> & Hx & Hx' & _)|[-> ->]]; [|simpl; reflexivity].
    cbn [bind].
    inversion Hlive as [top e e' Ht He He' Heqt Heqp Hn Hn'|top e far He He' Hn Hfar Hp Hl];
      subst top.
    + assert (ex = e) by congruence. assert (ex' = e') by congruence. subst.
      rewrite Hn, Hn'. simpl. reflexivity.
    + assert (ex = e) by congruence. assert (ex' = e) by congruence. subst.
      rewrite Hn. simpl. apply agree_intro; try assumption; [lia|].
      intros e1 e1' H1 H1'. assert (e1 = e) by congruence.
      assert (e1' = e) by congruence. subst. auto.
  - cbn [axes_ok] in Hax. destruct Hax as (Haxis & Hl & Hr).
    unfold descend_step. rewrite <- Hen, <- Hex.
    destruct (stack_get_pair _ _ (enPt s) Hlen)
      as [(en & en' & -> & -> & Hn & Hn' & _)|[-> ->]]; [|simpl; reflexivity].
    cbn [bind]. destruct (Hentry _ _ Hn Hn') as [_ <-].
    assert (Hgoto : forall n, axes_ok n ->
              agree (mkTrav n (stack s) (enPt s) (exPt s) (rxIntersections s))
                    (mkTrav n (stack s') (enPt s) (exPt s) (rxIntersections s'))).
    { intros n Hn0. rewrite <- Hrx. apply agree_intro; assumption. }
    assert (Hpush : forall near far, axes_ok near -> axes_ok far ->
              agree_out
                (do s1 <- push_far ray s axis sv near far ; Ret (inl s1 : Trav + Answer))
                (do s1 <- push_far ray s' axis sv near far ; Ret (inl s1 : Trav + Answer))).
    { intros near far Hnear Hfar. unfold push_far, stack_update.
      rewrite <- Hen, <- Hex, <- Hrx.
      set (ex2 := if exPt s + 1 =? enPt s then exPt s + 1 + 1 else exPt s + 1).
      pose proof (live_pos _ _ _ Hlive) as Hpos.
      assert (Hex2 : exPt s < ex2)
        by (unfold ex2; destruct (Z.eqb_spec (exPt s + 1) (enPt s)); lia).
      destruct (stack_get_pair _ _ ex2 Hlen)
        as [(e2 & e2' & -> & -> & H2 & H2' & _)|[-> ->]]; [|simpl; reflexivity].
      cbn [bind agree_out].
      rewrite (Point_set_all (se_pb e2) (se_pb e2')) by assumption.
      set (pushed := mkStackElem _ _ (Some far) (exPt s)).
      apply agree_intro; try assumption.
      - rewrite !length_insert. assumption.
      - intros e1 e1'.
        destruct (decide (Z.to_nat ex2 = Z.to_nat (enPt s))) as [Heq|Hne].
        + rewrite <- Heq, !list_lookup_insert_eq
            by (eapply lookup_lt_Some; eassumption).
          intros [= <-] [= <-]. auto.
        + rewrite !list_lookup_insert_ne by assumption. apply Hentry.
      - eapply live_push with (e := pushed) (far := far).
        + apply list_lookup_insert_eq. eapply lookup_lt_Some; eassumption.
        + apply list_lookup_insert_eq. eapply lookup_lt_Some; eassumption.
        + reflexivity.
        + assumption.
        + simpl. lia.
        + simpl. apply live_frame; assumption. }
    destruct (_ <=? sv)%float.
    + destruct (stack_get_pair _ _ (exPt s) Hlen)
        as [(ex & ex' & -> & -> & Hx & Hx' & _)|[-> ->]]; [|simpl; reflexivity].
      cbn [bind]. destruct (live_top _ _ _ Hlive) as (e & e' & He & He' & _ & Hpb & _).
      assert (ex = e) by congruence. assert (ex' = e') by congruence. subst.
      rewrite <- Hpb.
      destruct (_ <=? sv)%float; [simpl; apply Hgoto; assumption|].
      destruct (_ =? sv)%float; [simpl; apply Hgoto; assumption|].
      apply Hpush; assumption.
    + destruct (stack_get_pair _ _ (exPt s) Hlen)
        as [(ex & ex' & -> & -> & Hx & Hx' & _)|[-> ->]]; [|simpl; reflexivity].
      cbn [bind]. destruct (live_top _ _ _ Hlive) as (e & e' & He & He' & _ & Hpb & _).
      assert (ex = e) by congruence. assert (ex' = e') by congruence. subst.
      rewrite <- Hpb.
      destruct (sv <? _)%float; [simpl; apply Hgoto; assumption|].
      apply Hpush; assumption.
Qed.

Lemma run_agree fuel : forall s s',
  agree s s' -> run GI ray fuel rxPoints0 s = run GI ray fuel rxPoints0 s'.
Proof.
  induction fuel as [|fuel IH]; intros s s' Ha; simpl; [reflexivity|].
  pose proof (step_agree s s' Ha) as Hs. unfold agree_out in Hs.
  destruct (step GI ray rxPoints0 s) as [[s1|a]|i|],
           (step GI ray rxPoints0 s') as [[s1'|a']|i'|]; simpl; try contradiction.
  - apply IH, Hs.
  - congruence.
  - congruence.
  - reflexivity.
Qed.
End GarbageFacts.

Lemma initial_agree ray garbage garbage' root a b :
  axes_ok root ->
  agree (initial ray garbage root a b) (initial ray garbage' root a b).
Proof.
  intros Hax. unfold initial. apply agree_intro; try assumption; try lia.
  - reflexivity.
  - intros e e'. simpl. intros [= <-] [= <-]. auto.
  - eapply live_base; [lia|reflexivity|reflexivity| | | |]; reflexivity.
Qed.

Lemma intersect_agree GI Grid ray fuel garbage garbage' root rxPoints0 :
  axes_ok root ->
  intersect GI Grid ray fuel garbage root rxPoints0
  = intersect GI Grid ray fuel garbage' root rxPoints0.
Proof.
  intros Hax. unfold intersect.
  destruct (Grid (node_min root) (node_max root) ray) as [[a b]|]; [|reflexivity].
  apply run_agree, initial_agree, Hax.
Qed.

(** X10.  On a tree whose internal nodes split on axis 0, 1 or 2 (every tree
    [buildKdTree] returns is one), the outcome of [intersect] does not depend
    on what the uninitialised array [stack[50]] holds: for any two initial
    contents the result, the receivers pushed, and a failure if there is one,
    are the same.  The fields the loop reads were written before: [t] and
    [pb] of the entry slot, the whole of a pushed slot, and [node] of slot
    1; [prev] of slot 1 is read when the loop ends, and not used. *)
Theorem intersect_ignores_uninitialised_stack GI Grid ray fuel garbage garbage'
    root rxPoints0 :
  axes_ok root ->
  intersect GI Grid ray fuel garbage root rxPoints0
  = intersect GI Grid ray fuel garbage' root rxPoints0.
Proof. apply intersect_agree. Qed.

Lemma axes_ok_receiver_tree : axes_ok receiver_tree.
Proof.
  unfold receiver_tree, init, buildKdTree.
  destruct (root_box receiver_scene) as [rmin rmax].
  destruct (buildKdTree_rec _ rmin rmax receiver_scene 0) as [t|] eqn:Hb;
    [|exact I].
  exact (proj1 (buildKdTree_rec_shape _ _ _ _ _ _ Hb)).
Qed.

(** [intersect_ignores_uninitialised_stack] on [receiver_tree], for a stack
    of zeros and one filled with other values. *)
Lemma intersect_ignores_uninitialised_stack_witness :
  axes_ok receiver_tree
  /\ intersect axial_Geometry_intersect axial_Grid_intersect axial_ray 3
               zero_garbage receiver_tree []
     = intersect axial_Geometry_intersect axial_Grid_intersect axial_ray 3
                 other_garbage receiver_tree [].
Proof.
  split; [exact axes_ok_receiver_tree|].
  exact (intersect_ignores_uninitialised_stack
           axial_Geometry_intersect axial_Grid_intersect axial_ray 3
           zero_garbage other_garbage receiver_tree [] axes_ok_receiver_tree).
Defined.

(** *** [init], then [intersect] *)

Lemma buildKdTree_rec_depth fuel nmin nmax lst depth t :
  depth <= 19 ->
  buildKdTree_rec fuel nmin nmax lst depth = Some t -> tree_depth t depth <= 19.
Proof.
  intros Hd Hb. destruct (tree_depth_calls t lst depth) as (box & l & leaf & Hin).
  destruct (buildKdTree_rec_calls _ _ _ _ _ _ Hd Hb _ _ _ _ Hin) as (? & _). lia.
Qed.

(** X11.  On the tree [init] builds over a scene, [intersect] returns, for
    every ray, within as many steps as the tree has nodes; what it returns
    does not depend on the uninitialised content of its stack; and a
    returned hit is what [Geometry::intersect] answered for a geometry of
    the scene. *)
Theorem init_tree_traversal (scene : list Geometry) (root : KdNode)
    (GI : Geometry -> Ray.t -> IntersectResult)
    (Grid : Point -> Point -> Ray.t -> option (float * float))
    (ray : Ray.t) (fuel : nat) (garbage : nat -> StackElem)
    (rxPoints0 : list RxIntersection) :
  init scene = Some root -> node_count root <= Z.of_nat fuel ->
  exists ans,
    intersect GI Grid ray fuel garbage root rxPoints0 = Ret ans
    /\ (forall garbage',
          intersect GI Grid ray fuel garbage' root rxPoints0 = Ret ans)
    /\ forall d p n g, result ans = Hit d p n g ->
         exists g0, In g0 scene /\ GI g0 ray = Hit d p n g.
Proof.
  unfold init, buildKdTree. destruct (root_box scene) as [rmin rmax].
  intros Hb Hfuel.
  assert (Hd : tree_depth root 0 <= 19)
    by (eapply buildKdTree_rec_depth; [|exact Hb]; lia).
  destruct (intersect_returns GI Grid ray garbage root rxPoints0 fuel Hd Hfuel)
    as (ans & Hans).
  exists ans. split; [exact Hans|]. split.
  - intros garbage'. rewrite <- Hans.
    apply intersect_agree.
    apply (buildKdTree_rec_shape _ _ _ _ _ _ Hb).
  - intros d p n g Hres. apply intersect_from in Hans. destruct Hans as [_ Hhit].
    rewrite Hres in Hhit. destruct Hhit as (g0 & Hin & Hg).
    exists g0. split; [|exact Hg].
    eapply buildKdTree_rec_geometries; eassumption.
Qed.

(** [init_tree_traversal] on [receiver_scene], whose tree has three
    nodes. *)
Lemma init_tree_traversal_witness :
  init receiver_scene = Some receiver_tree
  /\ node_count receiver_tree <= 3
  /\ exists ans,
       intersect axial_Geometry_intersect axial_Grid_intersect axial_ray 3
                 zero_garbage receiver_tree [] = Ret ans
       /\ forall garbage',
            intersect axial_Geometry_intersect axial_Grid_intersect axial_ray 3
                      garbage' receiver_tree [] = Ret ans.
Proof.
  assert (Hinit : init receiver_scene = Some receiver_tree)
    by (vm_compute; reflexivity).
  assert (Hcount : node_count receiver_tree <= Z.of_nat 3)
    by (vm_compute; discriminate).
  split; [exact Hinit|]. split; [exact Hcount|].
  destruct (init_tree_traversal receiver_scene receiver_tree
              axial_Geometry_intersect axial_Grid_intersect axial_ray 3
              zero_garbage [] Hinit Hcount) as (ans & Hans & Hany & _).
  exists ans. split; [exact Hans|exact Hany].
Defined.

(** ** What [trace] and [Simulate] do to the buckets *)

Section BucketFacts.
Context `{Externals}.
Variable parameters : RtParameter.
Variable txPower : float.
Variable accelerator_intersect : Ray.t -> IntersectResult * list RxIntersection.
Variable geometry_index : Geometry -> Z.
Context {RxFields : Type}.
Variable AddField : RxFields -> ComplexVector -> list Z -> float -> RxFields.

(** [rxFields[index].AddField(...)] keeps the number of buckets and touches
    the bucket at [index] only. *)
Lemma record_field_keeps (P : nat -> RxFields -> Prop) fields index Ez path offset :
  (forall i f, 0 <= index -> i = Z.to_nat index -> P i f ->
               P i (AddField f Ez path offset)) ->
  (forall i f, fields !! i = Some f -> P i f) ->
  length (record_field AddField fields index Ez path offset) = length fields
  /\ forall i f, record_field AddField fields index Ez path offset !! i = Some f ->
                 P i f.
Proof.
  intros Hadd Hall. unfold record_field.
  destruct (Z.ltb_spec index 0) as [Hneg|Hpos]; [auto|].
  split; [apply length_alter|]. intros i f.
  destruct (decide (i = Z.to_nat index)) as [->|Hne].
  - rewrite list_lookup_alter_eq. destruct (fields !! Z.to_nat index) as [f0|] eqn:Hf;
      simpl; [|discriminate].
    intros [= <-]. apply Hadd; auto.
  - rewrite list_lookup_alter_ne by congruence. apply Hall.
Qed.

(** An invariant [P] of the buckets, kept by every [AddField] that [trace]
    can perform: one for a receiver index [I] that the accelerator reports,
    with a path [Q] that a traced ray carries. *)
Variable P : nat -> RxFields -> Prop.
Variable Q : list Z -> Prop.
Variable I : Z -> Prop.
Hypothesis I_reported :
  forall ray rx, In rx (snd (accelerator_intersect ray)) -> I (rx_index rx).
Hypothesis Q_spawn : forall g, Q [geometry_index g].
Hypothesis P_AddField :
  forall i f Ez path offset,
    I (Z.of_nat i) -> Q path -> P i f -> P i (AddField f Ez path offset).

Lemma record_loop_keeps (field_of : RxIntersection -> ComplexVector) path
    (rxs : list RxIntersection) : forall n fields,
  Q path -> Forall (fun rx => I (rx_index rx)) rxs ->
  buckets_ok P n fields ->
  buckets_ok P n
    (fold_left (fun fields rx =>
                  record_field AddField fields (rx_index rx) (field_of rx) path
                               (rx_offset rx)) rxs fields).
Proof.
  intros n fields Hq Hrx. revert fields.
  induction Hrx as [|rx rxs Hi Hrx IH]; intros fields [Hlen Hall]; simpl;
    [split; assumption|].
  apply IH.
  destruct (record_field_keeps P fields (rx_index rx) (field_of rx) path
              (rx_offset rx)) as [Hlen' Hall']; [|assumption|split; [lia|assumption]].
  intros i f Hpos -> Hp. apply P_AddField; [|assumption|assumption].
  rewrite Z2Nat.id by assumption. assumption.
Qed.

Lemma reported_I r :
  Forall (fun rx => I (rx_index rx)) (snd (accelerator_intersect r)).
Proof.
  apply Forall_forall. intros rx Hin. apply list_elem_of_In in Hin. eauto.
Qed.

Lemma trace_E_keeps fuel : forall r depth E n fields fields',
  Q (Ray.path r) -> buckets_ok P n fields ->
  trace_E parameters accelerator_intersect geometry_index AddField fuel r depth E
          fields = Some fields' ->
  buckets_ok P n fields'.
Proof.
  induction fuel as [|fuel IH]; intros r depth E n fields fields' Hq Hok;
    cbn [trace_E]; pose proof (reported_I r) as Hrep;
    destruct (accelerator_intersect r) as [res rxs]; cbn [snd] in Hrep;
    (destruct (maxReflections parameters <? depth); [intros [= <-]; assumption|]);
    pose proof (record_loop_keeps
                  (fun rx => area_correction r rx
                               (calc_field_direct_E parameters r (rx_distance rx) E))
                  (Ray.path r) rxs n fields Hq Hrep Hok) as Hok';
    fold (record_carried parameters AddField r E rxs fields) in Hok';
    destruct res as [|d p nrm g]; try (intros [= <-]; assumption);
    destruct (Ray.state r); try discriminate; try (intros [= <-]; assumption).
  apply IH; [|assumption]. simpl. apply Q_spawn.
Qed.

Lemma trace_keeps r depth n fields fields' :
  Q (Ray.path r) -> buckets_ok P n fields ->
  trace parameters txPower accelerator_intersect geometry_index AddField r depth
        fields = Some fields' ->
  buckets_ok P n fields'.
Proof.
  intros Hq Hok. unfold trace. pose proof (reported_I r) as Hrep.
  destruct (accelerator_intersect r) as [res rxs]. cbn [snd] in Hrep.
  assert (Hok' : buckets_ok P n
                   (record_direct parameters txPower AddField r rxs fields)).
  { unfold record_direct. destruct (Ray.state r); try assumption.
    apply (record_loop_keeps
             (fun rx => calc_field_direct parameters txPower r (rx_distance rx)));
      assumption. }
  destruct res as [|d p nrm g]; [intros [= <-]; assumption|].
  destruct (Ray.state r); try (intros [= <-]; assumption).
  apply trace_E_keeps; [|assumption]. simpl. apply Q_spawn.
Qed.
End BucketFacts.

Section LimitFacts.
Context `{Externals}.
Variable parameters : RtParameter.
Variable txPower : float.
Variable accelerator_intersect : Ray.t -> IntersectResult * list RxIntersection.
Variable geometry_index : Geometry -> Z.
Context {RxFields : Type}.
Variable AddField : RxFields -> ComplexVector -> list Z -> float -> RxFields.
Variable RxFields_Sum : RxFields -> ComplexVector.

(** X12.  When [maxReflections <= depth], a negative limit included,
    [trace(r, depth)] leaves in [rxFields] exactly the direct contributions
    of lines 458-471: [trace(r, depth)] has no depth test of its own, so it
    records them whatever the limit is, and the call it makes at
    [depth + 1] returns at once. *)
Theorem trace_at_limit_records_direct_only (r : Ray.t) (depth : Z)
    (rxFields : list RxFields) :
  maxReflections parameters <= depth ->
  trace parameters txPower accelerator_intersect geometry_index AddField r depth
        rxFields
  = Some (record_direct parameters txPower AddField r
            (snd (accelerator_intersect r)) rxFields).
Proof.
  intros Hm. unfold trace. destruct (accelerator_intersect r) as [res rxs].
  simpl. destruct res; [reflexivity|]. destruct (Ray.state r); try reflexivity.
  apply trace_E_beyond_limit. lia.
Qed.

Lemma GetRxPowers_from_overrun (fields : list RxFields) : forall i powers,
  (i <= length powers < i + length fields)%nat ->
  GetRxPowers_from parameters txPower RxFields_Sum i fields powers = None.
Proof.
  induction fields as [|f fields IH]; intros i powers Hlen; simpl in *; [lia|].
  destruct (Nat.ltb_spec i (length powers)) as [Hi|Hi]; [|reflexivity].
  apply IH. rewrite length_insert. lia.
Qed.

(** X13.  [GetRxPowers] writes one entry per bucket of [rxFields], whatever
    [n] is: it writes past the end of the caller's array exactly when the
    array has fewer entries than there are buckets. *)
Theorem GetRxPowers_overruns_short_array (rxFields : list RxFields)
    (powers : list float) (n : Z) :
  GetRxPowers parameters txPower RxFields_Sum rxFields powers n = None
  <-> (length powers < length rxFields)%nat.
Proof.
  unfold GetRxPowers. split.
  - intros Hnone. destruct (Nat.lt_ge_cases (length powers) (length rxFields))
      as [Hlt|Hge]; [assumption|].
    rewrite GetRxPowers_from_eq in Hnone by (simpl; lia). discriminate.
  - intros Hlt. apply GetRxPowers_from_overrun. lia.
Qed.
End LimitFacts.

(** [trace_at_limit_records_direct_only] for a negative limit: the direct
    contribution is recorded all the same. *)
Lemma trace_at_limit_records_direct_only_witness :
  -1 <= 0
  /\ trace (H := sample_externals)
           (mkRtParameter 5.0 0.01 (-1) 60 900 0.25%float 25%float) 0%float
           sample_accelerator (fun _ => 7) sample_AddField axial_ray 0 [[]]
     = Some [[mkContribution
                (calc_field_direct (H := sample_externals)
                   (mkRtParameter 5.0 0.01 (-1) 60 900 0.25%float 25%float)
                   0%float axial_ray 1)
                [] 0.25%float]].
Proof.
  assert (Hm : -1 <= 0) by lia.
  split; [exact Hm|].
  exact (trace_at_limit_records_direct_only (H := sample_externals)
           (mkRtParameter 5.0 0.01 (-1) 60 900 0.25%float 25%float) 0%float
           sample_accelerator (fun _ => 7) sample_AddField axial_ray 0 [[]] Hm).
Defined.

(** [GetRxPowers_overruns_short_array] on two buckets and an array of one
    entry. *)
Lemma GetRxPowers_overruns_short_array_witness :
  (length [0%float] < length sample_rxFields)%nat
  /\ GetRxPowers (H := sample_externals) sample_parameters 0%float sample_Sum
                 sample_rxFields [0%float] 2 = None.
Proof.
  assert (Hlen : (length [0%float] < length sample_rxFields)%nat) by (simpl; lia).
  split; [exact Hlen|].
  exact (proj2 (GetRxPowers_overruns_short_array (H := sample_externals)
                  sample_parameters 0%float sample_Sum sample_rxFields
                  [0%float] 2) Hlen).
Defined.

Section SessionBuckets.
Context `{Externals}.
Context {RxFields : Type}.
Variable accelerator : list Geometry -> Ray.t -> IntersectResult * list RxIntersection.
Variable geometry_index : Geometry -> Z.
Variable AddField : RxFields -> ComplexVector -> list Z -> float -> RxFields.
Variable RxFields_new : RxFields.
Variable RxFields_Sum : RxFields -> ComplexVector.

Lemma trace_all_returns parameters txPower scene rays : forall rxFields,
  exists rxFields',
    trace_all accelerator geometry_index AddField parameters txPower scene rays
              rxFields = Some rxFields'.
Proof.
  induction rays as [|ray rays IH]; intros rxFields; simpl; [eauto|].
  destruct (trace_returns parameters txPower (accelerator scene) geometry_index
              AddField ray 0 rxFields) as (f1 & ->).
  apply IH.
Qed.

Lemma trace_all_keeps (P : nat -> RxFields -> Prop) (Q : list Z -> Prop)
    (I : Z -> Prop) parameters txPower scene rays :
  (forall ray rx, In rx (snd (accelerator scene ray)) -> I (rx_index rx)) ->
  (forall g, Q [geometry_index g]) ->
  (forall i f Ez path offset,
     I (Z.of_nat i) -> Q path -> P i f -> P i (AddField f Ez path offset)) ->
  Forall (fun ray => Q (Ray.path ray)) rays ->
  forall n rxFields rxFields',
    buckets_ok P n rxFields ->
    trace_all accelerator geometry_index AddField parameters txPower scene rays
              rxFields = Some rxFields' ->
    buckets_ok P n rxFields'.
Proof.
  intros HI HQ HP Hrays. induction Hrays as [|ray rays Hq Hrays IH];
    intros n rxFields rxFields' Hok; simpl; [intros [= <-]; assumption|].
  destruct (trace parameters txPower (accelerator scene) geometry_index AddField
              ray 0 rxFields) as [f1|] eqn:Ht; [|discriminate].
  apply IH.
  eapply (trace_keeps parameters txPower (accelerator scene) geometry_index
            AddField P Q I); eassumption.
Qed.

Lemma launched_rays_paths (Q : list Z -> Prop) txPoint raySpacing :
  Q [] -> Forall (fun ray => Q (Ray.path ray)) (launched_rays txPoint raySpacing).
Proof.
  intros Hq.
  eapply Forall_impl; [apply (launched_rays_Start txPoint raySpacing)|].
  intros ray (_ & -> & _). exact Hq.
Qed.

(** [Simulate] returns, and with one more bucket per receiver. *)
Lemma Simulate_Some (scene : list Geometry) (txPoint : Point)
    (txPower : float) (rxPoints : list Point) (rxRadius : float)
    (parameters : RtParameter) (rxFields : list RxFields) :
  exists fields,
    Simulate accelerator geometry_index AddField RxFields_new scene txPoint
             txPower rxPoints rxRadius parameters rxFields
    = Some (scene ++ imap (fun i p => Sphere p rxRadius (Z.of_nat i)) rxPoints,
            with_wavelength parameters, fields)
    /\ length fields = (length rxFields + length rxPoints)%nat.
Proof.
  unfold Simulate.
  destruct (trace_all_returns (with_wavelength parameters) txPower
              (scene ++ imap (fun i p => Sphere p rxRadius (Z.of_nat i)) rxPoints)
              (launched_rays txPoint (raySpacing (with_wavelength parameters)))
              (rxFields ++ map (fun _ => RxFields_new) rxPoints))
    as (fields & Hf).
  rewrite Hf. exists fields. split; [reflexivity|].
  eapply (trace_all_keeps (fun _ _ => True) (fun _ => True) (fun _ => True))
    with (n := (length rxFields + length rxPoints)%nat) in Hf;
    try (intros; exact I).
  - destruct Hf as [Hlen _]. exact Hlen.
  - apply (launched_rays_paths (fun _ => True)). exact I.
  - split; [|intros; exact I]. rewrite length_app, length_map. reflexivity.
Qed.


(** X15.  A bucket whose position no answer of the accelerator names as a
    receiver index is left by [Simulate] as it was before the rays were
    traced: as it was on entry, or as constructed if [Simulate] appended
    it. *)
Theorem Simulate_leaves_unreported_bucket (scene : list Geometry)
    (txPoint : Point) (txPower : float) (rxPoints : list Point)
    (rxRadius : float) (parameters : RtParameter) (rxFields : list RxFields)
    (i : nat) scene' parameters' fields :
  (forall ray rx,
     In rx (snd (accelerator
                   (scene ++ imap (fun i p => Sphere p rxRadius (Z.of_nat i)) rxPoints)
                   ray)) ->
     rx_index rx <> Z.of_nat i) ->
  Simulate accelerator geometry_index AddField RxFields_new scene txPoint
           txPower rxPoints rxRadius parameters rxFields
  = Some (scene', parameters', fields) ->
  fields !! i = (rxFields ++ map (fun _ => RxFields_new) rxPoints) !! i.
Proof.
  intros Hrep. unfold Simulate.
  destruct (trace_all _ _ _ _ _ _ _ _) as [fields0|] eqn:Hf; [|discriminate].
  intros [= <- <- <-].
  set (fields1 := rxFields ++ map (fun _ => RxFields_new) rxPoints) in *.
  eapply (trace_all_keeps (fun j f => j = i -> fields1 !! i = Some f)
            (fun _ => True) (fun idx => idx <> Z.of_nat i))
    with (n := length fields1) in Hf;
    try (intros; exact I).
  - destruct Hf as [Hlen Hall].
    destruct (fields0 !! i) as [f|] eqn:Hfi.
    + symmetry. apply (Hall i f Hfi eq_refl).
    + symmetry. apply lookup_ge_None. apply lookup_ge_None in Hfi. lia.
  - exact Hrep.
  - intros j f Ez path offset Hne _ _ ->. congruence.
  - apply (launched_rays_paths (fun _ => True)). exact I.
  - split; [reflexivity|]. intros j f Hj ->. exact Hj.
Qed.

(** X16.  A second [Simulate] on the state the first one left adds the
    receiver spheres to the scene and a bucket per receiver to [rxFields]
    again: after two runs from no buckets the scene holds every receiver
    sphere twice and there are twice as many buckets as receivers.  So
    [GetRxPowers] on an array of one entry per receiver stays inside the
    array after the first run and, when there is a receiver, writes past
    its end after the second. *)
Theorem Simulate_twice_doubles_receivers (scene : list Geometry)
    (txPoint : Point) (txPower : float) (rxPoints : list Point)
    (rxRadius : float) (parameters : RtParameter) :
  let spheres := imap (fun i p => Sphere p rxRadius (Z.of_nat i)) rxPoints in
  exists scene1 parameters1 fields1 fields2,
    Simulate accelerator geometry_index AddField RxFields_new scene txPoint
             txPower rxPoints rxRadius parameters []
    = Some (scene1, parameters1, fields1)
    /\ Simulate accelerator geometry_index AddField RxFields_new scene1 txPoint
                txPower rxPoints rxRadius parameters1 fields1
       = Some (scene ++ spheres ++ spheres, parameters1, fields2)
    /\ length fields1 = length rxPoints
    /\ length fields2 = (2 * length rxPoints)%nat
    /\ forall (powers : list float) (n : Z),
         length powers = length rxPoints ->
         (exists out,
            GetRxPowers parameters1 txPower RxFields_Sum fields1 powers n
            = Some out)
         /\ (rxPoints <> [] ->
             GetRxPowers parameters1 txPower RxFields_Sum fields2 powers n
             = None).
Proof.
  intros spheres.
  destruct (Simulate_Some scene txPoint txPower rxPoints rxRadius parameters [])
    as (fields1 & H1 & Hl1).
  destruct (Simulate_Some (scene ++ spheres) txPoint txPower rxPoints rxRadius
              (with_wavelength parameters) fields1) as (fields2 & H2 & Hl2).
  simpl in Hl1.
  exists (scene ++ spheres), (with_wavelength parameters), fields1, fields2.
  split; [exact H1|]. split; [|split; [lia|split; [lia|]]].
  - rewrite H2. rewrite <- app_assoc. destruct parameters; reflexivity.
  - intros powers n Hlen. unfold GetRxPowers. split.
    + rewrite GetRxPowers_from_eq by (simpl; lia). eauto.
    + intros Hne. apply GetRxPowers_from_overrun.
      destruct rxPoints; [congruence|]. simpl in *. lia.
Qed.

End SessionBuckets.

(** [Simulate_leaves_unreported_bucket] with two receivers and an
    accelerator that only ever reports receiver 0: bucket 1 stays empty. *)
Lemma Simulate_leaves_unreported_bucket_witness :
  (forall ray rx, In rx (snd (sample_accelerator ray)) -> rx_index rx <> 1)
  /\ exists fields,
       Simulate (H := sample_externals) (fun _ => sample_accelerator)
                (fun _ => 7) sample_AddField [] [] (mkPoint 0 0 0) 0%float
                [mkPoint 10 0 0; mkPoint 0 10 0] 1%float sample_parameters []
       = Some ([Sphere (mkPoint 10 0 0) 1 0; Sphere (mkPoint 0 10 0) 1 1],
               with_wavelength (H := sample_externals) sample_parameters,
               fields)
       /\ fields !! 1%nat = Some [].
Proof.
  assert (Hrep : forall ray rx,
            In rx (snd (sample_accelerator ray)) -> rx_index rx <> Z.of_nat 1).
  { intros ray rx [<-|[]]. discriminate. }
  split; [exact Hrep|].
  destruct (Simulate_Some (H := sample_externals) (fun _ => sample_accelerator)
              (fun _ => 7) sample_AddField [] [] (mkPoint 0 0 0) 0%float
              [mkPoint 10 0 0; mkPoint 0 10 0] 1%float sample_parameters [])
    as (fields & Heq & _).
  exists fields. split; [exact Heq|].
  exact (Simulate_leaves_unreported_bucket (H := sample_externals)
           (fun _ => sample_accelerator) (fun _ => 7) sample_AddField [] []
           (mkPoint 0 0 0) 0%float [mkPoint 10 0 0; mkPoint 0 10 0] 1%float
           sample_parameters [] 1 _ _ fields (fun ray => Hrep ray) Heq).
Defined.

(** X18.  Every path [trace] hands to [AddField] holds at most one triangle
    index, whatever [maxReflections] is: the ray spawned at a hit starts
    from a fresh path, to which the index of the triangle just hit is
    added, so a contribution that arrives after several reflections carries
    the index of the last one only.  Shown on buckets that keep the
    contributions they are given: if no contribution held before [Simulate]
    has a longer path, none has after it. *)
Theorem Simulate_paths_hold_one_index `{Externals}
    (accelerator : list Geometry -> Ray.t -> IntersectResult * list RxIntersection)
    (geometry_index : Geometry -> Z)
    (scene : list Geometry) (txPoint : Point) (txPower : float)
    (rxPoints : list Point) (rxRadius : float) (parameters : RtParameter)
    (rxFields : list (list Contribution)) scene' parameters' fields :
  Forall (Forall (fun c => (length (c_path c) <= 1)%nat)) rxFields ->
  Simulate accelerator geometry_index sample_AddField [] scene txPoint txPower
           rxPoints rxRadius parameters rxFields
  = Some (scene', parameters', fields) ->
  Forall (Forall (fun c => (length (c_path c) <= 1)%nat)) fields.
Proof.
  intros Hinit. unfold Simulate.
  destruct (trace_all _ _ _ _ _ _ _ _) as [fields0|] eqn:Hf; [|discriminate].
  intros [= <- <- <-].
  eapply (trace_all_keeps accelerator geometry_index sample_AddField
            (fun _ f => Forall (fun c => (length (c_path c) <= 1)%nat) f)
            (fun path => (length path <= 1)%nat) (fun _ => True)) in Hf;
    try (intros; exact I).
  - destruct Hf as [_ Hall]. apply Forall_forall. intros f Hin.
    apply list_elem_of_lookup in Hin. destruct Hin as (i & Hi). eauto.
  - intros g. simpl. lia.
  - intros i f Ez path offset _ Hp Hf0. unfold sample_AddField.
    apply Forall_app. split; [assumption|]. constructor; [exact Hp|constructor].
  - apply (launched_rays_paths (fun path => (length path <= 1)%nat)). simpl. lia.
  - split; [reflexivity|]. intros i f Hi.
    apply lookup_app_Some in Hi. destruct Hi as [Hi|[_ Hi]].
    + rewrite Forall_forall in Hinit. apply Hinit. eapply list_elem_of_lookup_2, Hi.
    + apply list_elem_of_lookup_2, list_elem_of_In, in_map_iff in Hi.
      destruct Hi as (p & <- & _). constructor.
Qed.

(** [Simulate_paths_hold_one_index] with two reflections allowed and an
    accelerator that always answers a triangle hit behind receiver 0. *)
Lemma Simulate_paths_hold_one_index_witness :
  Forall (Forall (fun c => (length (c_path c) <= 1)%nat))
         (@nil (list Contribution))
  /\ exists fields,
       Simulate (H := sample_externals) (fun _ => sample_accelerator)
                (fun _ => 7) sample_AddField [] [] (mkPoint 0 0 0) 0%float
                [mkPoint 10 0 0] 1%float bounce_parameters []
       = Some ([Sphere (mkPoint 10 0 0) 1 0],
               with_wavelength (H := sample_externals) bounce_parameters,
               fields)
       /\ Forall (Forall (fun c => (length (c_path c) <= 1)%nat)) fields.
Proof.
  assert (Hinit : Forall (Forall (fun c => (length (c_path c) <= 1)%nat))
                         (@nil (list Contribution))) by constructor.
  split; [exact Hinit|].
  destruct (Simulate_Some (H := sample_externals) (fun _ => sample_accelerator)
              (fun _ => 7) sample_AddField [] [] (mkPoint 0 0 0) 0%float
              [mkPoint 10 0 0] 1%float bounce_parameters [])
    as (fields & Heq & _).
  exists fields. split; [exact Heq|].
  exact (Simulate_paths_hold_one_index (H := sample_externals)
           (fun _ => sample_accelerator) (fun _ => 7) [] (mkPoint 0 0 0) 0%float
           [mkPoint 10 0 0] 1%float bounce_parameters [] _ _ fields Hinit Heq).
Defined.

(** ** Binary STL input, further *)

Lemma le_value_bound bytes :
  0 <= Stl.le_value bytes < 256 ^ Z.of_nat (length bytes).
Proof.
  induction bytes as [|byte bytes IH]; [simpl; lia|].
  change (Stl.le_value (byte :: bytes))
    with (Z.of_N (Strings.Byte.to_N byte) + 256 * Stl.le_value bytes).
  pose proof (Strings.Byte.to_N_bounded byte) as Hb.
  rewrite length_cons, Nat2Z.inj_succ, Z.pow_succ_r by lia. lia.
Qed.

(** A read that finds all its bytes in the file does not depend on what the
    variable held. *)
Lemma fread_full size v fp :
  (size <= length fp)%nat ->
  Stl.fread size v fp = (Stl.le_value (take size fp), drop size fp).
Proof.
  intros Hlen. unfold Stl.fread. rewrite length_take, Nat.min_l by assumption.
  rewrite Z.div_small by (apply Z.mod_pos_bound; lia). f_equal. lia.
Qed.

Lemma read_floats_full n : forall j uninit uninit' fp,
  (4 * n <= length fp)%nat ->
  Stl.read_floats n j uninit fp = Stl.read_floats n j uninit' fp
  /\ length (snd (Stl.read_floats n j uninit fp)) = (length fp - 4 * n)%nat.
Proof.
  induction n as [|n IH]; intros j uninit uninit' fp Hlen; cbn [Stl.read_floats].
  - split; [reflexivity|simpl; lia].
  - rewrite !fread_full by lia.
    destruct (IH (S j) uninit uninit' (drop 4 fp)) as [Heq Hl];
      [rewrite length_drop; lia|].
    rewrite <- Heq. destruct (Stl.read_floats n (S j) uninit (drop 4 fp)) as [rest fp'].
    simpl in *. rewrite length_drop in Hl. split; [reflexivity|lia].
Qed.

Lemma read_triangle_full uninit uninit' fp :
  (50 <= length fp)%nat ->
  Stl.read_triangle uninit fp = Stl.read_triangle uninit' fp
  /\ length (snd (Stl.read_triangle uninit fp)) = (length fp - 50)%nat.
Proof.
  intros Hlen. unfold Stl.read_triangle.
  destruct (read_floats_full 12 0 uninit uninit' fp) as [Heq Hl]; [lia|].
  rewrite <- Heq. destruct (Stl.read_floats 12 0 uninit fp) as [fs fp'].
  simpl in Hl. rewrite !fread_full by lia. simpl. rewrite length_drop.
  split; [reflexivity|lia].
Qed.

Lemma read_triangles_full count : forall i uninit uninit' fp,
  (50 * count <= length fp)%nat ->
  Stl.read_triangles count i uninit fp = Stl.read_triangles count i uninit' fp.
Proof.
  induction count as [|count IH]; intros i uninit uninit' fp Hlen;
    cbn [Stl.read_triangles]; [reflexivity|].
  destruct (read_triangle_full (uninit i) (uninit' i) fp) as [Heq Hl]; [lia|].
  rewrite <- Heq. destruct (Stl.read_triangle (uninit i) fp) as [t fp'].
  simpl in Hl. f_equal. apply IH. lia.
Qed.

(** X19.  On a file that holds the records its count announces (50 bytes
    each after the 84 bytes of header and count, a longer file included),
    what [AddStlModel] adds to the scene is determined by the file: it does
    not depend on the indeterminate values of the locals the records are
    read into. *)
Theorem AddStlModel_complete_file_ignores_locals (uninit uninit' : nat -> nat -> Z)
    (fp : list Byte.byte) (scene : list Geometry) :
  50 * fst (Stl.read_count fp) <= Z.of_nat (length (snd (Stl.read_count fp))) ->
  Stl.AddStlModel uninit (Some fp) scene = Stl.AddStlModel uninit' (Some fp) scene.
Proof.
  unfold Stl.AddStlModel. destruct (Stl.read_count fp) as [count fp']. simpl.
  intros Hlen. f_equal. f_equal. apply read_triangles_full. lia.
Qed.

(** [AddStlModel_complete_file_ignores_locals] on [one_triangle_stl], for
    locals that hold zeros and locals that hold ones in every bit. *)
Lemma AddStlModel_complete_file_ignores_locals_witness :
  50 * fst (Stl.read_count one_triangle_stl)
  <= Z.of_nat (length (snd (Stl.read_count one_triangle_stl)))
  /\ Stl.AddStlModel (fun _ _ => 0) (Some one_triangle_stl) []
     = Stl.AddStlModel (fun _ _ => 2 ^ 32 - 1) (Some one_triangle_stl) [].
Proof.
  assert (Hlen : 50 * fst (Stl.read_count one_triangle_stl)
                 <= Z.of_nat (length (snd (Stl.read_count one_triangle_stl))))
    by (vm_compute; discriminate).
  split; [exact Hlen|].
  exact (AddStlModel_complete_file_ignores_locals (fun _ _ => 0)
           (fun _ _ => 2 ^ 32 - 1) one_triangle_stl [] Hlen).
Defined.

(** X20.  A file that opens but is shorter than the 84 bytes of header and
    count is accepted: [AddStlModel] returns [true] and adds nothing.  The
    bytes of [count] the file does not provide keep those of its initial
    value -1, which leaves [count] negative. *)
Theorem AddStlModel_short_file_adds_nothing (uninit : nat -> nat -> Z)
    (fp : list Byte.byte) (scene : list Geometry) :
  (length fp < 84)%nat ->
  Stl.AddStlModel uninit (Some fp) scene = (true, scene).
Proof.
  intros Hlen. unfold Stl.AddStlModel, Stl.read_count, Stl.fread.
  set (rest := drop 80 fp).
  assert (Hrest : (length rest < 4)%nat) by (unfold rest; rewrite length_drop; lia).
  rewrite take_ge by lia.
  pose proof (le_value_bound rest) as Hv.
  assert (Hneg : Stl.int_of_bits
                   (Stl.le_value rest
                    + (2 ^ 32 - 1) mod 256 ^ Z.of_nat 4 / 256 ^ Z.of_nat (length rest)
                      * 256 ^ Z.of_nat (length rest)) < 0).
  { unfold Stl.int_of_bits.
    destruct (length rest) as [|[|[|[|n]]]]; try lia;
      simpl Z.of_nat in *; cbv zeta;
      match goal with
      | |- context [(2 ^ 32 - 1) mod ?m / ?q * ?q] =>
          let c := eval vm_compute in ((2 ^ 32 - 1) mod m / q * q) in
          change ((2 ^ 32 - 1) mod m / q * q) with c
      end;
      change (2 ^ 32) with 4294967296; change (2 ^ 31) with 2147483648;
      change (256 ^ 0) with 1 in Hv; change (256 ^ 1) with 256 in Hv;
      change (256 ^ 2) with 65536 in Hv; change (256 ^ 3) with 16777216 in Hv;
      rewrite Z.mod_small by lia;
      match goal with |- context [?a <? ?b] => destruct (Z.ltb_spec a b) end; lia. }
  simpl. rewrite Z2Nat.nonpos by lia. simpl. rewrite app_nil_r. reflexivity.
Qed.

(** [AddStlModel_short_file_adds_nothing] on a file of 83 bytes. *)
Lemma AddStlModel_short_file_adds_nothing_witness :
  (length (repeat Byte.x00 83) < 84)%nat
  /\ Stl.AddStlModel (fun _ _ => 0) (Some (repeat Byte.x00 83)) [] = (true, []).
Proof.
  assert (Hlen : (length (repeat Byte.x00 83) < 84)%nat) by (simpl; lia).
  split; [exact Hlen|].
  exact (AddStlModel_short_file_adds_nothing (fun _ _ => 0)
           (repeat Byte.x00 83) [] Hlen).
Defined.

(** ** Adding triangles *)

Lemma AddTriangles_from_eq count : forall i triangles scene,
  (i + count <= length triangles)%nat ->
  AddTriangles_from count i triangles scene
  = Some (fold_left (fun sc t => AddTriangle t sc) (take count (drop i triangles))
            scene).
Proof.
  induction count as [|count IH]; intros i triangles scene Hlen; simpl;
    [reflexivity|].
  destruct (triangles !! i) as [t|] eqn:Ht;
    [|apply lookup_ge_None in Ht; lia].
  rewrite IH by lia. rewrite (drop_S _ _ _ Ht). reflexivity.
Qed.

Lemma AddTriangles_from_overrun count : forall i triangles scene,
  (length triangles < i + count)%nat -> (0 < count)%nat ->
  AddTriangles_from count i triangles scene = None.
Proof.
  induction count as [|count IH]; intros i triangles scene Hlen Hc; [lia|].
  simpl. destruct (triangles !! i) as [t|] eqn:Ht; [|reflexivity].
  apply lookup_lt_Some in Ht. apply IH; lia.
Qed.

(** X21.  [AddTriangles(triangles, n)] adds to the scene what [n] successive
    calls of [AddTriangle] on [triangles[0]], ..., [triangles[n-1]] add, in
    that order, and nothing when [n] is not positive; it reads past the end
    of the caller's array exactly when [n] exceeds the number of its
    entries. *)
Theorem AddTriangles_is_repeated_AddTriangle (triangles : list RtTriangle)
    (n : Z) (scene : list Geometry) :
  (n <= Z.of_nat (length triangles) ->
   AddTriangles triangles n scene
   = Some (fold_left (fun sc t => AddTriangle t sc)
             (take (Z.to_nat n) triangles) scene))
  /\ (Z.of_nat (length triangles) < n -> AddTriangles triangles n scene = None).
Proof.
  unfold AddTriangles. split; intros Hn.
  - rewrite AddTriangles_from_eq by (simpl; lia). reflexivity.
  - apply AddTriangles_from_overrun; simpl; lia.
Qed.

(** [AddTriangles_is_repeated_AddTriangle] on an array of two triangles:
    [n = 2] is two calls of [AddTriangle], [n = -1] adds nothing and [n = 3]
    reads past the array. *)
Lemma AddTriangles_is_repeated_AddTriangle_witness :
  AddTriangles sample_triangles 2 []
  = Some (fold_left (fun sc t => AddTriangle t sc) sample_triangles [])
  /\ AddTriangles sample_triangles (-1) [planar_triangle 0]
     = Some [planar_triangle 0]
  /\ AddTriangles sample_triangles 3 [] = None.
Proof.
  split; [|split].
  - apply (proj1 (AddTriangles_is_repeated_AddTriangle sample_triangles 2 [])).
    simpl. lia.
  - apply (proj1 (AddTriangles_is_repeated_AddTriangle sample_triangles (-1)
                    [planar_triangle 0])).
    simpl. lia.
  - apply (proj2 (AddTriangles_is_repeated_AddTriangle sample_triangles 3 [])).
    simpl. lia.
Defined.

(** ** The build returns *)

Lemma check_iter n :
  N.iter n check_step (true, 0)
  = (forallb size_ok (map Z.of_nat (seq 0 (N.to_nat n))), Z.of_N n).
Proof.
  induction n as [|n IH] using N.peano_ind; [reflexivity|].
  rewrite N.iter_succ, IH. unfold check_step.
  rewrite N2Nat.inj_succ, seq_S, map_app, forallb_app. simpl.
  rewrite andb_true_r, N2Z.inj_succ. f_equal. f_equal. f_equal. lia.
Qed.

Lemma check_upto_spec n :
  check_upto n = true -> forall i, 0 <= i < Z.of_N n -> size_ok i = true.
Proof.
  unfold check_upto. rewrite check_iter. simpl. rewrite forallb_forall.
  intros Hall i Hi. apply Hall. apply in_map_iff. exists (Z.to_nat i).
  split; [lia|]. apply in_seq. lia.
Qed.

(** For every size below 2^22 the product [1.5f * size] is below
    [DBL_MAX]: checked size by size. *)
Lemma size_ok_all : forall i, 0 <= i < 2 ^ 22 -> size_ok i = true.
Proof.
  apply (check_upto_spec (2 ^ 22)%N). vm_compute. reflexivity.
Qed.

(** The box of a geometry the clipping rule can place has no NaN. *)
Lemma well_placed_box g axis :
  well_placed g ->
  let p := Point_get (fst (getBoundingBox g)) axis in
  let q := Point_get (snd (getBoundingBox g)) axis in
  (p =? p)%float = true /\ (q =? q)%float = true.
Proof.
  destruct g as [a b c n|center radius index]; simpl; intros Hg.
  - destruct (Hg 0) as (Hx & _), (Hg 1) as (Hy & _), (Hg 2) as (Hz & _).
    unfold Point_get in *. simpl in *.
    destruct (axis =? 0); [split; [apply std_min_defined|apply std_max_defined];
                           assumption|].
    destruct (axis =? 1); split;
      first [apply std_min_defined|apply std_max_defined]; assumption.
  - pose proof (float_leb_defined _ _ (Hg 0)) as [Hx Hx'].
    pose proof (float_leb_defined _ _ (Hg 1)) as [Hy Hy'].
    pose proof (float_leb_defined _ _ (Hg 2)) as [Hz Hz'].
    unfold Point_get in *. simpl in *.
    destruct (axis =? 0); [auto|]. destruct (axis =? 1); auto.
Qed.

Lemma Forall_filter_list {A} (P : A -> Prop) (f : A -> bool) (l : list A) :
  Forall P l -> Forall P (List.filter f l).
Proof.
  induction 1 as [|x l Hx Hl IH]; simpl; [constructor|].
  destruct (f x); [constructor|]; assumption.
Qed.

Lemma filter_length_le {A} (f : A -> bool) (l : list A) :
  (length (List.filter f l) <= length l)%nat.
Proof. induction l as [|x l IH]; simpl; [lia|]. destruct (f x); simpl; lia. Qed.

Lemma buildKdTree_rec_returns fuel : forall nmin nmax lst depth,
  19 - depth <= Z.of_nat fuel ->
  Forall well_placed lst -> Z.of_nat (length lst) < 2 ^ 22 ->
  exists t, buildKdTree_rec fuel nmin nmax lst depth = Some t.
Proof.
  induction fuel as [|fuel IH]; intros nmin nmax lst depth Hf Hwp Hlen;
    cbn [buildKdTree_rec]; destruct (leaf_test lst depth) eqn:Hlt; eauto;
    apply not_true_iff_false in Hlt; rewrite leaf_test_true in Hlt; [lia|].
  destruct (splitSAH_returns nmin nmax lst) as (best & Hs).
  { eapply Forall_impl; [exact Hwp|]. intros g Hg axis. apply well_placed_box, Hg. }
  rewrite Hs. pose proof (splitSAH_best _ _ _ _ Hs) as Hb. unfold best_ok in Hb.
  destruct (sah_terminates (minSAH best) lst) eqn:Ht; [eauto|].
  destruct (minSplit best) as [[median axis]|].
  - destruct (IH nmin (Point_set nmax axis median)
                (List.filter (goes_left axis median) lst) (depth + 1))
      as (l & ->); [lia|apply Forall_filter_list, Hwp| |].
    { pose proof (filter_length_le (goes_left axis median) lst). lia. }
    destruct (IH (Point_set nmin axis median) nmax
                (List.filter (goes_right axis median) lst) (depth + 1))
      as (r & ->); [lia|apply Forall_filter_list, Hwp| |].
    { pose proof (filter_length_le (goes_right axis median) lst). lia. }
    eauto.
  - rewrite Hb in Ht. unfold sah_terminates in Ht.
    assert (Hrange : 0 <= Z.of_nat (length lst) < 2 ^ 22) by lia.
    pose proof (size_ok_all _ Hrange) as Hok. unfold size_ok in Hok.
    congruence.
Qed.

(** X22.  [buildKdTree], and so [init], returns a tree on every list of
    fewer than 2^22 geometries that the clipping rule can place (triangles
    without NaN coordinates, spheres whose extent is ordered): the sweeps of
    [splitSAH] end, the recursion stops at depth 19 at the latest, and the
    uninitialised [axis] and [median] are never used, since a node for which
    no plane was accepted has [sah = DBL_MAX], which exceeds
    [1.5f * list.size()] and makes it a leaf. *)
Theorem buildKdTree_returns nmin nmax lst depth :
  Forall well_placed lst -> Z.of_nat (length lst) < 2 ^ 22 ->
  (exists t, buildKdTree nmin nmax lst depth = Some t)
  /\ exists root, init lst = Some root.
Proof.
  intros Hwp Hlen. split.
  - apply buildKdTree_rec_returns; [lia|assumption|assumption].
  - unfold init. destruct (root_box lst) as [rmin rmax].
    apply buildKdTree_rec_returns; [lia|assumption|assumption].
Qed.

(** [buildKdTree_returns] on [slab_scene]. *)
Lemma buildKdTree_returns_witness :
  Forall well_placed slab_scene
  /\ Z.of_nat (length slab_scene) < 2 ^ 22
  /\ exists root, init slab_scene = Some root.
Proof.
  assert (Hwp : Forall well_placed slab_scene).
  { repeat constructor; apply well_placed_planar; vm_compute; reflexivity. }
  assert (Hlen : Z.of_nat (length slab_scene) < 2 ^ 22) by (vm_compute; reflexivity).
  split; [exact Hwp|]. split; [exact Hlen|].
  exact (proj2 (buildKdTree_returns (mkPoint 0 0 0) (mkPoint 2 2 1) slab_scene 0
                  Hwp Hlen)).
Defined.

(** ** A NaN coordinate *)

Lemma float_eqb_defined x y :
  (x =? y)%float = true -> (x =? x)%float = true.
Proof.
  intros Heq. apply float_eqb_leb_sym, float_leb_defined in Heq. tauto.
Qed.

(** The inner loops of the sweep never consume an event whose position is a
    NaN. *)
Lemma skip_events_keeps_nan position t evs e :
  In e evs -> (ev_position e =? ev_position e)%float = false ->
  In e (snd (skip_events position t evs)).
Proof.
  intros Hin Hnan. induction evs as [|x evs IH]; [destruct Hin|].
  cbn [skip_events].
  destruct ((ev_position x =? position)%float && EventType_eqb (ev_type x) t)
    eqn:Hc; [|exact Hin].
  destruct Hin as [->|Hin].
  - apply andb_true_iff in Hc. destruct Hc as [Hc _].
    apply float_eqb_defined in Hc. congruence.
  - specialize (IH Hin). destruct (skip_events position t evs) as [n rest].
    exact IH.
Qed.

(** On events one of which has a NaN position the sweep does not end. *)
Lemma sweep_never_ends fuel : forall nmin nmax axis evs NL NR best e,
  In e evs -> (ev_position e =? ev_position e)%float = false ->
  sweep fuel nmin nmax axis evs NL NR best = None.
Proof.
  induction fuel as [|fuel IH]; intros nmin nmax axis evs NL NR best e Hin Hnan;
    destruct evs as [|e0 evs]; try (destruct Hin; fail); [reflexivity|].
  cbn [sweep].
  pose proof (skip_events_keeps_nan (ev_position e0) Start _ e
                (skip_events_keeps_nan (ev_position e0) Planar _ e
                   (skip_events_keeps_nan (ev_position e0) End _ e Hin Hnan)
                   Hnan) Hnan) as Hin3.
  destruct (skip_events (ev_position e0) End (e0 :: evs)) as [PE evs1].
  cbn [snd] in Hin3.
  destruct (skip_events (ev_position e0) Planar evs1) as [PP evs2].
  cbn [snd] in Hin3.
  destruct (skip_events (ev_position e0) Start evs2) as [PS evs3].
  cbn [snd] in Hin3.
  eapply IH; eassumption.
Qed.

Lemma In_insert_event e x l : In e (x :: l) -> In e (insert_event x l).
Proof.
  induction l as [|y l IH]; simpl; [auto|].
  destruct (cmpKdEvent y x); simpl in *; intuition.
Qed.

Lemma In_sort_events e l : In e l -> In e (sort_events l).
Proof.
  unfold sort_events. induction l as [|x l IH]; simpl; [auto|].
  intros Hin. apply In_insert_event. simpl. intuition.
Qed.

Lemma sweep_axis_never_ends nmin nmax lst axis best g :
  In g lst ->
  (let p := Point_get (fst (getBoundingBox g)) axis in (p =? p)%float = false)
  \/ (let q := Point_get (snd (getBoundingBox g)) axis in (q =? q)%float = false) ->
  sweep_axis nmin nmax lst axis best = None.
Proof.
  intros Hin Hnan. unfold sweep_axis.
  assert (Hev : exists e, In e (generate_events axis lst)
                          /\ (ev_position e =? ev_position e)%float = false).
  { unfold generate_events.
    assert (Hof : exists e, In e (events_of axis g)
                            /\ (ev_position e =? ev_position e)%float = false).
    { unfold events_of. destruct (getBoundingBox g) as [bmin bmax]. simpl in Hnan.
      destruct (Point_get bmin axis =? Point_get bmax axis)%float eqn:Heq.
      - pose proof (float_eqb_defined _ _ Heq) as Hp.
        pose proof (float_eqb_leb_sym _ _ Heq) as Hle.
        apply float_leb_defined in Hle. destruct Hle as [Hq _].
        destruct Hnan; congruence.
      - destruct Hnan as [Hp|Hq].
        + exists (mkKdEvent g (Point_get bmin axis) Start). simpl. auto.
        + exists (mkKdEvent g (Point_get bmax axis) End). simpl. auto. }
    destruct Hof as (e & He & Hn). exists e. split; [|exact Hn].
    apply in_concat. exists (events_of axis g). split; [|exact He].
    apply in_map. exact Hin. }
  destruct Hev as (e & He & Hn).
  eapply sweep_never_ends; [apply In_sort_events; exact He|exact Hn].
Qed.

(** X23.  When the box [getBoundingBox] gives for a geometry of the list has
    a NaN coordinate, [splitSAH] does not return: on the axis of that
    coordinate, in whatever order the events are swept, the event at the NaN
    position is never consumed, no comparison with [position] holding, and
    the loop of lines 230-288, which has no increment of its own, goes round
    for ever.  So [buildKdTree] does not return either on such a list of
    more than 8 geometries at a depth of at most 18. *)
Theorem splitSAH_never_returns_on_nan nmin nmax lst g axis :
  In g lst -> 0 <= axis <= 2 ->
  (let p := Point_get (fst (getBoundingBox g)) axis in (p =? p)%float = false)
  \/ (let q := Point_get (snd (getBoundingBox g)) axis in (q =? q)%float = false) ->
  splitSAH nmin nmax lst = None
  /\ forall depth, 8 < Z.of_nat (length lst) -> depth <= 18 ->
       buildKdTree nmin nmax lst depth = None.
Proof.
  intros Hin Hax Hnan.
  assert (Hs : splitSAH nmin nmax lst = None).
  { unfold splitSAH.
    destruct (sweep_axis nmin nmax lst 0 _) as [b0|] eqn:H0; [|reflexivity].
    destruct (sweep_axis nmin nmax lst 1 b0) as [b1|] eqn:H1; [|reflexivity].
    assert (axis = 0 \/ axis = 1 \/ axis = 2) as [-> | [-> | ->]] by lia.
    - rewrite (sweep_axis_never_ends _ _ _ 0 _ g Hin Hnan) in H0. discriminate.
    - rewrite (sweep_axis_never_ends _ _ _ 1 _ g Hin Hnan) in H1. discriminate.
    - apply (sweep_axis_never_ends _ _ _ 2 _ g Hin Hnan). }
  split; [exact Hs|]. intros depth Hlen Hd. unfold buildKdTree.
  destruct (Z.to_nat (19 - depth)) as [|fuel] eqn:Hfuel; [lia|].
  cbn [buildKdTree_rec].
  destruct (leaf_test lst depth) eqn:Hlt;
    [apply leaf_test_true in Hlt; lia|].
  rewrite Hs. reflexivity.
Qed.

(** [splitSAH_never_returns_on_nan] on [nan_scene]: nine triangles, the
    first vertex of one of them having a NaN x coordinate. *)
Lemma splitSAH_never_returns_on_nan_witness :
  In (planar_triangle nan) nan_scene
  /\ (Point_get (fst (getBoundingBox (planar_triangle nan))) 0
      =? Point_get (fst (getBoundingBox (planar_triangle nan))) 0)%float = false
  /\ splitSAH (mkPoint 0 0 0) (mkPoint 2 2 1) nan_scene = None
  /\ buildKdTree (mkPoint 0 0 0) (mkPoint 2 2 1) nan_scene 0 = None.
Proof.
  assert (Hin : In (planar_triangle nan) nan_scene) by (left; reflexivity).
  assert (Hnan : (Point_get (fst (getBoundingBox (planar_triangle nan))) 0
                  =? Point_get (fst (getBoundingBox (planar_triangle nan))) 0)%float
                 = false) by (vm_compute; reflexivity).
  assert (Hax : 0 <= 0 <= 2) by lia.
  split; [exact Hin|]. split; [exact Hnan|].
  destruct (splitSAH_never_returns_on_nan (mkPoint 0 0 0) (mkPoint 2 2 1)
              nan_scene (planar_triangle nan) 0 Hin Hax (or_introl Hnan))
    as [Hs Hb].
  split; [exact Hs|]. apply Hb; [vm_compute; reflexivity|lia].
Defined.
